(** * AudioStrike music node: publication signing, validation and peer sync

    A shallow embedding of

      - [pkg/art/art.proto]            the catalogue records,
      - [internal/lightningnode.go]    [NewLightningNode], [Sign],
                                       [ValidatePublication], [Pubkey],
      - [cmd/austk/austk.go]           [main], [storeMp3File], [startServer],
                                       [setArtistPubkey], [playTracks],

    followed by the properties of the publication protocol and of the sync
    loop.

    The Go code talks to collaborators whose code is elsewhere: the lnd
    signing service (gRPC), the protobuf codec, the art store, the mp3
    reader and the peer client.  Every such call is a node of a program
    tree ([prog]); a handler over a world state answers the calls, so the
    collaborators may be stateful and may fail at any call.  Running a
    program gives the ordered list of calls with their answers, the way the
    program ended (return, [log.Fatalf] exit, panic) and the final world. *)

From Stdlib Require Import String Ascii List Bool NArith ZArith Lia.
From Stdlib.Strings Require Import Byte.
From Stdlib Require Import DecimalString.
From Stdlib Require DecimalN DecimalPos.
Import ListNotations.
Local Open Scope list_scope.
Local Open Scope string_scope.

Set Implicit Arguments.

(** ** Go values *)

(** [[]byte]. *)
Definition bytes := list byte.

(** Go [error] values.  [ErrArtNotFound] is the sentinel of the internal
    package which the code compares by identity; [Errorf] is an error made
    in place by [fmt.Errorf]; [FlagsError] is a [*flags.Error], with
    whether its [Type] is [flags.ErrHelp]; every other error comes from a
    collaborator and is kept as its message. *)
Inductive error : Type :=
| ErrArtNotFound
| Errorf (msg : string)
| FlagsError (isErrHelp : bool)
| ExternalError (msg : string).

(** [err == audiostrike.ErrArtNotFound]. *)
Definition is_ErrArtNotFound (err : option error) : bool :=
  match err with
  | Some ErrArtNotFound => true
  | _ => false
  end.

(** [err != nil]. *)
Definition not_nil {T : Type} (p : option T) : bool :=
  match p with
  | Some _ => true
  | None => false
  end.

(** A Go result pair [(p *T, err error)]: either component may be nil. *)
Definition pair_result (T : Type) : Type := (option T * option error)%type.

(** ** pkg/art/art.proto *)

Module art.

Module Artist.
Record t : Type := mk { ArtistId : string; Name : string; Pubkey : string }.
End Artist.
Definition Artist := Artist.t.

Module Album.
Record t : Type := mk {
  ArtistId : string;
  ArtistAlbumId : string;
  Title : string;
  ArtistTrackId : list string }.
End Album.
Definition Album := Album.t.

Module Track.
Record t : Type := mk {
  ArtistId : string;
  ArtistAlbumId : string;
  ArtistTrackId : string;
  AlbumTrackNumber : N;
  Title : string }.
End Track.
Definition Track := Track.t.

Module Peer.
Record t : Type := mk { Pubkey : string; Host : string; Port : N }.
End Peer.
Definition Peer := Peer.t.

Module ArtResources.
Record t : Type := mk {
  Artists : list Artist;
  Albums : list Album;
  Tracks : list Track;
  Peers : list Peer }.
End ArtResources.
Definition ArtResources := ArtResources.t.

(** [Artist] is a message field, in Go a pointer that is nil when the field
    is absent. *)
Module ArtistPublication.
Record t : Type := mk {
  Artist : option art.Artist;
  Signature : string;
  SerializedArtResources : bytes }.
End ArtistPublication.
Definition ArtistPublication := ArtistPublication.t.

End art.

(** ** lnrpc messages used by the node *)

Module lnrpc.

Record SignMessageResponse : Type := { Signature : string }.

Record VerifyMessageResponse : Type := { Valid : bool; Pubkey : string }.

Record GetInfoResponse : Type := { IdentityPubkey : string }.

(** Handle of a gRPC connection to lnd. *)
Definition LightningClient := nat.

(** Loaded TLS credentials and a decoded macaroon, as tokens. *)
Definition TransportCredentials := nat.
Definition Macaroon := nat.

End lnrpc.

(** ** The internal package: what [main] and the node use of it *)

Module audiostrike.

(** The fields of [Config] that the embedded code reads or writes.  The
    struct itself is declared in [internal/config.go]. *)
Record Config : Type := {
  ArtistID : string;
  ArtistName : string;
  ArtDir : string;
  AddMp3Filename : string;
  PlayMp3 : bool;
  RunAsDaemon : bool;
  PeerAddress : string;
  Pubkey : string;
  RestHost : string;
  TorProxy : string;
  LndHost : string;
  LndGrpcPort : Z;
  TlsCertPath : string;
  MacaroonPath : string }.

Definition set_Pubkey (cfg : Config) (pubkey : string) : Config :=
  {| ArtistID := ArtistID cfg; ArtistName := ArtistName cfg;
     ArtDir := ArtDir cfg; AddMp3Filename := AddMp3Filename cfg;
     PlayMp3 := PlayMp3 cfg; RunAsDaemon := RunAsDaemon cfg;
     PeerAddress := PeerAddress cfg; Pubkey := pubkey;
     RestHost := RestHost cfg; TorProxy := TorProxy cfg;
     LndHost := LndHost cfg; LndGrpcPort := LndGrpcPort cfg;
     TlsCertPath := TlsCertPath cfg; MacaroonPath := MacaroonPath cfg |}.

(** Handles of the objects whose code is in other files of the package:
    the art store ([*FileServer], used as [ArtServer]), the publishing
    server ([*AustkServer]) and a peer connection ([*Client]). *)
Definition FileServer := nat.
Definition AustkServer := nat.
Definition Client := nat.

(** An opened mp3 file: the three tag getters [ArtistName()], [Title()] and
    [AlbumTitle()] are reads of the parsed tags. *)
Record Mp3 : Type := {
  mp3_ArtistName : string;
  mp3_Title : string;
  mp3_AlbumTitle : string * bool }.

(** [lightningnode.go], lines 19-22. *)
Record LightningNode : Type := {
  lightningClient : lnrpc.LightningClient;
  publishingArtist : option art.Artist }.

End audiostrike.

(** ** Calls to collaborators *)

(** One constructor per call that leaves the embedded code; the index is
    the Go result type.  gRPC stubs, the protobuf codec and the other
    libraries give either a result or an error (a sum), and so does
    [NewFileServer]; the other functions of this repository give a Go pair,
    in which a nil result may come with a nil error.  The elements of Go
    slices of pointers ([[]*art.Track], the peers) are taken non-nil. *)
Inductive Call : Type -> Type :=
(* log.Printf / log.Println: the format string as written in the source *)
| log_Printf (format : string) : Call unit
(* github.com/golang/protobuf/proto *)
| proto_Marshal (pb : art.ArtResources) : Call (bytes + error)
| proto_Unmarshal (buf : bytes) : Call (art.ArtResources + error)
(* lnrpc.LightningClient *)
| SignMessage (c : lnrpc.LightningClient) (msg : bytes)
  : Call (lnrpc.SignMessageResponse + error)
| VerifyMessage (c : lnrpc.LightningClient) (msg : bytes) (signature : string)
  : Call (lnrpc.VerifyMessageResponse + error)
| GetInfo (c : lnrpc.LightningClient) : Call (lnrpc.GetInfoResponse + error)
(* connecting to lnd: os/user, credentials, ioutil, macaroon, grpc *)
| user_Current : Call (string + error)
| NewClientTLSFromFile (certFile serverNameOverride : string)
  : Call (lnrpc.TransportCredentials + error)
| ioutil_ReadFile (filename : string) : Call (bytes + error)
| Macaroon_UnmarshalBinary (data : bytes) : Call (lnrpc.Macaroon + error)
| grpc_Dial (target : string) (creds : lnrpc.TransportCredentials)
    (mac : lnrpc.Macaroon) : Call (lnrpc.LightningClient + error)
(* audiostrike.ArtServer *)
| ArtServer_Artist (s : audiostrike.FileServer) (artistID : string)
  : Call (pair_result art.Artist)
| StoreArtist (s : audiostrike.FileServer) (artist : art.Artist)
  : Call (option error)
| StoreAlbum (s : audiostrike.FileServer) (album : art.Album)
    (publisher : option audiostrike.AustkServer) : Call (option error)
| StoreTrack (s : audiostrike.FileServer) (track : art.Track)
    (publisher : option audiostrike.AustkServer) : Call (option error)
| StoreTrackPayload (s : audiostrike.FileServer) (track : art.Track)
    (payload : bytes) : Call (option error)
| StorePublication (s : audiostrike.FileServer)
    (publication : option art.ArtistPublication) : Call (option error)
| StorePeer (s : audiostrike.FileServer) (peer : art.Peer)
    (publisher : option audiostrike.AustkServer) : Call (option error)
| Peers (s : audiostrike.FileServer) : Call (list art.Peer * option error)
| TrackFilePath (s : audiostrike.FileServer) (track : art.Track) : Call string
| CollectResources (s : audiostrike.FileServer)
  : Call (pair_result art.ArtResources)
(* audiostrike.Mp3 *)
| OpenMp3ToRead (filename : string) : Call (pair_result audiostrike.Mp3)
| ReadBytes (mp3 : audiostrike.Mp3) : Call (bytes * option error)
| PlayAndWait (mp3 : audiostrike.Mp3) : Call unit
(* audiostrike.AustkServer *)
| Server_Artist (s : audiostrike.AustkServer) : Call (pair_result art.Artist)
| Server_Pubkey (s : audiostrike.AustkServer) : Call (string * option error)
| Server_Sign (s : audiostrike.AustkServer) (resources : option art.ArtResources)
  : Call (pair_result art.ArtistPublication)
| Server_Start (s : audiostrike.AustkServer) : Call (option error)
| Server_Stop (s : audiostrike.AustkServer) : Call unit
| Server_WaitUntilQuitSignal (s : audiostrike.AustkServer) : Call unit
(* audiostrike.Client *)
| NewClient (torProxy peerAddress : string)
    (publisher : option audiostrike.AustkServer)
  : Call (pair_result audiostrike.Client)
| Client_SyncFromPeer (c : audiostrike.Client) (s : audiostrike.FileServer)
  : Call (pair_result art.ArtResources)
| Client_DownloadTracks (c : audiostrike.Client) (tracks : list art.Track)
    (s : audiostrike.FileServer) : Call (option error)
| Client_CloseConnection (c : audiostrike.Client) : Call unit
(* start-up *)
| LoadConfig : Call (pair_result audiostrike.Config)
| NewFileServer (artDir : string) : Call (audiostrike.FileServer + error)
| injectPublisher (cfg : audiostrike.Config) (s : audiostrike.FileServer)
    (lightning : option audiostrike.LightningNode)
  : Call (pair_result audiostrike.AustkServer).

(** ** Programs *)

(** A Go function body: it returns, performs a call and goes on with the
    answer, ends the process ([os.Exit], reached through [log.Fatalf]), or
    panics. *)
Inductive prog (A : Type) : Type :=
| Ret (a : A)
| Vis (X : Type) (c : Call X) (k : X -> prog A)
| Exit (code : Z)
| Panic (msg : string).

Arguments Ret {A} a.
Arguments Vis {A X} c k.
Arguments Exit {A} code.
Arguments Panic {A} msg.

Fixpoint bind {A B : Type} (p : prog A) (f : A -> prog B) : prog B :=
  match p with
  | Ret a => f a
  | Vis c k => Vis c (fun x => bind (k x) f)
  | Exit code => Exit code
  | Panic msg => Panic msg
  end.

Definition call {X : Type} (c : Call X) : prog X := Vis c (fun x => Ret x).

Declare Scope prog_scope.
Delimit Scope prog_scope with prog.
Notation "x <- p ;; q" := (bind p (fun x => q))
  (at level 61, p at next level, right associativity) : prog_scope.
Notation "' pat <- p ;; q" := (bind p (fun x => match x with pat => q end))
  (at level 61, pat pattern, p at next level, right associativity) : prog_scope.
Notation "p ;; q" := (bind p (fun _ => q))
  (at level 61, right associativity) : prog_scope.
Local Open Scope prog_scope.

(** [log.Printf]. *)
Definition Printf (format : string) : prog unit := call (log_Printf format).

(** [log.Fatalf]: [Printf] followed by [os.Exit(1)]. *)
Definition Fatalf {A : Type} (format : string) : prog A :=
  Printf format ;; Exit 1%Z.

(** Reading through a pointer. *)
Definition nil_dereference : string :=
  "runtime error: invalid memory address or nil pointer dereference".

Definition deref {T : Type} (p : option T) : prog T :=
  match p with
  | Some v => Ret v
  | None => Panic nil_dereference
  end.

(** [for _, x := range xs { body }]; a [continue] is the return of [body]. *)
Fixpoint forRange {T : Type} (xs : list T) (body : T -> prog unit) : prog unit :=
  match xs with
  | [] => Ret tt
  | x :: rest => body x ;; forRange rest body
  end.

(** [defer d] placed in front of [p]: [d] runs when the function returns or
    panics, not when the process exits. *)
Fixpoint defer {A : Type} (d : prog unit) (p : prog A) : prog A :=
  match p with
  | Ret a => d ;; Ret a
  | Vis c k => Vis c (fun x => defer d (k x))
  | Exit code => Exit code
  | Panic msg => d ;; Panic msg
  end.

(** ** Running a program against the collaborators *)

(** A call together with the answer it got. *)
Inductive event : Type :=
| Ev (X : Type) (c : Call X) (answer : X).

Arguments Ev {X} c answer.

Inductive outcome (A : Type) : Type :=
| Returned (a : A)
| Exited (code : Z)
| Panicked (msg : string).

Arguments Returned {A} a.
Arguments Exited {A} code.
Arguments Panicked {A} msg.

(** The collaborators: a state and, for every call, an answer and a next
    state. *)
Definition handler (W : Type) : Type := forall X : Type, Call X -> W -> X * W.

Record run_result (W A : Type) : Type := {
  trace : list event;
  result : outcome A;
  world : W }.

Fixpoint run {W A : Type} (h : handler W) (p : prog A) (w : W)
  : run_result W A :=
  match p with
  | Ret a => {| trace := []; result := Returned a; world := w |}
  | Vis c k =>
      let (x, w1) := h _ c w in
      let r := run h (k x) w1 in
      {| trace := Ev c x :: trace r; result := result r; world := world r |}
  | Exit code => {| trace := []; result := Exited code; world := w |}
  | Panic msg => {| trace := []; result := Panicked msg; world := w |}
  end.

(** The same run, as a condition on it: [post] holds of the trace, the
    outcome and the final world of [p] run from [w].  The answers are taken
    one call at a time. *)
Fixpoint runs {W A : Type} (h : handler W) (p : prog A) (w : W)
    (post : list event -> outcome A -> W -> Prop) : Prop :=
  match p with
  | Ret a => post [] (Returned a) w
  | Vis c k =>
      let (x, w1) := h _ c w in
      runs h (k x) w1 (fun tr => post (Ev c x :: tr))
  | Exit code => post [] (Exited code) w
  | Panic msg => post [] (Panicked msg) w
  end.

(** ** Go standard library functions used by the code

    These follow the documented behaviour of the library on a Unix system
    (separator [/]). *)

Module strings.

(** [strings.Join(elems, sep)]. *)
Definition Join (elems : list string) (sep : string) : string :=
  String.concat sep elems.

(** The pieces of [s] between occurrences of the byte [sep]. *)
Fixpoint splitByte (sep : ascii) (s : string) : list string :=
  match s with
  | EmptyString => [""]
  | String c rest =>
      if Ascii.eqb c sep then "" :: splitByte sep rest
      else match splitByte sep rest with
           | [] => [String c ""]
           | piece :: pieces => String c piece :: pieces
           end
  end.


End strings.

Module filepath.

(** One path element met by [Clean], [out] being the elements kept so far,
    last first: empty elements and [.] are dropped, [..] removes the
    element before it when there is one that is not itself [..], is kept
    in a relative path and dropped at the root. *)
Definition cleanElement (rooted : bool) (out : list string) (elem : string)
  : list string :=
  if String.eqb elem "" then out
  else if String.eqb elem "." then out
  else if String.eqb elem ".." then
    match out with
    | top :: below =>
        if String.eqb top ".." then (if rooted then out else ".." :: out)
        else below
    | [] => if rooted then out else [".."]
    end
  else elem :: out.



(** [filepath.Clean]. *)
Definition Clean (path : string) : string :=
  if String.eqb path "" then "."
  else
    let rooted := match path with
                  | String c _ => Ascii.eqb c "/"
                  | EmptyString => false
                  end in
    let out := fold_left (cleanElement rooted) (strings.splitByte "/" path) [] in
    let body := strings.Join (rev out) "/" in
    if rooted then "/" ++ body
    else if String.eqb body "" then "." else body.

(** [filepath.Join]: the elements from the first non-empty one on, joined
    by the separator and cleaned; the empty string when every element is
    empty. *)
Fixpoint Join (elem : list string) : string :=
  match elem with
  | [] => ""
  | e :: rest =>
      if String.eqb e "" then Join rest
      else Clean (strings.Join elem "/")
  end.

End filepath.

Module fmt.

(** [%d] of an unsigned and of a signed integer. *)
Definition decimal (n : N) : string := NilEmpty.string_of_uint (N.to_uint n).
Definition decimalZ (z : Z) : string := NilZero.string_of_int (Z.to_int z).

(** [fmt.Sprintf("%s:%d", host, port)]. *)
Definition Sprintf_host_port (host : string) (port : N) : string :=
  host ++ ":" ++ decimal port.

(** [fmt.Sprintf("%v:%d", host, port)] with an [int] port. *)
Definition Sprintf_host_int (host : string) (port : Z) : string :=
  host ++ ":" ++ decimalZ port.

End fmt.

Module strconv.

(** [strconv.ParseUint(s, 10, 32)] on a non-empty string of decimal digits
    (what the peer address pattern lets through): the number, or an error
    when it does not fit 32 bits. *)
Definition ParseUint_10_32 (s : string) : N + error :=
  match NilEmpty.uint_of_string s with
  | Some u =>
      let n := N.of_uint u in
      if (n <=? 4294967295)%N then inl n
      else inr (ExternalError "value out of range")
  | None => inr (ExternalError "invalid syntax")
  end.

End strconv.

(** ** internal/lightningnode.go *)

Module lightningNode.
Import audiostrike.

(** [tlsCertPath], lines 183-193. *)
Definition tlsCertPath (cfg : Config) : prog (string * option error) :=
  if String.eqb (TlsCertPath cfg) "" then
    currentUser <- call user_Current ;;
    match currentUser with
    | inr err => Ret ("", Some err)
    | inl homeDir => Ret (homeDir ++ "/.lnd/tls.cert", None)
    end
  else Ret (TlsCertPath cfg, None).

(** [macaroonPath], lines 226-241. *)
Definition macaroonPath (cfg : Config) : prog (string * option error) :=
  if String.eqb (MacaroonPath cfg) "" then
    currentUser <- call user_Current ;;
    match currentUser with
    | inr err => Ret ("", Some err)
    | inl homeDir =>
        let network := "regtest" in
        Ret (homeDir ++ "/.lnd/data/chain/bitcoin/" ++ network ++ "/admin.macaroon",
             None)
    end
  else Ret (MacaroonPath cfg, None).

(** [macaroonFromFile], lines 197-221. *)
Definition macaroonFromFile (cfg : Config) : prog (pair_result lnrpc.Macaroon) :=
  let logPrefix := "lightningnode macaroonFromFile " in
  '(macaroonFilePath, err) <- macaroonPath cfg ;;
  if not_nil err then
    Fatalf (logPrefix ++ "failed to get macaroon from config %v, error: %v")
  else
    macaroonData <- call (ioutil_ReadFile macaroonFilePath) ;;
    match macaroonData with
    | inr err =>
        Printf (logPrefix ++ "ReadFile %s, error: %v") ;;
        Ret (None, Some err)
    | inl macaroonData =>
        lndMacaroon <- call (Macaroon_UnmarshalBinary macaroonData) ;;
        match lndMacaroon with
        | inr err =>
            Printf (logPrefix ++ "UnmarshalBinary macaroon error: %v") ;;
            Ret (None, Some err)
        | inl lndMacaroon => Ret (Some lndMacaroon, None)
        end
    end.

(** [Artist], lines 101-103. *)
Definition Artist (lightningNode : LightningNode) : pair_result art.Artist :=
  (publishingArtist lightningNode, None).

(** [Sign], lines 106-129. *)
Definition Sign (lightningNode : LightningNode) (resources : art.ArtResources)
  : prog (pair_result art.ArtistPublication) :=
  let logPrefix := "lightning Sign " in
  marshaled <- call (proto_Marshal resources) ;;
  match marshaled with
  | inr err =>
      Printf (logPrefix ++ "Marshal %v, error: %v") ;;
      Ret (None, Some err)
  | inl marshaledResources =>
      signMessageResult <-
        call (SignMessage (lightningClient lightningNode) marshaledResources) ;;
      match signMessageResult with
      | inr err =>
          Printf (logPrefix ++ "SignMessage error: %v") ;;
          Ret (None, Some err)
      | inl signMessageResult =>
          let publicationSignature := lnrpc.Signature signMessageResult in
          Printf (logPrefix ++ "Signed message %v, signature: %v") ;;
          Ret (Some {| art.ArtistPublication.Artist :=
                         publishingArtist lightningNode;
                       art.ArtistPublication.Signature := publicationSignature;
                       art.ArtistPublication.SerializedArtResources :=
                         marshaledResources |},
               None)
      end
  end.

(** [ValidatePublication], lines 131-161.  The variable [err] of the source
    is nil once the verify call has returned without error; line 151
    returns that variable. *)
Definition ValidatePublication (lightningNode : LightningNode)
    (publication : art.ArtistPublication) : prog (pair_result art.ArtResources) :=
  let logPrefix := "lightningNode ValidatePublication " in
  verified <-
    call (VerifyMessage (lightningClient lightningNode)
            (art.ArtistPublication.SerializedArtResources publication)
            (art.ArtistPublication.Signature publication)) ;;
  match verified with
  | inr err =>
      Printf (logPrefix ++ "failed to verify message, error: %v") ;;
      Ret (None, Some err)
  | inl verifyMessageResponse =>
      let err : option error := None in
      if negb (lnrpc.Valid verifyMessageResponse) then
        Printf (logPrefix ++ "Signature %s is not valid for message %v") ;;
        Ret (None, Some (Errorf "Signature failed verification"))
      else
        artist <- deref (art.ArtistPublication.Artist publication) ;;
        if negb (String.eqb (lnrpc.Pubkey verifyMessageResponse)
                   (art.Artist.Pubkey artist)) then
          Printf (logPrefix ++
                  "Signature pubkey %s does not match pubkey for publishing artist %v") ;;
          Ret (None, err)
        else
          unmarshaled <-
            call (proto_Unmarshal
                    (art.ArtistPublication.SerializedArtResources publication)) ;;
          match unmarshaled with
          | inr err =>
              Printf (logPrefix ++ "Unmarshal error: %v") ;;
              Ret (None, Some err)
          | inl artResources => Ret (Some artResources, None)
          end
  end.

(** [pubkey], lines 169-179. *)
Definition pubkey (lightningClient : lnrpc.LightningClient)
  : prog (string * option error) :=
  getInfoResponse <- call (GetInfo lightningClient) ;;
  match getInfoResponse with
  | inr err => Ret ("", Some err)
  | inl getInfoResponse => Ret (lnrpc.IdentityPubkey getInfoResponse, None)
  end.

(** [Pubkey], lines 165-167. *)
Definition Pubkey (lightningNode : LightningNode) : prog (string * option error) :=
  pubkey (lightningClient lightningNode).

(** [NewLightningNode], lines 24-99.  [cfg] is a pointer in the source and
    line 75 writes its [Pubkey]: the configuration is returned with the
    result. *)
Definition NewLightningNode (cfg : Config) (localStorage : FileServer)
  : prog (pair_result LightningNode * Config) :=
  let logPrefix := "lightningNode NewLightningNode " in
  '(tlsCertFilePath, err) <- tlsCertPath cfg ;;
  if not_nil err then
    Fatalf (logPrefix ++ "failed to get tls cert path, error: %v")
  else
  lndTlsCreds <- call (NewClientTLSFromFile tlsCertFilePath "") ;;
  match lndTlsCreds with
  | inr _ => Fatalf (logPrefix ++ "failed to get tls credentials from %s, error: %v")
  | inl lndTlsCreds =>
  '(lndMacaroon, err) <- macaroonFromFile cfg ;;
  match err with
  | Some _ =>
      Printf (logPrefix ++ "UnmarchalBinary macaroon error: %v" ++ String "010" "") ;;
      Ret ((None, err), cfg)
  | None =>
  lndMacaroon <- deref lndMacaroon ;;
  let lndGrpcEndpoint := fmt.Sprintf_host_int (LndHost cfg) (LndGrpcPort cfg) in
  Printf (logPrefix ++ "Dial lnd grpc at %v...") ;;
  lndConn <- call (grpc_Dial lndGrpcEndpoint lndTlsCreds lndMacaroon) ;;
  match lndConn with
  | inr err =>
      Printf (logPrefix ++ "Dial lnd error: %v") ;;
      Ret ((None, Some err), cfg)
  | inl lndClient =>
  if String.eqb (ArtistID cfg) "" then
    Fatalf (logPrefix ++ "No artist configured")
  else
  '(publishingArtist, err) <- call (ArtServer_Artist localStorage (ArtistID cfg)) ;;
  if is_ErrArtNotFound err then
    '(pubkey, err) <- pubkey lndClient ;;
    if not_nil err then
      Fatalf (logPrefix ++ "failed to get pubkey from lnd %s, error: %v")
    else
    cfg <-
      (if String.eqb (audiostrike.Pubkey cfg) "" then Ret (set_Pubkey cfg pubkey)
       else if negb (String.eqb (audiostrike.Pubkey cfg) pubkey) then
         Fatalf (logPrefix ++
                 "lnd %s has pubkey %s but artist %v configured pubkey %s")
       else Ret cfg) ;;
    let publishingArtist :=
      {| art.Artist.ArtistId := ArtistID cfg;
         art.Artist.Name := ArtistName cfg;
         art.Artist.Pubkey := pubkey |} in
    err <- call (StoreArtist localStorage publishingArtist) ;;
    if not_nil err then
      Fatalf (logPrefix ++ "failed to store artist %v, error: %v")
    else
      Printf (logPrefix ++ "stored %v") ;;
      Ret ((Some {| lightningClient := lndClient;
                    publishingArtist := Some publishingArtist |}, None), cfg)
  else if not_nil err then
    Fatalf (logPrefix ++ "failed to get artist %s from storage, error: %v")
  else
    Ret ((Some {| lightningClient := lndClient;
                  publishingArtist := publishingArtist |}, None), cfg)
  end
  end
  end.

End lightningNode.


(** ** Methods of the publishing server and of the peer client *)

Module server.
Import audiostrike.

(** Modelled from the spec: the bodies of the [*AustkServer] methods
    ([internal/server.go]) are not among the sources.  Each is taken to read
    through its receiver before anything else, so that a call on a nil
    server is a nil dereference; on a server it is a call to the
    collaborator.  [Artist] is the method called at line 80 of [main]. *)
Definition Artist (austkServer : option AustkServer) : prog (pair_result art.Artist) :=
  s <- deref austkServer ;; call (Server_Artist s).

(** Modelled from the spec: [Pubkey], [Sign], [Start], [Stop] and
    [WaitUntilQuitSignal] of [*AustkServer], as [Artist] above. *)
Definition Pubkey (austkServer : option AustkServer) : prog (string * option error) :=
  s <- deref austkServer ;; call (Server_Pubkey s).

Definition Sign (austkServer : option AustkServer)
    (resources : option art.ArtResources)
  : prog (pair_result art.ArtistPublication) :=
  s <- deref austkServer ;; call (Server_Sign s resources).

Definition Start (austkServer : option AustkServer) : prog (option error) :=
  s <- deref austkServer ;; call (Server_Start s).

Definition Stop (austkServer : option AustkServer) : prog unit :=
  s <- deref austkServer ;; call (Server_Stop s).

Definition WaitUntilQuitSignal (austkServer : option AustkServer) : prog unit :=
  s <- deref austkServer ;; call (Server_WaitUntilQuitSignal s).

End server.

Module client.
Import audiostrike.

(** Modelled from the spec: the [*Client] methods ([internal/client.go]) are
    not among the sources either; they too are taken to read through their
    receiver. *)
Definition SyncFromPeer (client : option Client) (localStorage : FileServer)
  : prog (pair_result art.ArtResources) :=
  c <- deref client ;; call (Client_SyncFromPeer c localStorage).

Definition DownloadTracks (client : option Client) (tracks : list art.Track)
    (localStorage : FileServer) : prog (option error) :=
  c <- deref client ;; call (Client_DownloadTracks c tracks localStorage).

Definition CloseConnection (client : option Client) : prog unit :=
  c <- deref client ;; call (Client_CloseConnection c).

End client.

(** ** cmd/austk/austk.go *)

Module austk.
Import audiostrike.

(** *** The peer address pattern, line 15

    [^(?P<pubkey>[0-9a-f]+)@(?P<host>[a-z0-9.]+):(?P<port>[0-9]+)$] *)

Definition isDigit (c : ascii) : bool :=
  let n := N_of_ascii c in ((48 <=? n) && (n <=? 57))%N.

Definition isLowerHex (c : ascii) : bool :=
  let n := N_of_ascii c in isDigit c || ((97 <=? n) && (n <=? 102))%N.

Definition isHostChar (c : ascii) : bool :=
  let n := N_of_ascii c in
  isDigit c || ((97 <=? n) && (n <=? 122))%N || Ascii.eqb c ".".

(** The longest prefix of [s] made of characters in [class], and the rest. *)
Fixpoint span (class : ascii -> bool) (s : string) : string * string :=
  match s with
  | EmptyString => ("", "")
  | String c rest =>
      if class c then let (run, tail) := span class rest in (String c run, tail)
      else ("", s)
  end.

(** [peerAddressRegexp.FindStringSubmatch]: the groups 1 to 3 of the match,
    or nil.  No class contains the delimiter that follows it, so each group
    is the whole run of its class. *)
Definition FindStringSubmatch (s : string) : option (string * string * string) :=
  let (pubkey, rest) := span isLowerHex s in
  match pubkey, rest with
  | String _ _, String "@" rest =>
      let (host, rest) := span isHostChar rest in
      match host, rest with
      | String _ _, String ":" rest =>
          let (port, rest) := span isDigit rest in
          match port, rest with
          | String _ _, EmptyString => Some (pubkey, host, port)
          | _, _ => None
          end
      | _, _ => None
      end
  | _, _ => None
  end.

Section WithSlugs.

(** [audiostrike.NameToID] and [audiostrike.TitleToHierarchy] are functions
    from strings to strings whose code is in another file of the internal
    package. *)
Variable NameToID : string -> string.
Variable TitleToHierarchy : string -> string.

(** [setArtistPubkey], lines 326-343.  The artist is a pointer: line 336
    writes through it. *)
Definition setArtistPubkey (cfg : Config) (austkServer : option AustkServer)
    (localStorage : FileServer) (artist : option art.Artist)
  : prog (option error) :=
  let logPrefix := "austk setArtistPubkey " in
  '(pubkey, err) <- server.Pubkey austkServer ;;
  if not_nil err then Fatalf (logPrefix ++ "s.Pubkey error: %v")
  else
    a <- deref artist ;;
    let artist :=
      {| art.Artist.ArtistId := art.Artist.ArtistId a;
         art.Artist.Name := art.Artist.Name a;
         art.Artist.Pubkey := pubkey |} in
    err <- call (StoreArtist localStorage artist) ;;
    if not_nil err then Fatalf (logPrefix ++ "StoreArtist %v, error: %v")
    else Ret None.

(** [playTracks], lines 178-191. *)
Definition playTracks (tracks : list art.Track) (fileServer : FileServer)
  : prog (option error) :=
  let logPrefix := "austk playTracks " in
  forRange tracks (fun track =>
    mp3FilePath <- call (TrackFilePath fileServer track) ;;
    '(mp3, err) <- call (OpenMp3ToRead mp3FilePath) ;;
    if not_nil err then Fatalf (logPrefix ++ "OpenMp3ToRead %v, error: %v")
    else
      mp3 <- deref mp3 ;;
      call (PlayAndWait mp3)) ;;
  Ret None.

(** [storeMp3File], lines 196-298.  The error of [StoreAlbum] is assigned to
    [err] at line 242; the next use of [err] is its assignment at line
    260. *)
Definition storeMp3File (cfg : Config) (filename : string)
    (localStorage : FileServer) (austkServer : option AustkServer)
  : prog (pair_result Mp3) :=
  let logPrefix := "austk storeMp3File " in
  '(mp3p, err) <- call (OpenMp3ToRead filename) ;;
  if not_nil err then Ret (None, err)
  else
  mp3 <- deref mp3p ;;
  let artistName := mp3_ArtistName mp3 in
  let artistID := NameToID artistName in
  (* Store the artist if not yet known *)
  '(artist, err) <- call (ArtServer_Artist localStorage artistID) ;;
  if not_nil err && negb (is_ErrArtNotFound err) then
    Fatalf (logPrefix ++ "failed to get artist %s, error: %v")
  else
  stored <-
    match artist with
    | Some _ => Ret None
    | None =>
        (* Store the artist. *)
        let artist :=
          {| art.Artist.ArtistId := artistID;
             art.Artist.Name := artistName;
             art.Artist.Pubkey := "" |} in
        err <-
          (if String.eqb artistID (ArtistID cfg) then
             Printf (logPrefix ++ "store artist %v with pubkey from lnd") ;;
             setArtistPubkey cfg austkServer localStorage (Some artist)
           else
             Printf (logPrefix ++ "store artist %v without pubkey") ;;
             call (StoreArtist localStorage artist)) ;;
        if not_nil err then
          Printf (logPrefix ++ "StoreArtist %v, error: %v") ;;
          Ret err
        else Ret None
    end ;;
  if not_nil stored then Ret (None, stored)
  else
  let trackTitle := mp3_Title mp3 in
  let (albumTitle, isInAlbum) := mp3_AlbumTitle mp3 in
  let trackTitleID := NameToID trackTitle in
  Printf (logPrefix ++ "file: %v" ++ String "010" (String "009" "Title: %v")
          ++ String "010" (String "009" "Artist: %v")
          ++ String "010" (String "009" "Album: %v")
          ++ String "010" (String "009" "Tags: %v")) ;;
  '(artistAlbumID, artistTrackID, err) <-
    (if isInAlbum then
       let artistAlbumID := TitleToHierarchy albumTitle in
       err <- call (StoreAlbum localStorage
                      {| art.Album.ArtistId := artistID;
                         art.Album.ArtistAlbumId := artistAlbumID;
                         art.Album.Title := albumTitle;
                         art.Album.ArtistTrackId := [] |}
                      austkServer) ;;
       Ret (artistAlbumID, filepath.Join [artistAlbumID; trackTitleID], err)
     else
       Ret ("", trackTitleID, None)) ;;
  (* Store the track *)
  let track :=
    {| art.Track.ArtistId := artistID;
       art.Track.ArtistAlbumId := artistAlbumID;
       art.Track.ArtistTrackId := artistTrackID;
       art.Track.AlbumTrackNumber := 0%N;
       art.Track.Title := trackTitle |} in
  err <- call (StoreTrack localStorage track austkServer) ;;
  if not_nil err then
    Printf (logPrefix ++ "StoreTrack %v, error: %v") ;;
    Ret (None, err)
  else
  '(trackPayload, err) <- call (ReadBytes mp3) ;;
  if not_nil err then
    Printf (logPrefix ++ "ReadBytes error: %v") ;;
    Ret (None, err)
  else
  err <- call (StoreTrackPayload localStorage track trackPayload) ;;
  if not_nil err then
    Printf (logPrefix ++ "StoreTrackPayload for %s/%s with %d bytes, error: %v") ;;
    Ret (None, err)
  else
  '(resources, err) <- call (CollectResources localStorage) ;;
  if not_nil err then
    Printf (logPrefix ++ "Failed to collect resources, error: %v") ;;
    Ret (None, err)
  else
  '(publication, err) <- server.Sign austkServer resources ;;
  if not_nil err then
    Printf (logPrefix ++ "Failed to sign resources %v, error: %v") ;;
    Ret (None, err)
  else
  err <- call (StorePublication localStorage publication) ;;
  if not_nil err then
    Printf (logPrefix ++ "Failed to store publication %v, error: %v") ;;
    Ret (None, err)
  else
  Ret (Some mp3, None).

(** [startServer], lines 303-324. *)
Definition startServer (cfg : Config) (localStorage : FileServer)
    (austkServer : option AustkServer) : prog (option error) :=
  let logPrefix := "austk startServer " in
  '(artist, err) <- call (ArtServer_Artist localStorage (ArtistID cfg)) ;;
  if not_nil err then Fatalf (logPrefix ++ "failed to get artist %s, error: %v")
  else
  err <- setArtistPubkey cfg austkServer localStorage artist ;;
  if not_nil err then Fatalf (logPrefix ++ "failed to setArtistPubkey, error: %v")
  else
  err <- server.Start austkServer ;;
  if not_nil err then Fatalf (logPrefix ++ "Start error: %v")
  else Ret None.

Definition logPrefix : string := "austk main ".

(** The double quote character of a format string. *)
Definition quote : string := String (ascii_of_nat 34) "".

(** [main], lines 72-81: the publisher is built; a failure ends the process
    only when an mp3 is to be added or the node runs as a daemon. *)
Definition main_publisher (cfg : Config) (localStorage : FileServer)
    (lightning : option LightningNode) : prog (option AustkServer) :=
  '(austkServer, err) <- call (injectPublisher cfg localStorage lightning) ;;
  (if not_nil err then
     if negb (String.eqb (AddMp3Filename cfg) "") || RunAsDaemon cfg then
       Fatalf (logPrefix ++ "Failed to connect to lightning network, error: %v")
     else
       Printf (logPrefix ++ "failed to connect to lightning network, error: %v")
   else Ret tt) ;;
  '(injectedArtist, _) <- server.Artist austkServer ;;
  Printf (logPrefix ++ "injected lnd into new austk server for artist %v") ;;
  Ret austkServer.

(** [main], lines 83-93. *)
Definition main_add (cfg : Config) (localStorage : FileServer)
    (austkServer : option AustkServer) : prog unit :=
  if negb (String.eqb (AddMp3Filename cfg) "") then
    '(mp3, err) <- storeMp3File cfg (AddMp3Filename cfg) localStorage austkServer ;;
    if not_nil err then Fatalf (logPrefix ++ "storeMp3File error: %v")
    else
      Printf (logPrefix ++ "storeMp3File %s ok") ;;
      if PlayMp3 cfg then
        mp3 <- deref mp3 ;; call (PlayAndWait mp3)
      else Ret tt
  else Ret tt.

(** [main], lines 109-127: the configured peer is parsed and stored. *)
Definition main_peer (cfg : Config) (localStorage : FileServer)
    (austkServer : option AustkServer) : prog unit :=
  if negb (String.eqb (PeerAddress cfg) "") then
    match FindStringSubmatch (PeerAddress cfg) with
    | None =>
        Fatalf (logPrefix ++ "Failed to parse peer address (pubkey@host:port) from %s")
    | Some (peerPubkey, peerHost, peerPortString) =>
        match strconv.ParseUint_10_32 peerPortString with
        | inr _ =>
            Fatalf (logPrefix ++ "error reading peer port " ++ quote ++ "%s" ++ quote
                    ++ " as decimal, error: %v")
        | inl peerPort =>
            let peer :=
              {| art.Peer.Pubkey := peerPubkey;
                 art.Peer.Host := peerHost;
                 art.Peer.Port := peerPort |} in
            err <- call (StorePeer localStorage peer austkServer) ;;
            if not_nil err then
              Fatalf (logPrefix ++ "failed to store configured peer %s, error: %v")
            else Ret tt
        end
    end
  else Ret tt.

(** The guard of line 134. *)
Definition isSelf (cfg : Config) (peer : art.Peer) : bool :=
  String.eqb (art.Peer.Pubkey peer) (Pubkey cfg)
  && String.eqb (art.Peer.Host peer) (RestHost cfg).

(** [main], lines 134-167: the body of the loop over the peers. *)
Definition syncPeer (cfg : Config) (localStorage : FileServer)
    (austkServer : option AustkServer) (peer : art.Peer) : prog unit :=
  if isSelf cfg peer then
    Printf (logPrefix ++ "skip sync from self pubkey %v")
    (* continue to next peer *)
  else
    Printf (logPrefix ++ "sync from peer %v") ;;
    let peerAddress :=
      fmt.Sprintf_host_port (art.Peer.Host peer) (art.Peer.Port peer) in
    '(client, err) <- call (NewClient (TorProxy cfg) peerAddress austkServer) ;;
    if not_nil err then
      Fatalf (logPrefix ++ "NewClient via torProxy %v to peerAddress %v, error: %v")
    else
    '(resources, err) <- client.SyncFromPeer client localStorage ;;
    if not_nil err then
      (* Log misbehaving peer but continue with other peers. *)
      Printf (logPrefix ++ "SyncFromPeer error: %v") ;;
      client.CloseConnection client
      (* continue *)
    else
    (if PlayMp3 cfg then
       resources <- deref resources ;;
       let tracks := art.ArtResources.Tracks resources in
       Printf "download %d tracks to play..." ;;
       err <- client.DownloadTracks client tracks localStorage ;;
       (if not_nil err then Printf (logPrefix ++ "DownloadTracks error: %v")
        else Ret tt) ;;
       err <- playTracks tracks localStorage ;;
       Ret tt
     else
       Printf "will not play tracks") ;;
    client.CloseConnection client.

(** [main], lines 129-168: the sync run. *)
Definition main_sync (cfg : Config) (localStorage : FileServer)
    (austkServer : option AustkServer) : prog unit :=
  '(peers, err) <- call (Peers localStorage) ;;
  (if not_nil err then
     Printf (logPrefix ++ "failed to get Peers from localStorage, error: %v")
   else Ret tt) ;;
  forRange peers (syncPeer cfg localStorage austkServer).

(** [main], lines 109-174: what follows the daemon start. *)
Definition main_rest (cfg : Config) (localStorage : FileServer)
    (austkServer : option AustkServer) : prog unit :=
  main_peer cfg localStorage austkServer ;;
  main_sync cfg localStorage austkServer ;;
  if RunAsDaemon cfg then
    (* Execution will stop in this function until server quits from SIGINT etc. *)
    server.WaitUntilQuitSignal austkServer
  else Ret tt.

(** [main], lines 50-174. *)
Definition main : prog unit :=
  '(cfg, err) <- call LoadConfig ;;
  match err with
  | Some (FlagsError isShowingHelp) =>
      if isShowingHelp then Ret tt
      else Fatalf (logPrefix ++ "LoadConfig error: %v")
  | Some _ => Panic "interface conversion: error is not *flags.Error"
  | None =>
  cfg <- deref cfg ;;
  localStorage <- call (NewFileServer (ArtDir cfg)) ;;
  match localStorage with
  | inr _ => Fatalf (logPrefix ++ "Failed to open data dir %s, error: %v")
  | inl localStorage =>
  '(lightning, err, cfg) <- lightningNode.NewLightningNode cfg localStorage ;;
  if not_nil err then
    Fatalf (logPrefix ++ "Failed to connect with Lightning node, error: %v")
  else
  austkServer <- main_publisher cfg localStorage lightning ;;
  main_add cfg localStorage austkServer ;;
  if RunAsDaemon cfg then
    Printf (logPrefix ++ "Starting Audiostrike server...") ;;
    err <- startServer cfg localStorage austkServer ;;
    if not_nil err then Fatalf (logPrefix ++ "startServer daemon error: %v")
    else
    defer (server.Stop austkServer)
      ('(pubkey, err) <- server.Pubkey austkServer ;;
       let cfg := set_Pubkey cfg pubkey in
       if not_nil err then Fatalf (logPrefix ++ "error getting server pubkey: %v")
       else main_rest cfg localStorage austkServer)
  else main_rest cfg localStorage austkServer
  end
  end.

End WithSlugs.

End austk.

(** ** Reference collaborators

    Executable stand-ins for the collaborators: the proto3 wire format of
    [art.proto], a signing service with one identity, an in-memory store
    with failure injection, and a network in which chosen peers are
    unreachable or misbehave.  They give the concrete worlds on which the
    theorems are instantiated and the failing runs are evaluated. *)

Module wire.
Local Open Scope list_scope.

Definition byte_of_N (n : N) : byte :=
  match Byte.of_N n with
  | Some b => b
  | None => x00
  end.

(** Base-128 varint, least significant group first. *)
Fixpoint varint_groups (groups : nat) (n : N) : bytes :=
  match groups with
  | O => []
  | S groups =>
      if (n <? 128)%N then [byte_of_N n]
      else byte_of_N (n mod 128 + 128) :: varint_groups groups (n / 128)
  end.

Definition varint (n : N) : bytes := varint_groups 10 n.

Definition tag (field wiretype : N) : bytes := varint (field * 8 + wiretype).

Definition lengthDelimited (field : N) (payload : bytes) : bytes :=
  tag field 2 ++ varint (N.of_nat (length payload)) ++ payload.

(** proto3 scalar fields are left out when they hold the default. *)
Definition stringField (field : N) (s : string) : bytes :=
  if String.eqb s "" then [] else lengthDelimited field (list_byte_of_string s).

Definition uint32Field (field : N) (n : N) : bytes :=
  if (n =? 0)%N then [] else tag field 0 ++ varint n.

Definition encodeArtist (a : art.Artist) : bytes :=
  stringField 1 (art.Artist.ArtistId a) ++ stringField 2 (art.Artist.Name a)
  ++ stringField 3 (art.Artist.Pubkey a).

Definition encodeAlbum (a : art.Album) : bytes :=
  stringField 1 (art.Album.ArtistId a) ++ stringField 2 (art.Album.ArtistAlbumId a)
  ++ stringField 3 (art.Album.Title a)
  ++ flat_map (fun id => lengthDelimited 4 (list_byte_of_string id))
       (art.Album.ArtistTrackId a).

Definition encodeTrack (t : art.Track) : bytes :=
  stringField 1 (art.Track.ArtistId t) ++ stringField 2 (art.Track.ArtistAlbumId t)
  ++ stringField 3 (art.Track.ArtistTrackId t)
  ++ uint32Field 4 (art.Track.AlbumTrackNumber t)
  ++ stringField 5 (art.Track.Title t).

Definition encodePeer (p : art.Peer) : bytes :=
  stringField 1 (art.Peer.Pubkey p) ++ stringField 2 (art.Peer.Host p)
  ++ uint32Field 3 (art.Peer.Port p).

Definition Marshal (r : art.ArtResources) : bytes :=
  flat_map (fun a => lengthDelimited 1 (encodeArtist a)) (art.ArtResources.Artists r)
  ++ flat_map (fun a => lengthDelimited 2 (encodeAlbum a)) (art.ArtResources.Albums r)
  ++ flat_map (fun t => lengthDelimited 3 (encodeTrack t)) (art.ArtResources.Tracks r)
  ++ flat_map (fun p => lengthDelimited 4 (encodePeer p)) (art.ArtResources.Peers r).

Inductive value : Type :=
| Varint (n : N)
| LengthDelimited (payload : bytes).

Fixpoint readVarint (b : bytes) : option (N * bytes) :=
  match b with
  | [] => None
  | x :: rest =>
      let v := Byte.to_N x in
      if (v <? 128)%N then Some (v, rest)
      else match readVarint rest with
           | Some (high, rest) => Some (v - 128 + 128 * high, rest)%N
           | None => None
           end
  end.

(** The fields of a message, in the order met.  Wire types other than
    varint and length-delimited do not occur in [art.proto] and are
    refused. *)
Fixpoint readFields (fuel : nat) (b : bytes) : option (list (N * value)) :=
  match fuel with
  | O => None
  | S fuel =>
      match b with
      | [] => Some []
      | _ =>
          match readVarint b with
          | None => None
          | Some (key, rest) =>
              let field := (key / 8)%N in
              match (key mod 8)%N with
              | 0%N =>
                  match readVarint rest with
                  | None => None
                  | Some (n, rest) =>
                      option_map (cons (field, Varint n)) (readFields fuel rest)
                  end
              | 2%N =>
                  match readVarint rest with
                  | None => None
                  | Some (len, rest) =>
                      let len := N.to_nat len in
                      if (len <=? length rest)%nat then
                        option_map (cons (field, LengthDelimited (firstn len rest)))
                          (readFields fuel (skipn len rest))
                      else None
                  end
              | _ => None
              end
          end
      end
  end.

Definition fields (b : bytes) : option (list (N * value)) :=
  readFields (S (length b)) b.

(** The last string, or number, sent for a field; the default when none. *)
Definition getString (field : N) (fs : list (N * value)) : string :=
  fold_left (fun acc fv =>
               match fv with
               | (f, LengthDelimited p) =>
                   if (f =? field)%N then string_of_list_byte p else acc
               | _ => acc
               end) fs "".

Definition getUint32 (field : N) (fs : list (N * value)) : N :=
  fold_left (fun acc fv =>
               match fv with
               | (f, Varint n) => if (f =? field)%N then (n mod 4294967296)%N else acc
               | _ => acc
               end) fs 0%N.

Definition getRepeated (field : N) (fs : list (N * value)) : list bytes :=
  flat_map (fun fv =>
              match fv with
              | (f, LengthDelimited p) => if (f =? field)%N then [p] else []
              | _ => []
              end) fs.

Definition decodeArtist (b : bytes) : option art.Artist :=
  match fields b with
  | None => None
  | Some fs => Some (art.Artist.mk (getString 1 fs) (getString 2 fs) (getString 3 fs))
  end.

Definition decodeAlbum (b : bytes) : option art.Album :=
  match fields b with
  | None => None
  | Some fs =>
      Some (art.Album.mk (getString 1 fs) (getString 2 fs) (getString 3 fs)
              (map string_of_list_byte (getRepeated 4 fs)))
  end.

Definition decodeTrack (b : bytes) : option art.Track :=
  match fields b with
  | None => None
  | Some fs =>
      Some (art.Track.mk (getString 1 fs) (getString 2 fs) (getString 3 fs)
              (getUint32 4 fs) (getString 5 fs))
  end.

Definition decodePeer (b : bytes) : option art.Peer :=
  match fields b with
  | None => None
  | Some fs => Some (art.Peer.mk (getString 1 fs) (getString 2 fs) (getUint32 3 fs))
  end.

(** Every element decoded, or nothing. *)
Fixpoint decodeAll {T : Type} (decode : bytes -> option T) (l : list bytes)
  : option (list T) :=
  match l with
  | [] => Some []
  | b :: rest =>
      match decode b, decodeAll decode rest with
      | Some x, Some xs => Some (x :: xs)
      | _, _ => None
      end
  end.

Definition Unmarshal (b : bytes) : option art.ArtResources :=
  match fields b with
  | None => None
  | Some fs =>
      match decodeAll decodeArtist (getRepeated 1 fs),
            decodeAll decodeAlbum (getRepeated 2 fs),
            decodeAll decodeTrack (getRepeated 3 fs),
            decodeAll decodePeer (getRepeated 4 fs) with
      | Some artists, Some albums, Some tracks, Some peers =>
          Some (art.ArtResources.mk artists albums tracks peers)
      | _, _, _, _ => None
      end
  end.

(** *** What the library refuses

    A proto3 string holds valid UTF-8: [proto.Marshal] returns an error for
    a message with a string that is not, and so does [proto.Unmarshal] for
    bytes that decode to one.  [validUTF8] is [utf8.ValidString]: the
    shortest encodings of the code points up to U+10FFFF, surrogates
    excluded. *)
Definition between (lo hi : N) (c : ascii) : bool :=
  let n := N_of_ascii c in ((lo <=? n) && (n <=? hi))%N.

Fixpoint validUTF8 (s : string) : bool :=
  match s with
  | EmptyString => true
  | String c rest =>
      if between 0 127 c then validUTF8 rest
      else if between 194 223 c then
        match rest with
        | String c1 rest => between 128 191 c1 && validUTF8 rest
        | _ => false
        end
      else if between 224 239 c then
        match rest with
        | String c1 (String c2 rest) =>
            (if between 224 224 c then between 160 191 c1
             else if between 237 237 c then between 128 159 c1
             else between 128 191 c1)
            && between 128 191 c2 && validUTF8 rest
        | _ => false
        end
      else if between 240 244 c then
        match rest with
        | String c1 (String c2 (String c3 rest)) =>
            (if between 240 240 c then between 144 191 c1
             else if between 244 244 c then between 128 143 c1
             else between 128 191 c1)
            && between 128 191 c2 && between 128 191 c3 && validUTF8 rest
        | _ => false
        end
      else false
  end.

(** The strings of a message, and its [uint32] numbers. *)
Definition stringsOf (r : art.ArtResources) : list string :=
  flat_map (fun a => [art.Artist.ArtistId a; art.Artist.Name a; art.Artist.Pubkey a])
    (art.ArtResources.Artists r)
  ++ flat_map (fun a => art.Album.ArtistId a :: art.Album.ArtistAlbumId a
                        :: art.Album.Title a :: art.Album.ArtistTrackId a)
       (art.ArtResources.Albums r)
  ++ flat_map (fun t => [art.Track.ArtistId t; art.Track.ArtistAlbumId t;
                         art.Track.ArtistTrackId t; art.Track.Title t])
       (art.ArtResources.Tracks r)
  ++ flat_map (fun p => [art.Peer.Pubkey p; art.Peer.Host p])
       (art.ArtResources.Peers r).

Definition validStrings (r : art.ArtResources) : bool :=
  forallb validUTF8 (stringsOf r).

Definition uint32s (r : art.ArtResources) : list N :=
  map art.Track.AlbumTrackNumber (art.ArtResources.Tracks r)
  ++ map art.Peer.Port (art.ArtResources.Peers r).

(** The numbers of the message are values of their Go type, [uint32]. *)
Definition fitsUint32 (r : art.ArtResources) : bool :=
  forallb (fun n => (n <? 4294967296)%N) (uint32s r).

(** A message encodes to less than 2 GiB, or [proto.Marshal] returns
    [ErrTooLarge]. *)
Definition maxSize : N := 2147483648.

Definition errInvalidUTF8 : error :=
  ExternalError "proto: field contains invalid UTF-8".

Definition ErrTooLarge : error :=
  ExternalError "proto: message encodes to over 2 GB".

(** What [proto.Marshal] accepts. *)
Definition encodable (r : art.ArtResources) : bool :=
  validStrings r && (N.of_nat (length (Marshal r)) <? maxSize)%N.

(** The answers of [proto.Marshal] and [proto.Unmarshal]. *)
Definition MarshalAnswer (r : art.ArtResources) : bytes + error :=
  if validStrings r then
    if (N.of_nat (length (Marshal r)) <? maxSize)%N then inl (Marshal r)
    else inr ErrTooLarge
  else inr errInvalidUTF8.

Definition UnmarshalAnswer (b : bytes) : art.ArtResources + error :=
  match Unmarshal b with
  | Some r => if validStrings r then inl r else inr errInvalidUTF8
  | None => inr (ExternalError "proto: cannot parse invalid wire-format data")
  end.

(** *** The fields of the messages, as the encoders write them *)

Definition encodeField (fv : N * value) : bytes :=
  match fv with
  | (field, Varint n) => tag field 0 ++ varint n
  | (field, LengthDelimited payload) => lengthDelimited field payload
  end.

Definition stringFields (field : N) (s : string) : list (N * value) :=
  if String.eqb s "" then []
  else [(field, LengthDelimited (list_byte_of_string s))].

Definition uint32Fields (field : N) (n : N) : list (N * value) :=
  if (n =? 0)%N then [] else [(field, Varint n)].

Definition artistFields (a : art.Artist) : list (N * value) :=
  stringFields 1 (art.Artist.ArtistId a) ++ stringFields 2 (art.Artist.Name a)
  ++ stringFields 3 (art.Artist.Pubkey a).

Definition albumFields (a : art.Album) : list (N * value) :=
  stringFields 1 (art.Album.ArtistId a) ++ stringFields 2 (art.Album.ArtistAlbumId a)
  ++ stringFields 3 (art.Album.Title a)
  ++ map (fun id => (4%N, LengthDelimited (list_byte_of_string id)))
       (art.Album.ArtistTrackId a).

Definition trackFields (t : art.Track) : list (N * value) :=
  stringFields 1 (art.Track.ArtistId t) ++ stringFields 2 (art.Track.ArtistAlbumId t)
  ++ stringFields 3 (art.Track.ArtistTrackId t)
  ++ uint32Fields 4 (art.Track.AlbumTrackNumber t)
  ++ stringFields 5 (art.Track.Title t).

Definition peerFields (p : art.Peer) : list (N * value) :=
  stringFields 1 (art.Peer.Pubkey p) ++ stringFields 2 (art.Peer.Host p)
  ++ uint32Fields 3 (art.Peer.Port p).

Definition resourcesFields (r : art.ArtResources) : list (N * value) :=
  map (fun a => (1%N, LengthDelimited (encodeArtist a))) (art.ArtResources.Artists r)
  ++ map (fun a => (2%N, LengthDelimited (encodeAlbum a))) (art.ArtResources.Albums r)
  ++ map (fun t => (3%N, LengthDelimited (encodeTrack t))) (art.ArtResources.Tracks r)
  ++ map (fun p => (4%N, LengthDelimited (encodePeer p))) (art.ArtResources.Peers r).

(** A field the decoder reads back: its key and its number fit a varint of
    ten groups, its payload has a length that does. *)
Definition readable (fv : N * value) : Prop :=
  (fst fv * 8 + 7 < 128 ^ 10)%N
  /\ match snd fv with
     | Varint n => (n < 128 ^ 10)%N
     | LengthDelimited payload => (N.of_nat (length payload) < 128 ^ 10)%N
     end.

(** A field whose key and number fit a varint of ten groups, whatever the
    length of its payload. *)
Definition keyed (fv : N * value) : Prop :=
  (fst fv * 8 + 7 < 128 ^ 10)%N
  /\ match snd fv with
     | Varint n => (n < 128 ^ 10)%N
     | LengthDelimited _ => True
     end.

End wire.


Module reference.
Import audiostrike.

(** What the store was given, oldest first. *)
Inductive entry : Type :=
| AnArtist (a : art.Artist)
| AnAlbum (a : art.Album)
| ATrack (t : art.Track)
| APayload (t : art.Track) (payload : bytes)
| APeer (p : art.Peer)
| APublication (p : option art.ArtistPublication).

Record World : Type := {
  (* the local lnd: its identity pubkey, and whether it can be reached *)
  identity : string;
  lndDown : bool;
  (* the art store, and the names of the store operations that fail *)
  stored : list entry;
  failing : list string;
  (* the mp3 files, by name *)
  files : list (string * Mp3);
  (* the network: addresses that refuse a client, addresses whose sync
     fails, the addresses of the clients made so far (a client is its
     index), and what a sync with any other peer returns *)
  unreachable : list string;
  misbehaving : list string;
  connections : list string;
  remote : pair_result art.ArtResources;
  (* start-up: the configuration, the publisher and its artist *)
  config : pair_result Config;
  publisher : pair_result AustkServer;
  servedArtist : pair_result art.Artist }.

Definition store (e : entry) (w : World) : World :=
  {| identity := identity w; lndDown := lndDown w;
     stored := (stored w ++ [e])%list; failing := failing w; files := files w;
     unreachable := unreachable w; misbehaving := misbehaving w;
     connections := connections w; remote := remote w; config := config w;
     publisher := publisher w; servedArtist := servedArtist w |}.

Definition connect (address : string) (w : World) : World :=
  {| identity := identity w; lndDown := lndDown w;
     stored := stored w; failing := failing w; files := files w;
     unreachable := unreachable w; misbehaving := misbehaving w;
     connections := (connections w ++ [address])%list; remote := remote w;
     config := config w;
     publisher := publisher w; servedArtist := servedArtist w |}.

Definition mem (x : string) (l : list string) : bool := existsb (String.eqb x) l.

(** A polynomial checksum of the message, and a signature made of the
    signer's pubkey and the checksum: the verifier recovers the pubkey from
    the signature, as lnd does. *)
Definition checksum (msg : bytes) : N :=
  fold_left (fun h b => ((h * 31 + Byte.to_N b) mod 4294967296)%N) msg 7%N.

Definition sign (pubkey : string) (msg : bytes) : string :=
  pubkey ++ ":" ++ fmt.decimal (checksum msg).

Definition verify (msg : bytes) (signature : string) : lnrpc.VerifyMessageResponse :=
  match strings.splitByte ":" signature with
  | [pubkey; sum] =>
      {| lnrpc.Valid := String.eqb sum (fmt.decimal (checksum msg));
         lnrpc.Pubkey := pubkey |}
  | _ => {| lnrpc.Valid := false; lnrpc.Pubkey := "" |}
  end.

Definition unavailable : error := ExternalError "rpc error: code = Unavailable".
Definition storageError : error := ExternalError "storage error".

(** The last artist stored under [artistID]. *)
Definition findArtist (artistID : string) (l : list entry) : option art.Artist :=
  fold_left (fun found e =>
               match e with
               | AnArtist a =>
                   if String.eqb (art.Artist.ArtistId a) artistID then Some a
                   else found
               | _ => found
               end) l None.

Definition collect (l : list entry) : art.ArtResources :=
  {| art.ArtResources.Artists :=
       flat_map (fun e => match e with AnArtist a => [a] | _ => [] end) l;
     art.ArtResources.Albums :=
       flat_map (fun e => match e with AnAlbum a => [a] | _ => [] end) l;
     art.ArtResources.Tracks :=
       flat_map (fun e => match e with ATrack t => [t] | _ => [] end) l;
     art.ArtResources.Peers :=
       flat_map (fun e => match e with APeer p => [p] | _ => [] end) l |}.

Definition findFile (name : string) (l : list (string * Mp3)) : option Mp3 :=
  match find (fun f => String.eqb (fst f) name) l with
  | Some f => Some (snd f)
  | None => None
  end.

(** A store operation: it fails when its name is listed, and records the
    entry otherwise. *)
Definition storing (name : string) (e : entry) (w : World) : option error * World :=
  if mem name (failing w) then (Some storageError, w) else (None, store e w).

Definition collaborators : handler World :=
  fun X c =>
    match c in Call X return World -> X * World with
    | log_Printf _ => fun w => (tt, w)
    | proto_Marshal pb => fun w => (wire.MarshalAnswer pb, w)
    | proto_Unmarshal buf => fun w => (wire.UnmarshalAnswer buf, w)
    | SignMessage _ msg => fun w =>
        (if lndDown w then inr unavailable
         else inl {| lnrpc.Signature := sign (identity w) msg |}, w)
    | VerifyMessage _ msg signature => fun w =>
        (if lndDown w then inr unavailable else inl (verify msg signature), w)
    | GetInfo _ => fun w =>
        (if lndDown w then inr unavailable
         else inl {| lnrpc.IdentityPubkey := identity w |}, w)
    | user_Current => fun w => (inl "/home/austk", w)
    | NewClientTLSFromFile _ _ => fun w => (inl 0, w)
    | ioutil_ReadFile _ => fun w => (inl [], w)
    | Macaroon_UnmarshalBinary _ => fun w => (inl 0, w)
    | grpc_Dial _ _ _ => fun w => (if lndDown w then inr unavailable else inl 0, w)
    | ArtServer_Artist _ artistID => fun w =>
        (if mem "Artist" (failing w) then (None, Some storageError)
         else match findArtist artistID (stored w) with
              | Some a => (Some a, None)
              | None => (None, Some ErrArtNotFound)
              end, w)
    | StoreArtist _ artist => storing "StoreArtist" (AnArtist artist)
    | StoreAlbum _ album _ => storing "StoreAlbum" (AnAlbum album)
    | StoreTrack _ track _ => storing "StoreTrack" (ATrack track)
    | StoreTrackPayload _ track payload =>
        storing "StoreTrackPayload" (APayload track payload)
    | StorePublication _ publication =>
        storing "StorePublication" (APublication publication)
    | StorePeer _ peer _ => storing "StorePeer" (APeer peer)
    | Peers _ => fun w =>
        (if mem "Peers" (failing w) then ([], Some storageError)
         else (art.ArtResources.Peers (collect (stored w)), None), w)
    | TrackFilePath _ track => fun w =>
        (art.Track.ArtistId track ++ "/" ++ art.Track.ArtistTrackId track ++ ".mp3", w)
    | CollectResources _ => fun w =>
        (if mem "CollectResources" (failing w) then (None, Some storageError)
         else (Some (collect (stored w)), None), w)
    | OpenMp3ToRead filename => fun w =>
        (match findFile filename (files w) with
         | Some mp3 => (Some mp3, None)
         | None => (None, Some (ExternalError "no such file"))
         end, w)
    | ReadBytes mp3 => fun w => (list_byte_of_string (mp3_Title mp3), None, w)
    | PlayAndWait _ => fun w => (tt, w)
    | Server_Artist _ => fun w => (servedArtist w, w)
    | Server_Pubkey _ => fun w =>
        (if lndDown w then ("", Some unavailable) else (identity w, None), w)
    | Server_Sign _ resources => fun w =>
        (match resources with
         | Some r =>
             if lndDown w then (None, Some unavailable)
             else (Some {| art.ArtistPublication.Artist := fst (servedArtist w);
                           art.ArtistPublication.Signature :=
                             sign (identity w) (wire.Marshal r);
                           art.ArtistPublication.SerializedArtResources :=
                             wire.Marshal r |}, None)
         | None => (None, Some (ExternalError "proto: Marshal called with nil"))
         end, w)
    | Server_Start _ => fun w => (None, w)
    | Server_Stop _ => fun w => (tt, w)
    | Server_WaitUntilQuitSignal _ => fun w => (tt, w)
    | NewClient _ peerAddress _ => fun w =>
        if mem peerAddress (unreachable w) then
          (None, Some (ExternalError "connection refused"), w)
        else (Some (length (connections w)), None, connect peerAddress w)
    | Client_SyncFromPeer c _ => fun w =>
        (if mem (nth c (connections w) "") (misbehaving w) then
           (None, Some (ExternalError "publication failed validation"))
         else remote w, w)
    | Client_DownloadTracks _ _ _ => fun w =>
        (if mem "DownloadTracks" (failing w) then
           Some (ExternalError "download failed")
         else None, w)
    | Client_CloseConnection _ => fun w => (tt, w)
    | LoadConfig => fun w => (config w, w)
    | NewFileServer _ => fun w => (inl 0, w)
    | injectPublisher _ _ _ => fun w => (publisher w, w)
    end.

(** ASCII lower case, and the characters of a slug. *)
Definition lower (c : ascii) : ascii :=
  let n := N_of_ascii c in
  if ((65 <=? n) && (n <=? 90))%N then ascii_of_N (n + 32) else c.

Definition isSlugChar (c : ascii) : bool :=
  let n := N_of_ascii c in
  ((48 <=? n) && (n <=? 57))%N || ((97 <=? n) && (n <=? 122))%N.

(** Modelled from the spec: [audiostrike.NameToID], whose code is in another
    file of the internal package, as the case-folded, punctuation-stripped
    slug of a name: letters are lowered, and only letters and digits are
    kept. *)
Fixpoint NameToID (name : string) : string :=
  match name with
  | EmptyString => ""
  | String c rest =>
      let c := lower c in
      if isSlugChar c then String c (NameToID rest) else NameToID rest
  end.

End reference.

(** ** Scenarios

    The concrete nodes, catalogues and worlds of the examples of the
    specification: artist "aliceinchains" with album "dirt" and track
    "would", and a second identity. *)

Module scenario.
Import audiostrike.

Definition K1 : string := "036f709187264df7".
Definition K2 : string := "02c4a5b579595a42".

Definition alice : art.Artist :=
  {| art.Artist.ArtistId := "aliceinchains";
     art.Artist.Name := "Alice in Chains";
     art.Artist.Pubkey := K1 |}.

Definition catalogue : art.ArtResources :=
  {| art.ArtResources.Artists := [alice];
     art.ArtResources.Albums :=
       [{| art.Album.ArtistId := "aliceinchains";
           art.Album.ArtistAlbumId := "dirt";
           art.Album.Title := "Dirt";
           art.Album.ArtistTrackId := ["dirt/would"] |}];
     art.ArtResources.Tracks :=
       [{| art.Track.ArtistId := "aliceinchains";
           art.Track.ArtistAlbumId := "dirt";
           art.Track.ArtistTrackId := "dirt/would";
           art.Track.AlbumTrackNumber := 12;
           art.Track.Title := "Would?" |}];
     art.ArtResources.Peers := [] |}.

Definition would : Mp3 :=
  {| mp3_ArtistName := "Alice in Chains";
     mp3_Title := "Would?";
     mp3_AlbumTitle := ("Dirt", true) |}.

Definition cfg : Config :=
  {| ArtistID := "aliceinchains"; ArtistName := "Alice in Chains";
     ArtDir := "art"; AddMp3Filename := ""; PlayMp3 := false;
     RunAsDaemon := false; PeerAddress := ""; Pubkey := K1;
     RestHost := "alice.onion"; TorProxy := "127.0.0.1:9050";
     LndHost := "127.0.0.1"; LndGrpcPort := 10009;
     TlsCertPath := ""; MacaroonPath := "" |}.

(** The node of the artist, whose lnd holds [K1]. *)
Definition node : LightningNode :=
  {| lightningClient := 0; publishingArtist := Some alice |}.

Definition world : reference.World :=
  {| reference.identity := K1; reference.lndDown := false;
     reference.stored := []; reference.failing := [];
     reference.files := [("would.mp3", would)];
     reference.unreachable := []; reference.misbehaving := [];
     reference.connections := [];
     reference.remote := (Some (art.ArtResources.mk [] [] [] []), None);
     reference.config := (Some cfg, None);
     reference.publisher := (Some 0, None);
     reference.servedArtist := (Some alice, None) |}.

(** The publication [Sign] makes of the catalogue. *)
Definition genuine : art.ArtistPublication :=
  {| art.ArtistPublication.Artist := Some alice;
     art.ArtistPublication.Signature := reference.sign K1 (wire.Marshal catalogue);
     art.ArtistPublication.SerializedArtResources := wire.Marshal catalogue |}.

(** The same, with one byte of the serialized resources altered after
    signing. *)
Definition tampered : art.ArtistPublication :=
  {| art.ArtistPublication.Artist := Some alice;
     art.ArtistPublication.Signature := art.ArtistPublication.Signature genuine;
     art.ArtistPublication.SerializedArtResources :=
       match wire.Marshal catalogue with
       | b :: rest => wire.byte_of_N ((Byte.to_N b + 1) mod 256) :: rest
       | [] => []
       end |}.

(** A publication signed by [K2] that names the artist with pubkey [K1]. *)
Definition impersonating : art.ArtistPublication :=
  {| art.ArtistPublication.Artist := Some alice;
     art.ArtistPublication.Signature := reference.sign K2 (wire.Marshal catalogue);
     art.ArtistPublication.SerializedArtResources := wire.Marshal catalogue |}.

(** The store fails on albums. *)
Definition worldAlbumFailure : reference.World :=
  {| reference.identity := K1; reference.lndDown := false;
     reference.stored := []; reference.failing := ["StoreAlbum"];
     reference.files := [("would.mp3", would)];
     reference.unreachable := []; reference.misbehaving := [];
     reference.connections := [];
     reference.remote := (Some (art.ArtResources.mk [] [] [] []), None);
     reference.config := (Some cfg, None);
     reference.publisher := (Some 0, None);
     reference.servedArtist := (Some alice, None) |}.

(** Three peers are stored: this node itself, a peer to which no client can
    be made, and a peer in good order. *)
Definition self : art.Peer :=
  {| art.Peer.Pubkey := K1; art.Peer.Host := "alice.onion"; art.Peer.Port := 53545 |}.

Definition down : art.Peer :=
  {| art.Peer.Pubkey := K2; art.Peer.Host := "down.onion"; art.Peer.Port := 53545 |}.

Definition good : art.Peer :=
  {| art.Peer.Pubkey := "03d1"; art.Peer.Host := "good.onion"; art.Peer.Port := 53545 |}.

Definition worldPeers : reference.World :=
  {| reference.identity := K1; reference.lndDown := false;
     reference.stored := [reference.APeer self; reference.APeer down;
                          reference.APeer good];
     reference.failing := [];
     reference.files := [];
     reference.unreachable := ["down.onion:53545"]; reference.misbehaving := [];
     reference.connections := [];
     reference.remote := (Some (art.ArtResources.mk [] [] [] []), None);
     reference.config := (Some cfg, None);
     reference.publisher := (Some 0, None);
     reference.servedArtist := (Some alice, None) |}.

(** In play mode, with two peers in good order that serve the catalogue,
    while the tracks cannot be downloaded. *)
Definition cfgPlay : Config :=
  {| ArtistID := "aliceinchains"; ArtistName := "Alice in Chains";
     ArtDir := "art"; AddMp3Filename := ""; PlayMp3 := true;
     RunAsDaemon := false; PeerAddress := ""; Pubkey := K1;
     RestHost := "alice.onion"; TorProxy := "127.0.0.1:9050";
     LndHost := "127.0.0.1"; LndGrpcPort := 10009;
     TlsCertPath := ""; MacaroonPath := "" |}.

Definition other : art.Peer :=
  {| art.Peer.Pubkey := "02e7"; art.Peer.Host := "other.onion"; art.Peer.Port := 53545 |}.

Definition worldPlay : reference.World :=
  {| reference.identity := K1; reference.lndDown := false;
     reference.stored := [reference.APeer good; reference.APeer other];
     reference.failing := ["DownloadTracks"];
     reference.files := [];
     reference.unreachable := []; reference.misbehaving := [];
     reference.connections := [];
     reference.remote := (Some catalogue, None);
     reference.config := (Some cfgPlay, None);
     reference.publisher := (Some 0, None);
     reference.servedArtist := (Some alice, None) |}.

(** The publisher could not be built, and no server came with the error. *)
Definition worldNoPublisher : reference.World :=
  {| reference.identity := K1; reference.lndDown := true;
     reference.stored := []; reference.failing := [];
     reference.files := [];
     reference.unreachable := []; reference.misbehaving := [];
     reference.connections := [];
     reference.remote := (Some (art.ArtResources.mk [] [] [] []), None);
     reference.config := (Some cfg, None);
     reference.publisher := (None, Some reference.unavailable);
     reference.servedArtist := (None, None) |}.

(** A publication of the catalogue signed by [K1] that names no artist. *)
Definition anonymous : art.ArtistPublication :=
  {| art.ArtistPublication.Artist := None;
     art.ArtistPublication.Signature := reference.sign K1 (wire.Marshal catalogue);
     art.ArtistPublication.SerializedArtResources := wire.Marshal catalogue |}.

(** The configured pubkey is [K2] while lnd holds [K1]. *)
Definition cfgMisconfigured : Config :=
  {| ArtistID := "aliceinchains"; ArtistName := "Alice in Chains";
     ArtDir := "art"; AddMp3Filename := ""; PlayMp3 := false;
     RunAsDaemon := false; PeerAddress := ""; Pubkey := K2;
     RestHost := "alice.onion"; TorProxy := "127.0.0.1:9050";
     LndHost := "127.0.0.1"; LndGrpcPort := 10009;
     TlsCertPath := ""; MacaroonPath := "" |}.

(** No artist is configured. *)
Definition cfgNoArtist : Config :=
  {| ArtistID := ""; ArtistName := "";
     ArtDir := "art"; AddMp3Filename := ""; PlayMp3 := false;
     RunAsDaemon := false; PeerAddress := ""; Pubkey := "";
     RestHost := "alice.onion"; TorProxy := "127.0.0.1:9050";
     LndHost := "127.0.0.1"; LndGrpcPort := 10009;
     TlsCertPath := ""; MacaroonPath := "" |}.

(** The peer [good] is given on the command line. *)
Definition cfgPeer : Config :=
  {| ArtistID := "aliceinchains"; ArtistName := "Alice in Chains";
     ArtDir := "art"; AddMp3Filename := ""; PlayMp3 := false;
     RunAsDaemon := false; PeerAddress := "03d1@good.onion:53545"; Pubkey := K1;
     RestHost := "alice.onion"; TorProxy := "127.0.0.1:9050";
     LndHost := "127.0.0.1"; LndGrpcPort := 10009;
     TlsCertPath := ""; MacaroonPath := "" |}.

(** The node runs as a daemon. *)
Definition cfgDaemon : Config :=
  {| ArtistID := "aliceinchains"; ArtistName := "Alice in Chains";
     ArtDir := "art"; AddMp3Filename := ""; PlayMp3 := false;
     RunAsDaemon := true; PeerAddress := ""; Pubkey := K1;
     RestHost := "alice.onion"; TorProxy := "127.0.0.1:9050";
     LndHost := "127.0.0.1"; LndGrpcPort := 10009;
     TlsCertPath := ""; MacaroonPath := "" |}.

Definition worldDaemon : reference.World :=
  {| reference.identity := K1; reference.lndDown := false;
     reference.stored := []; reference.failing := [];
     reference.files := [];
     reference.unreachable := []; reference.misbehaving := [];
     reference.connections := [];
     reference.remote := (Some (art.ArtResources.mk [] [] [] []), None);
     reference.config := (Some cfgDaemon, None);
     reference.publisher := (Some 0, None);
     reference.servedArtist := (Some alice, None) |}.

(** The peer [good] is stored, and a sync returns neither resources nor an
    error. *)
Definition worldNilSync : reference.World :=
  {| reference.identity := K1; reference.lndDown := false;
     reference.stored := [reference.APeer good]; reference.failing := [];
     reference.files := [];
     reference.unreachable := []; reference.misbehaving := [];
     reference.connections := [];
     reference.remote := (None, None);
     reference.config := (Some cfgPlay, None);
     reference.publisher := (Some 0, None);
     reference.servedArtist := (Some alice, None) |}.

(** The peer [good] is stored, and its publication fails validation. *)
Definition worldMisbehaving : reference.World :=
  {| reference.identity := K1; reference.lndDown := false;
     reference.stored := [reference.APeer good]; reference.failing := [];
     reference.files := [];
     reference.unreachable := []; reference.misbehaving := ["good.onion:53545"];
     reference.connections := [];
     reference.remote := (Some (art.ArtResources.mk [] [] [] []), None);
     reference.config := (Some cfg, None);
     reference.publisher := (Some 0, None);
     reference.servedArtist := (Some alice, None) |}.

(** The publisher came with an error, and a server with it. *)
Definition worldPublisherError : reference.World :=
  {| reference.identity := K1; reference.lndDown := true;
     reference.stored := []; reference.failing := [];
     reference.files := [];
     reference.unreachable := []; reference.misbehaving := [];
     reference.connections := [];
     reference.remote := (Some (art.ArtResources.mk [] [] [] []), None);
     reference.config := (Some cfg, None);
     reference.publisher := (Some 0, Some reference.unavailable);
     reference.servedArtist := (Some alice, None) |}.



(** A snapshot whose artist has a name in Latin-1: the byte 246 stands
    alone, which no UTF-8 string allows. *)
Definition latin1 : art.ArtResources :=
  {| art.ArtResources.Artists :=
       [{| art.Artist.ArtistId := "motorhead";
           art.Artist.Name := "Mot" ++ String "246" "rhead";
           art.Artist.Pubkey := K1 |}];
     art.ArtResources.Albums := [];
     art.ArtResources.Tracks := [];
     art.ArtResources.Peers := [] |}.

End scenario.

(** ** What a trace shows *)

(** The buffers given to [proto.Unmarshal], in order. *)
Definition unmarshalAttempts (tr : list event) : list bytes :=
  flat_map (fun e =>
              match e with
              | Ev c _ => match c with proto_Unmarshal buf => [buf] | _ => [] end
              end) tr.

(** The messages the signing service signed, each with the signature it
    gave. *)
Definition signedMessages (tr : list event) : list (bytes * string) :=
  flat_map (fun e =>
              match e with
              | Ev c answer =>
                  match c in Call X return X -> list (bytes * string) with
                  | SignMessage _ msg => fun answer =>
                      match answer with
                      | inl r => [(msg, lnrpc.Signature r)]
                      | inr _ => []
                      end
                  | _ => fun _ => []
                  end answer
              end) tr.

(** The verify call of [ValidatePublication] on a publication. *)
Definition verifyCall (node : audiostrike.LightningNode) (publication : art.ArtistPublication)
  : Call (lnrpc.VerifyMessageResponse + error) :=
  VerifyMessage (audiostrike.lightningClient node)
    (art.ArtistPublication.SerializedArtResources publication)
    (art.ArtistPublication.Signature publication).

(** The tracks given to [StoreTrack], in order. *)
Definition storedTracks (tr : list event) : list art.Track :=
  flat_map (fun e =>
              match e with
              | Ev c _ => match c with StoreTrack _ track _ => [track] | _ => [] end
              end) tr.

(** The store calls that answered with an error. *)
Definition failedStores (tr : list event) : list error :=
  flat_map (fun e =>
              match e with
              | Ev c answer =>
                  match c in Call X return X -> list error with
                  | StoreArtist _ _ | StoreAlbum _ _ _ | StoreTrack _ _ _
                  | StoreTrackPayload _ _ _ | StorePublication _ _
                  | StorePeer _ _ _ => fun answer =>
                      match answer with
                      | Some err => [err]
                      | None => []
                      end
                  | _ => fun _ => []
                  end answer
              end) tr.

(** Those of them that were album stores. *)
Definition failedAlbumStores (tr : list event) : list error :=
  flat_map (fun e =>
              match e with
              | Ev c answer =>
                  match c in Call X return X -> list error with
                  | StoreAlbum _ _ _ => fun answer =>
                      match answer with
                      | Some err => [err]
                      | None => []
                      end
                  | _ => fun _ => []
                  end answer
              end) tr.

(** The addresses for which a peer client was asked, in order. *)
Definition clientAddresses (tr : list event) : list string :=
  flat_map (fun e =>
              match e with
              | Ev c _ => match c with NewClient _ address _ => [address] | _ => [] end
              end) tr.

(** The clients that were asked to sync, in order. *)
Definition syncedClients (tr : list event) : list audiostrike.Client :=
  flat_map (fun e =>
              match e with
              | Ev c _ => match c with Client_SyncFromPeer cl _ => [cl] | _ => [] end
              end) tr.

(** The servers whose [Artist] was read. *)
Definition artistReads (tr : list event) : list audiostrike.AustkServer :=
  flat_map (fun e =>
              match e with
              | Ev c _ => match c with Server_Artist srv => [srv] | _ => [] end
              end) tr.

(** A trace without client and without sync. *)
Definition local (tr : list event) : Prop :=
  clientAddresses tr = [] /\ syncedClients tr = [].

(** [fmt.Sprintf("%s:%d", peer.Host, peer.Port)], line 139. *)
Definition peerAddress (peer : art.Peer) : string :=
  fmt.Sprintf_host_port (art.Peer.Host peer) (art.Peer.Port peer).

(** ** More of what a trace shows *)

(** The Go name of a call. *)
Definition callName {X : Type} (c : Call X) : string :=
  match c with
  | log_Printf _ => "log.Printf"
  | proto_Marshal _ => "proto.Marshal"
  | proto_Unmarshal _ => "proto.Unmarshal"
  | SignMessage _ _ => "SignMessage"
  | VerifyMessage _ _ _ => "VerifyMessage"
  | GetInfo _ => "GetInfo"
  | user_Current => "user.Current"
  | NewClientTLSFromFile _ _ => "credentials.NewClientTLSFromFile"
  | ioutil_ReadFile _ => "ioutil.ReadFile"
  | Macaroon_UnmarshalBinary _ => "Macaroon.UnmarshalBinary"
  | grpc_Dial _ _ _ => "grpc.Dial"
  | ArtServer_Artist _ _ => "ArtServer.Artist"
  | StoreArtist _ _ => "StoreArtist"
  | StoreAlbum _ _ _ => "StoreAlbum"
  | StoreTrack _ _ _ => "StoreTrack"
  | StoreTrackPayload _ _ _ => "StoreTrackPayload"
  | StorePublication _ _ => "StorePublication"
  | StorePeer _ _ _ => "StorePeer"
  | Peers _ => "Peers"
  | TrackFilePath _ _ => "TrackFilePath"
  | CollectResources _ => "CollectResources"
  | OpenMp3ToRead _ => "OpenMp3ToRead"
  | ReadBytes _ => "ReadBytes"
  | PlayAndWait _ => "PlayAndWait"
  | Server_Artist _ => "AustkServer.Artist"
  | Server_Pubkey _ => "AustkServer.Pubkey"
  | Server_Sign _ _ => "AustkServer.Sign"
  | Server_Start _ => "AustkServer.Start"
  | Server_Stop _ => "AustkServer.Stop"
  | Server_WaitUntilQuitSignal _ => "AustkServer.WaitUntilQuitSignal"
  | NewClient _ _ _ => "NewClient"
  | Client_SyncFromPeer _ _ => "Client.SyncFromPeer"
  | Client_DownloadTracks _ _ _ => "Client.DownloadTracks"
  | Client_CloseConnection _ => "Client.CloseConnection"
  | LoadConfig => "LoadConfig"
  | NewFileServer _ => "NewFileServer"
  | injectPublisher _ _ _ => "injectPublisher"
  end.

(** The names of the calls of a trace, in order. *)
Definition names (tr : list event) : list string :=
  map (fun e => match e with Ev c _ => callName c end) tr.

(** The calls that are not log lines. *)
Definition work (tr : list event) : list string :=
  filter (fun name => negb (String.eqb name "log.Printf")) (names tr).

(** The artists given to [StoreArtist], in order. *)
Definition storedArtists (tr : list event) : list art.Artist :=
  flat_map (fun e =>
              match e with
              | Ev c _ => match c with StoreArtist _ artist => [artist] | _ => [] end
              end) tr.

(** The identity pubkeys lnd gave to [GetInfo]. *)
Definition lndIdentities (tr : list event) : list string :=
  flat_map (fun e =>
              match e with
              | Ev c answer =>
                  match c in Call X return X -> list string with
                  | GetInfo _ => fun answer =>
                      match answer with
                      | inl r => [lnrpc.IdentityPubkey r]
                      | inr _ => []
                      end
                  | _ => fun _ => []
                  end answer
              end) tr.

(** The artists the store gave to [Artist] lookups, with the id asked. *)
Definition foundArtists (tr : list event) : list (string * art.Artist) :=
  flat_map (fun e =>
              match e with
              | Ev c answer =>
                  match c in Call X return X -> list (string * art.Artist) with
                  | ArtServer_Artist _ artistID => fun answer =>
                      match fst answer with
                      | Some artist => [(artistID, artist)]
                      | None => []
                      end
                  | _ => fun _ => []
                  end answer
              end) tr.

(** The pubkeys the publishing server gave. *)
Definition serverPubkeys (tr : list event) : list string :=
  flat_map (fun e =>
              match e with
              | Ev c answer =>
                  match c in Call X return X -> list string with
                  | Server_Pubkey _ => fun answer =>
                      match snd answer with
                      | None => [fst answer]
                      | Some _ => []
                      end
                  | _ => fun _ => []
                  end answer
              end) tr.

(** The peers given to [StorePeer]. *)
Definition storedPeers (tr : list event) : list art.Peer :=
  flat_map (fun e =>
              match e with
              | Ev c _ => match c with StorePeer _ peer _ => [peer] | _ => [] end
              end) tr.

(** The payloads given to [StoreTrackPayload], each with its track. *)
Definition storedPayloads (tr : list event) : list (art.Track * bytes) :=
  flat_map (fun e =>
              match e with
              | Ev c _ =>
                  match c with
                  | StoreTrackPayload _ track payload => [(track, payload)]
                  | _ => []
                  end
              end) tr.

(** The publications given to [StorePublication]. *)
Definition storedPublications (tr : list event)
  : list (option art.ArtistPublication) :=
  flat_map (fun e =>
              match e with
              | Ev c _ =>
                  match c with
                  | StorePublication _ publication => [publication]
                  | _ => []
                  end
              end) tr.

(** What [ReadBytes], [CollectResources] and [AustkServer.Sign] answered. *)
Definition readPayloads (tr : list event) : list bytes :=
  flat_map (fun e =>
              match e with
              | Ev c answer =>
                  match c in Call X return X -> list bytes with
                  | ReadBytes _ => fun answer => [fst answer]
                  | _ => fun _ => []
                  end answer
              end) tr.

Definition collectedResources (tr : list event) : list (option art.ArtResources) :=
  flat_map (fun e =>
              match e with
              | Ev c answer =>
                  match c in Call X return X -> list (option art.ArtResources) with
                  | CollectResources _ => fun answer => [fst answer]
                  | _ => fun _ => []
                  end answer
              end) tr.

(** The resources given to [AustkServer.Sign], each with the publication
    that came back. *)
Definition serverSigned (tr : list event)
  : list (option art.ArtResources * option art.ArtistPublication) :=
  flat_map (fun e =>
              match e with
              | Ev c answer =>
                  match c in Call X
                        return X -> list (option art.ArtResources
                                          * option art.ArtistPublication) with
                  | Server_Sign _ resources => fun answer => [(resources, fst answer)]
                  | _ => fun _ => []
                  end answer
              end) tr.

(** The tracks whose file path was asked, and the mp3 files played. *)
Definition pathsAsked (tr : list event) : list art.Track :=
  flat_map (fun e =>
              match e with
              | Ev c _ => match c with TrackFilePath _ track => [track] | _ => [] end
              end) tr.

Definition played (tr : list event) : list audiostrike.Mp3 :=
  flat_map (fun e =>
              match e with
              | Ev c _ => match c with PlayAndWait mp3 => [mp3] | _ => [] end
              end) tr.

(** The clients that [NewClient] returned, and the clients closed. *)
Definition clientsMade (tr : list event) : list audiostrike.Client :=
  flat_map (fun e =>
              match e with
              | Ev c answer =>
                  match c in Call X return X -> list audiostrike.Client with
                  | NewClient _ _ _ => fun answer =>
                      match fst answer with
                      | Some cl => [cl]
                      | None => []
                      end
                  | _ => fun _ => []
                  end answer
              end) tr.

Definition clientsClosed (tr : list event) : list audiostrike.Client :=
  flat_map (fun e =>
              match e with
              | Ev c _ => match c with Client_CloseConnection cl => [cl] | _ => [] end
              end) tr.

(** The error a call gave, if any: of a result or an error, the error; of
    a Go pair, its error when it is not nil. *)
Definition ofSum {A : Type} (answer : A + error) : list error :=
  match answer with
  | inr err => [err]
  | inl _ => []
  end.

Definition ofError (answer : option error) : list error :=
  match answer with
  | Some err => [err]
  | None => []
  end.

Definition ofPair {A : Type} (answer : A * option error) : list error :=
  ofError (snd answer).

Definition callError {X : Type} (c : Call X) : X -> list error :=
  match c in Call X return X -> list error with
  | log_Printf _ => fun _ => []
  | proto_Marshal _ => ofSum
  | proto_Unmarshal _ => ofSum
  | SignMessage _ _ => ofSum
  | VerifyMessage _ _ _ => ofSum
  | GetInfo _ => ofSum
  | user_Current => ofSum
  | NewClientTLSFromFile _ _ => ofSum
  | ioutil_ReadFile _ => ofSum
  | Macaroon_UnmarshalBinary _ => ofSum
  | grpc_Dial _ _ _ => ofSum
  | ArtServer_Artist _ _ => ofPair
  | StoreArtist _ _ => ofError
  | StoreAlbum _ _ _ => ofError
  | StoreTrack _ _ _ => ofError
  | StoreTrackPayload _ _ _ => ofError
  | StorePublication _ _ => ofError
  | StorePeer _ _ _ => ofError
  | Peers _ => ofPair
  | TrackFilePath _ _ => fun _ => []
  | CollectResources _ => ofPair
  | OpenMp3ToRead _ => ofPair
  | ReadBytes _ => ofPair
  | PlayAndWait _ => fun _ => []
  | Server_Artist _ => ofPair
  | Server_Pubkey _ => ofPair
  | Server_Sign _ _ => ofPair
  | Server_Start _ => ofError
  | Server_Stop _ => fun _ => []
  | Server_WaitUntilQuitSignal _ => fun _ => []
  | NewClient _ _ _ => ofPair
  | Client_SyncFromPeer _ _ => ofPair
  | Client_DownloadTracks _ _ _ => ofError
  | Client_CloseConnection _ => fun _ => []
  | LoadConfig => ofPair
  | NewFileServer _ => ofSum
  | injectPublisher _ _ _ => ofPair
  end.

(** The calls of a trace that gave an error, by name and each with its
    error, in order. *)
Definition failures (tr : list event) : list (string * error) :=
  flat_map (fun e =>
              match e with
              | Ev c answer => map (pair (callName c)) (callError c answer)
              end) tr.

(** Whether every character of [s] is in [class]. *)
Fixpoint allChars (class : ascii -> bool) (s : string) : bool :=
  match s with
  | EmptyString => true
  | String c rest => class c && allChars class rest
  end.

(** A pubkey, a host and a port as the peer address pattern takes them:
    each non-empty and made of the characters of its class. *)
Definition wellFormedPeer (pubkey host port : string) : bool :=
  negb (String.eqb pubkey "") && allChars austk.isLowerHex pubkey
  && negb (String.eqb host "") && allChars austk.isHostChar host
  && negb (String.eqb port "") && allChars austk.isDigit port.

(** ** What a program may call *)

(** Whatever the collaborators answer, every call of [p] has a name that
    [allowed] takes, every exit of [p] is with status 1, and what [p]
    returns is in [ret]. *)
Fixpoint within {A : Type} (allowed : string -> bool) (ret : A -> Prop)
    (p : prog A) : Prop :=
  match p with
  | Ret a => ret a
  | Vis c k => allowed (callName c) = true /\ forall x, within allowed ret (k x)
  | Exit code => code = 1%Z
  | Panic _ => True
  end.

(** The calls that start the publishing server, stop it and wait for it. *)
Definition serverLife : list string :=
  ["AustkServer.Start"; "AustkServer.Stop"; "AustkServer.WaitUntilQuitSignal"].

Definition notServerLife (name : string) : bool :=
  negb (existsb (String.eqb name) serverLife).

Definition notStop (name : string) : bool :=
  negb (String.eqb name "AustkServer.Stop").

(** * Properties *)

(** ** Running programs *)

Section Running.

Context {W : Type} (h : handler W).

Lemma run_Vis {A X : Type} (c : Call X) (k : X -> prog A) (w : W) :
  run h (Vis c k) w =
  {| trace := Ev c (fst (h c w)) :: trace (run h (k (fst (h c w))) (snd (h c w)));
     result := result (run h (k (fst (h c w))) (snd (h c w)));
     world := world (run h (k (fst (h c w))) (snd (h c w))) |}.
Proof. simpl. destruct (h c w) as [x w1]. reflexivity. Qed.

(** A program followed by another: the second runs in the world the first
    left, when the first returned. *)
Lemma run_bind {A B : Type} (p : prog A) (f : A -> prog B) (w : W) :
  run h (bind p f) w =
  match result (run h p w) with
  | Returned a =>
      {| trace := (trace (run h p w) ++ trace (run h (f a) (world (run h p w))))%list;
         result := result (run h (f a) (world (run h p w)));
         world := world (run h (f a) (world (run h p w))) |}
  | Exited code =>
      {| trace := trace (run h p w); result := Exited code; world := world (run h p w) |}
  | Panicked msg =>
      {| trace := trace (run h p w); result := Panicked msg; world := world (run h p w) |}
  end.
Proof.
  revert w. induction p as [a | X c k IH | code | msg]; intros w.
  - simpl. destruct (run h (f a) w); reflexivity.
  - simpl. destruct (h c w) as [x w1]. rewrite IH.
    destruct (result (run h (k x) w1)); reflexivity.
  - reflexivity.
  - reflexivity.
Qed.

Lemma run_Printf (format : string) (w : W) :
  run h (Printf format) w =
  {| trace := [Ev (log_Printf format) (fst (h (log_Printf format) w))];
     result := Returned (fst (h (log_Printf format) w));
     world := snd (h (log_Printf format) w) |}.
Proof. unfold Printf, call. rewrite run_Vis. reflexivity. Qed.

(** [runs] speaks of [run]. *)
Lemma runs_run {A : Type} (p : prog A) (w : W)
    (post : list event -> outcome A -> W -> Prop) :
  runs h p w post <->
  post (trace (run h p w)) (result (run h p w)) (world (run h p w)).
Proof.
  revert w post. induction p as [a | X c k IH | code | msg]; intros w post;
    simpl; try reflexivity.
  destruct (h c w) as [x w1]. rewrite IH. reflexivity.
Qed.

Lemma runs_bind {A B : Type} (p : prog A) (f : A -> prog B) (w : W)
    (post : list event -> outcome B -> W -> Prop) :
  runs h (bind p f) w post <->
  runs h p w (fun tr o w1 =>
                match o with
                | Returned a => runs h (f a) w1 (fun tr2 => post (tr ++ tr2)%list)
                | Exited code => post tr (Exited code) w1
                | Panicked msg => post tr (Panicked msg) w1
                end).
Proof.
  revert w post. induction p as [a | X c k IH | code | msg]; intros w post;
    simpl; try reflexivity.
  destruct (h c w) as [x w1]. rewrite IH. reflexivity.
Qed.

Lemma runs_weaken {A : Type} (p : prog A) (w : W)
    (post post' : list event -> outcome A -> W -> Prop) :
  (forall tr o w1, post tr o w1 -> post' tr o w1) ->
  runs h p w post -> runs h p w post'.
Proof.
  revert w post post'. induction p as [a | X c k IH | code | msg];
    intros w post post' Himp; simpl; try apply Himp.
  destruct (h c w) as [x w1]. apply IH. intros tr o w2. apply Himp.
Qed.

End Running.

(** ** The wire format: what is encoded is decoded *)

Section Codec.

Import wire.
Local Open Scope list_scope.
Local Open Scope N_scope.

Local Arguments varint : simpl never.

Lemma byte_of_N_to_N (n : N) : n < 256 -> Byte.to_N (byte_of_N n) = n.
Proof.
  intros Hn. unfold byte_of_N. destruct (Byte.of_N n) as [b |] eqn:E.
  - now apply Byte.to_of_N.
  - apply Byte.of_N_None_iff in E. lia.
Qed.

Lemma readVarint_groups (k : nat) :
  forall n rest,
    (0 < k)%nat -> n < 128 ^ N.of_nat k ->
    readVarint (varint_groups k n ++ rest) = Some (n, rest).
Proof.
  induction k as [| k IH]; intros n rest Hk Hn; [lia |].
  cbn [varint_groups]. destruct (n <? 128) eqn:Hsmall.
  - apply N.ltb_lt in Hsmall. cbn [app readVarint].
    rewrite byte_of_N_to_N by lia.
    apply N.ltb_lt in Hsmall. rewrite Hsmall. reflexivity.
  - apply N.ltb_ge in Hsmall. cbn [app readVarint].
    pose proof (N.mod_lt n 128 ltac:(lia)) as Hmod.
    pose proof (N.Div0.div_mod n 128) as Hdiv.
    assert (Hpow : 128 ^ N.of_nat (S k) = 128 * 128 ^ N.of_nat k).
    { rewrite Nat2N.inj_succ, N.pow_succ_r'. reflexivity. }
    rewrite Hpow in Hn.
    assert (Hk' : (0 < k)%nat).
    { destruct k; [| lia]. change (128 ^ N.of_nat 0) with 1 in Hn. lia. }
    assert (Hhigh : n / 128 < 128 ^ N.of_nat k)
      by (apply N.Div0.div_lt_upper_bound; exact Hn).
    specialize (IH (n / 128) rest Hk' Hhigh).
    set (m := n mod 128) in *. set (q := n / 128) in *. clearbody m q.
    rewrite byte_of_N_to_N by lia.
    assert (Hbig : (m + 128 <? 128) = false) by (apply N.ltb_ge; lia).
    rewrite Hbig, IH. f_equal. f_equal. lia.
Qed.

Lemma readVarint_varint (n : N) (rest : bytes) :
  n < 128 ^ 10 -> readVarint (varint n ++ rest) = Some (n, rest).
Proof. intros Hn. unfold varint. apply readVarint_groups; [lia | exact Hn]. Qed.

Lemma varint_length (n : N) : (1 <= length (varint n))%nat.
Proof.
  unfold varint. cbn [varint_groups]. destruct (n <? 128); simpl; lia.
Qed.

Lemma encodeField_length (fv : N * value) : (1 <= length (encodeField fv))%nat.
Proof.
  destruct fv as [field [n | payload]]; unfold encodeField, lengthDelimited, tag;
    rewrite !length_app; pose proof (varint_length (field * 8 + 0));
    pose proof (varint_length (field * 8 + 2)); lia.
Qed.

Lemma payload_length (field : N) (payload : bytes) :
  (length payload <= length (encodeField (field, LengthDelimited payload)))%nat.
Proof. unfold encodeField, lengthDelimited. rewrite !length_app. lia. Qed.

(** One field read. *)
Lemma readFields_field (fuel : nat) (fv : N * value) (rest : bytes) :
  readable fv ->
  readFields (S fuel) (encodeField fv ++ rest)
  = option_map (cons fv) (readFields fuel rest).
Proof.
  intros [Hkey Hvalue]. destruct fv as [field value]. cbn [fst snd] in *.
  pose proof (encodeField_length (field, value)) as Hlen.
  cbn [readFields].
  destruct (encodeField (field, value) ++ rest) as [| b bs] eqn:Hbytes.
  { apply (f_equal (@length byte)) in Hbytes. rewrite length_app in Hbytes.
    cbn [length] in Hbytes. lia. }
  rewrite <- Hbytes. clear Hbytes b bs.
  destruct value as [n | payload]; unfold encodeField, lengthDelimited, tag;
    rewrite <- !app_assoc.
  - rewrite readVarint_varint by lia.
    replace ((field * 8 + 0) / 8) with field
      by (rewrite N.div_add_l by lia; change (0 / 8) with 0; symmetry; apply N.add_0_r).
    replace ((field * 8 + 0) mod 8) with 0
      by (rewrite N.add_comm, N.Div0.mod_add; reflexivity).
    rewrite readVarint_varint by exact Hvalue. reflexivity.
  - rewrite readVarint_varint by lia.
    replace ((field * 8 + 2) / 8) with field
      by (rewrite N.div_add_l by lia; change (2 / 8) with 0; symmetry; apply N.add_0_r).
    replace ((field * 8 + 2) mod 8) with 2
      by (rewrite N.add_comm, N.Div0.mod_add; reflexivity).
    rewrite readVarint_varint by exact Hvalue.
    rewrite Nat2N.id.
    assert (Hfits : (length payload <=? length (payload ++ rest))%nat = true).
    { apply Nat.leb_le. rewrite length_app. lia. }
    rewrite Hfits.
    rewrite firstn_app, firstn_all, Nat.sub_diag, skipn_app, skipn_all, Nat.sub_diag.
    simpl. rewrite app_nil_r. reflexivity.
Qed.

Lemma readFields_fields (fs : list (N * value)) :
  forall fuel,
    Forall readable fs -> (length fs < fuel)%nat ->
    readFields fuel (flat_map encodeField fs) = Some fs.
Proof.
  induction fs as [| fv fs IH]; intros fuel Hfs Hfuel.
  - destruct fuel; [simpl in Hfuel; lia | reflexivity].
  - destruct fuel as [| fuel]; [lia |]. inversion Hfs as [| ? ? Hfv Hrest]. subst.
    cbn [flat_map]. rewrite readFields_field by exact Hfv.
    rewrite IH; [reflexivity | exact Hrest | simpl in Hfuel; lia].
Qed.

Lemma flat_map_encodeField_length (fs : list (N * value)) :
  (length fs <= length (flat_map encodeField fs))%nat.
Proof.
  induction fs as [| fv fs IH]; [reflexivity |].
  cbn [flat_map length]. rewrite length_app.
  pose proof (encodeField_length fv). lia.
Qed.

(** The fields written are the fields read. *)
Lemma fields_encodeField (fs : list (N * value)) :
  Forall readable fs -> fields (flat_map encodeField fs) = Some fs.
Proof.
  intros Hfs. unfold fields. apply readFields_fields; [exact Hfs |].
  pose proof (flat_map_encodeField_length fs). lia.
Qed.

(** The fields of a message are within reach of the decoder when the
    message is of a size that is. *)
Lemma readable_of_size (fs : list (N * value)) :
  Forall keyed fs ->
  N.of_nat (length (flat_map encodeField fs)) < 128 ^ 10 ->
  Forall readable fs.
Proof.
  induction fs as [| fv fs IH]; intros Hkeys Hsize; [constructor |].
  inversion Hkeys as [| ? ? [Hkey Hvalue] Hrest]. subst.
  cbn [flat_map] in Hsize. rewrite length_app in Hsize.
  constructor.
  - split; [exact Hkey |]. destruct fv as [field [n | payload]]; cbn [snd] in *.
    + exact Hvalue.
    + pose proof (payload_length field payload). lia.
  - apply IH; [exact Hrest | lia].
Qed.

Lemma stringField_fields (field : N) (s : string) :
  stringField field s = flat_map encodeField (stringFields field s).
Proof.
  unfold stringField, stringFields. destruct (String.eqb s ""); [reflexivity |].
  cbn [flat_map encodeField]. rewrite app_nil_r. reflexivity.
Qed.

Lemma uint32Field_fields (field n : N) :
  uint32Field field n = flat_map encodeField (uint32Fields field n).
Proof.
  unfold uint32Field, uint32Fields. destruct (n =? 0); [reflexivity |].
  cbn [flat_map encodeField]. rewrite app_nil_r. reflexivity.
Qed.

Lemma repeated_fields {T : Type} (field : N) (encode : T -> bytes) (l : list T) :
  flat_map (fun x => lengthDelimited field (encode x)) l
  = flat_map encodeField (map (fun x => (field, LengthDelimited (encode x))) l).
Proof.
  induction l as [| x l IH]; [reflexivity |].
  cbn [flat_map map encodeField]. rewrite IH. reflexivity.
Qed.

Lemma stringFields_keyed (field : N) (s : string) :
  field * 8 + 7 < 128 ^ 10 -> Forall keyed (stringFields field s).
Proof.
  intros Hfield. unfold stringFields. destruct (String.eqb s ""); constructor.
  - split; [exact Hfield | exact I].
  - constructor.
Qed.

Lemma uint32Fields_keyed (field n : N) :
  field * 8 + 7 < 128 ^ 10 -> n < 4294967296 -> Forall keyed (uint32Fields field n).
Proof.
  intros Hfield Hn. unfold uint32Fields. destruct (n =? 0); constructor.
  - split; [exact Hfield |]. cbn [snd].
    apply (N.lt_trans _ _ _ Hn). reflexivity.
  - constructor.
Qed.

Lemma repeated_keyed {T : Type} (field : N) (encode : T -> bytes) (l : list T) :
  field * 8 + 7 < 128 ^ 10 ->
  Forall keyed (map (fun x => (field, LengthDelimited (encode x))) l).
Proof.
  intros Hfield. induction l as [| x l IH]; constructor; [| exact IH].
  split; [exact Hfield | exact I].
Qed.

Lemma encodeArtist_fields (a : art.Artist) :
  encodeArtist a = flat_map encodeField (artistFields a).
Proof.
  unfold encodeArtist, artistFields.
  rewrite !flat_map_app, <- !stringField_fields. reflexivity.
Qed.

Lemma encodeAlbum_fields (a : art.Album) :
  encodeAlbum a = flat_map encodeField (albumFields a).
Proof.
  unfold encodeAlbum, albumFields.
  rewrite !flat_map_app, <- !stringField_fields, <- repeated_fields. reflexivity.
Qed.

Lemma encodeTrack_fields (t : art.Track) :
  encodeTrack t = flat_map encodeField (trackFields t).
Proof.
  unfold encodeTrack, trackFields.
  rewrite !flat_map_app, <- !stringField_fields, <- uint32Field_fields.
  reflexivity.
Qed.

Lemma encodePeer_fields (p : art.Peer) :
  encodePeer p = flat_map encodeField (peerFields p).
Proof.
  unfold encodePeer, peerFields.
  rewrite !flat_map_app, <- !stringField_fields, <- uint32Field_fields.
  reflexivity.
Qed.

Lemma Marshal_fields (r : art.ArtResources) :
  Marshal r = flat_map encodeField (resourcesFields r).
Proof.
  unfold Marshal, resourcesFields.
  rewrite !flat_map_app, <- !repeated_fields. reflexivity.
Qed.

Ltac keys :=
  repeat (apply Forall_app; split);
  first [ apply stringFields_keyed; reflexivity
        | apply uint32Fields_keyed; [reflexivity | assumption]
        | apply repeated_keyed; reflexivity ].

(** Each field of a message is read back to what was written. *)
Ltac present s :=
  let E := fresh "E" in
  destruct (String.eqb_spec s "") as [E | E]; [rewrite E |].

Lemma artist_read (a : art.Artist) :
  art.Artist.mk (getString 1 (artistFields a)) (getString 2 (artistFields a))
    (getString 3 (artistFields a)) = a.
Proof.
  destruct a as [id name pubkey]. unfold artistFields, stringFields.
  cbn [art.Artist.ArtistId art.Artist.Name art.Artist.Pubkey].
  present id; present name; present pubkey; cbn;
    rewrite ?string_of_list_byte_of_string; reflexivity.
Qed.

Lemma track_read (t : art.Track) :
  art.Track.AlbumTrackNumber t < 4294967296 ->
  art.Track.mk (getString 1 (trackFields t)) (getString 2 (trackFields t))
    (getString 3 (trackFields t)) (getUint32 4 (trackFields t))
    (getString 5 (trackFields t)) = t.
Proof.
  destruct t as [artist album id number title]. unfold trackFields, stringFields, uint32Fields.
  cbn [art.Track.ArtistId art.Track.ArtistAlbumId art.Track.ArtistTrackId
       art.Track.AlbumTrackNumber art.Track.Title].
  intros Hnumber.
  assert (Hmod : number mod 4294967296 = number) by now apply N.mod_small.
  destruct (N.eqb_spec number 0) as [-> | Hpositive];
    (present artist; present album; present id; present title;
     cbn [app fold_left getString getUint32 N.eqb Pos.eqb];
     rewrite ?string_of_list_byte_of_string, ?Hmod; reflexivity).
Qed.

Lemma peer_read (p : art.Peer) :
  art.Peer.Port p < 4294967296 ->
  art.Peer.mk (getString 1 (peerFields p)) (getString 2 (peerFields p))
    (getUint32 3 (peerFields p)) = p.
Proof.
  destruct p as [pubkey host port]. unfold peerFields, stringFields, uint32Fields.
  cbn [art.Peer.Pubkey art.Peer.Host art.Peer.Port].
  intros Hport.
  assert (Hmod : port mod 4294967296 = port) by now apply N.mod_small.
  destruct (N.eqb_spec port 0) as [-> | Hpositive];
    (present pubkey; present host;
     cbn [app fold_left getString getUint32 N.eqb Pos.eqb];
     rewrite ?string_of_list_byte_of_string, ?Hmod; reflexivity).
Qed.

(** The repeated field of an album comes after its strings and leaves them
    as they are. *)
Lemma getString_repeated (field other : N) (l : list string)
    (fs : list (N * value)) :
  (other =? field) = false ->
  getString field
    (fs ++ map (fun id => (other, LengthDelimited (list_byte_of_string id))) l)
  = getString field fs.
Proof.
  intros Hother. unfold getString. rewrite fold_left_app.
  generalize (fold_left
                (fun (acc : string) (fv : N * value) =>
                   match fv with
                   | (f, LengthDelimited p) =>
                       if f =? field then string_of_list_byte p else acc
                   | (f, Varint _) => acc
                   end) fs ""%string).
  induction l as [| id l IH]; intros acc; [reflexivity |].
  cbn [map fold_left]. rewrite Hother. apply IH.
Qed.

Lemma getRepeated_same {T : Type} (field : N) (encode : T -> bytes) (l : list T) :
  getRepeated field (map (fun x => (field, LengthDelimited (encode x))) l)
  = map encode l.
Proof.
  unfold getRepeated. induction l as [| x l IH]; [reflexivity |].
  cbn [map flat_map]. rewrite N.eqb_refl, IH. reflexivity.
Qed.

Lemma getRepeated_other {T : Type} (field other : N) (encode : T -> bytes)
    (l : list T) :
  (other =? field) = false ->
  getRepeated field (map (fun x => (other, LengthDelimited (encode x))) l) = [].
Proof.
  intros Hother. unfold getRepeated. induction l as [| x l IH]; [reflexivity |].
  cbn [map flat_map]. rewrite Hother, IH. reflexivity.
Qed.

Lemma getRepeated_app (field : N) (fs1 fs2 : list (N * value)) :
  getRepeated field (fs1 ++ fs2) = getRepeated field fs1 ++ getRepeated field fs2.
Proof. apply flat_map_app. Qed.

Lemma getRepeated_stringFields (field other : N) (s : string) :
  (other =? field) = false -> getRepeated field (stringFields other s) = [].
Proof.
  intros Hother. unfold stringFields, getRepeated.
  destruct (String.eqb s ""); [reflexivity |].
  cbn [flat_map]. rewrite Hother. reflexivity.
Qed.

Lemma map_string_of_list_byte (l : list string) :
  map string_of_list_byte (map list_byte_of_string l) = l.
Proof.
  induction l as [| s l IH]; [reflexivity |].
  cbn [map]. rewrite string_of_list_byte_of_string, IH. reflexivity.
Qed.

Lemma album_read (a : art.Album) :
  art.Album.mk (getString 1 (albumFields a)) (getString 2 (albumFields a))
    (getString 3 (albumFields a))
    (map string_of_list_byte (getRepeated 4 (albumFields a))) = a.
Proof.
  destruct a as [artist album title ids]. unfold albumFields.
  cbn [art.Album.ArtistId art.Album.ArtistAlbumId art.Album.Title
       art.Album.ArtistTrackId].
  rewrite !app_assoc, !getString_repeated by reflexivity.
  rewrite !getRepeated_app, !getRepeated_stringFields by reflexivity.
  rewrite (getRepeated_same 4 list_byte_of_string). cbn [app].
  rewrite map_string_of_list_byte. unfold stringFields.
  present artist; present album; present title; cbn;
    rewrite ?string_of_list_byte_of_string; reflexivity.
Qed.

(** The messages. *)
Lemma decodeArtist_encodeArtist (a : art.Artist) :
  N.of_nat (length (encodeArtist a)) < 128 ^ 10 ->
  decodeArtist (encodeArtist a) = Some a.
Proof.
  intros Hsize. unfold decodeArtist. rewrite encodeArtist_fields in *.
  rewrite fields_encodeField by (apply readable_of_size; [unfold artistFields; keys | exact Hsize]).
  rewrite artist_read. reflexivity.
Qed.

Lemma decodeAlbum_encodeAlbum (a : art.Album) :
  N.of_nat (length (encodeAlbum a)) < 128 ^ 10 ->
  decodeAlbum (encodeAlbum a) = Some a.
Proof.
  intros Hsize. unfold decodeAlbum. rewrite encodeAlbum_fields in *.
  rewrite fields_encodeField by (apply readable_of_size; [unfold albumFields; keys | exact Hsize]).
  rewrite album_read. reflexivity.
Qed.

Lemma decodeTrack_encodeTrack (t : art.Track) :
  art.Track.AlbumTrackNumber t < 4294967296 ->
  N.of_nat (length (encodeTrack t)) < 128 ^ 10 ->
  decodeTrack (encodeTrack t) = Some t.
Proof.
  intros Hnumber Hsize. unfold decodeTrack. rewrite encodeTrack_fields in *.
  rewrite fields_encodeField by (apply readable_of_size; [unfold trackFields; keys | exact Hsize]).
  rewrite track_read by exact Hnumber. reflexivity.
Qed.

Lemma decodePeer_encodePeer (p : art.Peer) :
  art.Peer.Port p < 4294967296 ->
  N.of_nat (length (encodePeer p)) < 128 ^ 10 ->
  decodePeer (encodePeer p) = Some p.
Proof.
  intros Hport Hsize. unfold decodePeer. rewrite encodePeer_fields in *.
  rewrite fields_encodeField by (apply readable_of_size; [unfold peerFields; keys | exact Hsize]).
  rewrite peer_read by exact Hport. reflexivity.
Qed.

Lemma decodeAll_map {T : Type} (decode : bytes -> option T) (encode : T -> bytes)
    (l : list T) :
  Forall (fun x => decode (encode x) = Some x) l ->
  decodeAll decode (map encode l) = Some l.
Proof.
  induction 1 as [| x l Hx Hl IH]; [reflexivity |].
  cbn [map decodeAll]. rewrite Hx, IH. reflexivity.
Qed.

Lemma readable_repeated {T : Type} (field : N) (encode : T -> bytes) (l : list T) :
  Forall readable (map (fun x => (field, LengthDelimited (encode x))) l) ->
  Forall (fun x => N.of_nat (length (encode x)) < 128 ^ 10) l.
Proof.
  induction l as [| x l IH]; intros Hl; [constructor |].
  inversion Hl as [| ? ? [_ Hx] Hrest]. subst. constructor; [exact Hx | now apply IH].
Qed.

(** What [Marshal] writes, [Unmarshal] reads back, for a message whose
    numbers are [uint32] values and whose encoding is of a length that a
    varint holds. *)
Lemma Unmarshal_Marshal (r : art.ArtResources) :
  fitsUint32 r = true ->
  N.of_nat (length (Marshal r)) < 128 ^ 10 ->
  Unmarshal (Marshal r) = Some r.
Proof.
  intros Hfits Hsize. unfold Unmarshal. rewrite Marshal_fields in *.
  assert (Hreadable : Forall readable (resourcesFields r))
    by (apply readable_of_size; [unfold resourcesFields; keys | exact Hsize]).
  rewrite fields_encodeField by exact Hreadable.
  destruct r as [artists albums tracks peers].
  unfold resourcesFields in *.
  cbn [art.ArtResources.Artists art.ArtResources.Albums art.ArtResources.Tracks
       art.ArtResources.Peers] in *.
  apply Forall_app in Hreadable. destruct Hreadable as [Hartists Hreadable].
  apply Forall_app in Hreadable. destruct Hreadable as [Halbums Hreadable].
  apply Forall_app in Hreadable. destruct Hreadable as [Htracks Hpeers].
  apply readable_repeated in Hartists, Halbums, Htracks, Hpeers.
  unfold fitsUint32, uint32s in Hfits.
  cbn [art.ArtResources.Tracks art.ArtResources.Peers] in Hfits.
  rewrite forallb_app in Hfits. apply andb_prop in Hfits.
  destruct Hfits as [Hnumbers Hports].
  rewrite forallb_forall in Hnumbers, Hports.
  rewrite !getRepeated_app.
  rewrite !(getRepeated_same 1), !(getRepeated_same 2), !(getRepeated_same 3),
    !(getRepeated_same 4).
  rewrite !getRepeated_other by reflexivity. cbn [app]. rewrite !app_nil_r.
  rewrite (@decodeAll_map _ decodeArtist encodeArtist artists).
  2: { eapply Forall_impl; [| exact Hartists]. apply decodeArtist_encodeArtist. }
  rewrite (@decodeAll_map _ decodeAlbum encodeAlbum albums).
  2: { eapply Forall_impl; [| exact Halbums]. apply decodeAlbum_encodeAlbum. }
  rewrite (@decodeAll_map _ decodeTrack encodeTrack tracks).
  2: { rewrite Forall_forall in *. intros t Ht.
       apply decodeTrack_encodeTrack; [| now apply Htracks].
       apply N.ltb_lt, Hnumbers, in_map, Ht. }
  rewrite (@decodeAll_map _ decodePeer encodePeer peers).
  2: { rewrite Forall_forall in *. intros p Hp.
       apply decodePeer_encodePeer; [| now apply Hpeers].
       apply N.ltb_lt, Hports, in_map, Hp. }
  reflexivity.
Qed.

(** The library on a message it accepts: the bytes [proto.Marshal] gives
    are decoded by [proto.Unmarshal] to the message. *)
Lemma UnmarshalAnswer_Marshal (r : art.ArtResources) :
  fitsUint32 r = true ->
  encodable r = true ->
  MarshalAnswer r = inl (Marshal r)
  /\ UnmarshalAnswer (Marshal r) = inl r.
Proof.
  intros Hfits Hencodable. unfold encodable in Hencodable.
  apply andb_prop in Hencodable. destruct Hencodable as [Hvalid Hsize].
  unfold MarshalAnswer, UnmarshalAnswer. rewrite Hvalid, Hsize.
  split; [reflexivity |].
  rewrite Unmarshal_Marshal, Hvalid; [reflexivity | exact Hfits |].
  apply N.ltb_lt in Hsize. apply (N.lt_trans _ _ _ Hsize). reflexivity.
Qed.

End Codec.

(** ** The publication protocol: [Sign] and [ValidatePublication] *)

Section Publication.

Import audiostrike.
Context {W : Type} (h : handler W).

(** C2.  When the verify call of the signing service returns an error, or
    reports the signature invalid over the serialized resources,
    [ValidatePublication] returns no resources and an error (the error of
    the service, or "Signature failed verification"), and the bytes are
    not given to the decoder. *)
Theorem ValidatePublication_invalid_signature
    (node : LightningNode) (publication : art.ArtistPublication) (w : W) :
  match fst (h (verifyCall node publication) w) with
  | inr _ => True
  | inl response => lnrpc.Valid response = false
  end ->
  let r := run h (lightningNode.ValidatePublication node publication) w in
  result r =
    Returned (None,
              Some match fst (h (verifyCall node publication) w) with
                   | inr err => err
                   | inl _ => Errorf "Signature failed verification"
                   end)
  /\ unmarshalAttempts (trace r) = [].
Proof.
  unfold verifyCall, lightningNode.ValidatePublication. simpl.
  destruct (h (VerifyMessage _ _ _) w) as [[response | err] w1]; simpl.
  - intros Hbad. rewrite Hbad. simpl.
    destruct (h (log_Printf _) w1). simpl. split; reflexivity.
  - intros _. destruct (h (log_Printf _) w1). simpl. split; reflexivity.
Qed.

(** C1.  What [ValidatePublication] does with a publication whose signature
    is valid over the serialized resources but was made by another pubkey
    than the one of the artist in the envelope: it returns no resources and
    does not decode the bytes; the error it returns is the nil error left
    by the verify call (line 151 returns [err]), where an identity mismatch
    error is due. *)
Theorem ValidatePublication_identity_mismatch
    (node : LightningNode) (publication : art.ArtistPublication) (w : W)
    (response : lnrpc.VerifyMessageResponse) (artist : art.Artist) :
  fst (h (verifyCall node publication) w) = inl response ->
  lnrpc.Valid response = true ->
  art.ArtistPublication.Artist publication = Some artist ->
  lnrpc.Pubkey response <> art.Artist.Pubkey artist ->
  let r := run h (lightningNode.ValidatePublication node publication) w in
  result r = Returned (None, None) /\ unmarshalAttempts (trace r) = [].
Proof.
  unfold verifyCall, lightningNode.ValidatePublication. simpl.
  destruct (h (VerifyMessage _ _ _) w) as [ans w1]. simpl.
  intros -> Hvalid -> Hkey. rewrite Hvalid. simpl.
  apply String.eqb_neq in Hkey. rewrite Hkey. simpl.
  destruct (h (log_Printf _) w1). simpl. split; reflexivity.
Qed.

(** C3.  [ValidatePublication] gives the serialized resources to the
    decoder only after the signing service has answered that the signature
    is valid and the signing pubkey has been found equal to the pubkey of
    the artist of the envelope: the verify call is the first call, the
    decoding the second.  Resources are returned only when, moreover, the
    decoding succeeded, and they are the decoded ones. *)
Theorem ValidatePublication_checks_before_decoding
    (node : LightningNode) (publication : art.ArtistPublication) (w : W) :
  let r := run h (lightningNode.ValidatePublication node publication) w in
  let buf := art.ArtistPublication.SerializedArtResources publication in
  (unmarshalAttempts (trace r) <> [] ->
   exists response artist decoded rest,
     trace r = Ev (verifyCall node publication) (inl response)
               :: Ev (proto_Unmarshal buf) decoded :: rest
     /\ unmarshalAttempts rest = []
     /\ lnrpc.Valid response = true
     /\ art.ArtistPublication.Artist publication = Some artist
     /\ lnrpc.Pubkey response = art.Artist.Pubkey artist)
  /\
  (forall resources err, result r = Returned (Some resources, err) ->
   err = None
   /\ exists response artist,
     trace r = [Ev (verifyCall node publication) (inl response);
                Ev (proto_Unmarshal buf) (inl resources)]
     /\ lnrpc.Valid response = true
     /\ art.ArtistPublication.Artist publication = Some artist
     /\ lnrpc.Pubkey response = art.Artist.Pubkey artist).
Proof.
  unfold verifyCall, lightningNode.ValidatePublication. simpl.
  destruct (h (VerifyMessage _ _ _) w) as [[response | err] w1]; simpl.
  2: { destruct (h (log_Printf _) w1). simpl.
       split; [intros H; now elim H | intros ? ? H; discriminate H]. }
  destruct (lnrpc.Valid response) eqn:Hvalid; simpl.
  2: { destruct (h (log_Printf _) w1). simpl.
       split; [intros H; now elim H | intros ? ? H; discriminate H]. }
  destruct (art.ArtistPublication.Artist publication) as [artist |]; simpl.
  2: { split; [intros H; now elim H | intros ? ? H; discriminate H]. }
  destruct (String.eqb (lnrpc.Pubkey response) (art.Artist.Pubkey artist))
    eqn:Hkey; simpl.
  2: { destruct (h (log_Printf _) w1). simpl.
       split; [intros H; now elim H | intros ? ? H; discriminate H]. }
  apply String.eqb_eq in Hkey.
  destruct (h (proto_Unmarshal _) w1) as [[resources | err] w2]; simpl.
  - split.
    + intros _. exists response, artist, (inl resources), []. auto.
    + intros res e H. injection H as <- <-. split; [reflexivity |].
      exists response, artist. auto.
  - destruct (h (log_Printf _) w2) as [u w3]. simpl. split.
    + intros _. exists response, artist, (inr err). eexists. repeat split; auto.
    + intros ? ? H. discriminate H.
Qed.

(** C4.  Whenever the signing service has signed a message during [Sign],
    that message is the output of the one [proto.Marshal] call on the
    resources, and [Sign] returns the envelope made of the publishing
    artist of the node, the signature the service gave and those very
    bytes. *)
Theorem Sign_envelope
    (node : LightningNode) (resources : art.ArtResources) (w : W)
    (msg : bytes) (signature : string) :
  let r := run h (lightningNode.Sign node resources) w in
  In (msg, signature) (signedMessages (trace r)) ->
  (exists response logged,
     lnrpc.Signature response = signature
     /\ trace r = [Ev (proto_Marshal resources) (inl msg);
                   Ev (SignMessage (lightningClient node) msg) (inl response);
                   logged])
  /\ result r =
       Returned (Some {| art.ArtistPublication.Artist := publishingArtist node;
                         art.ArtistPublication.Signature := signature;
                         art.ArtistPublication.SerializedArtResources := msg |},
                 None).
Proof.
  unfold lightningNode.Sign. simpl.
  destruct (h (proto_Marshal resources) w) as [[marshaled | err] w1]; simpl.
  2: { destruct (h (log_Printf _) w1). simpl. intros []. }
  destruct (h (SignMessage _ marshaled) w1) as [[response | err] w2]; simpl.
  2: { destruct (h (log_Printf _) w2). simpl. intros []. }
  destruct (h (log_Printf _) w2) as [u w3]. simpl.
  intros [H | []]. injection H as <- <-. split; [| reflexivity].
  exists response. eexists. split; reflexivity.
Qed.

End Publication.

(** [Sign] then [ValidatePublication], on the answers of the calls: the
    codec gives [msg] for the resources and gives the resources for [msg],
    the signing service signs [msg], and the service of the validating
    node finds that signature valid and made by the pubkey of [A]. *)
Lemma roundtrip_of_answers
    {W W' : Type} (h : handler W) (h' : handler W')
    (signer validator : audiostrike.LightningNode)
    (A : art.Artist) (resources : art.ArtResources)
    (msg : bytes) (signed : lnrpc.SignMessageResponse)
    (verified : lnrpc.VerifyMessageResponse) (w w1 : W) (w' w1' : W') :
  audiostrike.publishingArtist signer = Some A ->
  h _ (proto_Marshal resources) w = (inl msg, w1) ->
  fst (h _ (SignMessage (audiostrike.lightningClient signer) msg) w1) = inl signed ->
  h' _ (VerifyMessage (audiostrike.lightningClient validator) msg
          (lnrpc.Signature signed)) w' = (inl verified, w1') ->
  lnrpc.Valid verified = true ->
  lnrpc.Pubkey verified = art.Artist.Pubkey A ->
  fst (h' _ (proto_Unmarshal msg) w1') = inl resources ->
  exists publication,
    result (run h (lightningNode.Sign signer resources) w)
    = Returned (Some publication, None)
    /\ result (run h' (lightningNode.ValidatePublication validator publication) w')
       = Returned (Some resources, None).
Proof.
  intros Hartist Hmarshal Hsign Hverify Hvalid Hkey Hunmarshal.
  eexists. split.
  - unfold lightningNode.Sign. simpl. rewrite Hmarshal. simpl.
    destruct (h _ (SignMessage _ msg) w1) as [ans w2]. simpl in *. subst ans.
    simpl. destruct (h _ (log_Printf _) w2). simpl. reflexivity.
  - unfold lightningNode.ValidatePublication. simpl.
    rewrite Hverify. simpl. rewrite Hvalid, Hartist. simpl.
    rewrite Hkey, String.eqb_refl. simpl.
    destruct (h' _ (proto_Unmarshal msg) w1') as [ans w2']. simpl in *.
    subst ans. reflexivity.
Qed.

(** C5, amended.  Round trip, for the snapshots the protobuf library
    encodes: every string valid UTF-8, the encoding below 2 GiB, the
    numbers being [uint32] values.  The signer's node publishes for artist
    [A]; the signing service signs the encoded snapshot, and the service
    of the validating node finds that signature valid and made by the
    pubkey of [A].  Then [Sign] returns an envelope, and
    [ValidatePublication] on that envelope returns the snapshot [Sign] was
    given.  The two nodes may be different, each with its own
    collaborators, whose [proto.Marshal] and [proto.Unmarshal] are those
    of the library. *)
Theorem ValidatePublication_Sign_roundtrip
    {W W' : Type} (h : handler W) (h' : handler W')
    (signer validator : audiostrike.LightningNode)
    (A : art.Artist) (resources : art.ArtResources)
    (signed : lnrpc.SignMessageResponse)
    (verified : lnrpc.VerifyMessageResponse) (w : W) (w' : W') :
  (forall pb w0, fst (h _ (proto_Marshal pb) w0) = wire.MarshalAnswer pb) ->
  (forall buf w0, fst (h' _ (proto_Unmarshal buf) w0) = wire.UnmarshalAnswer buf) ->
  wire.fitsUint32 resources = true ->
  wire.encodable resources = true ->
  audiostrike.publishingArtist signer = Some A ->
  let msg := wire.Marshal resources in
  fst (h _ (SignMessage (audiostrike.lightningClient signer) msg)
         (snd (h _ (proto_Marshal resources) w))) = inl signed ->
  fst (h' _ (VerifyMessage (audiostrike.lightningClient validator) msg
               (lnrpc.Signature signed)) w') = inl verified ->
  lnrpc.Valid verified = true ->
  lnrpc.Pubkey verified = art.Artist.Pubkey A ->
  exists publication,
    result (run h (lightningNode.Sign signer resources) w)
    = Returned (Some publication, None)
    /\ result (run h' (lightningNode.ValidatePublication validator publication) w')
       = Returned (Some resources, None).
Proof.
  intros Hencoder Hdecoder Hfits Hencodable Hartist msg Hsign Hverify Hvalid Hkey.
  destruct (UnmarshalAnswer_Marshal resources Hfits Hencodable)
    as [Hmarshal Hunmarshal].
  specialize (Hencoder resources w). rewrite Hmarshal in Hencoder.
  destruct (h _ (proto_Marshal resources) w) as [marshaled w1] eqn:Hcall.
  cbn [fst snd] in Hencoder, Hsign. subst marshaled.
  destruct (h' _ (VerifyMessage (audiostrike.lightningClient validator) msg
                    (lnrpc.Signature signed)) w') as [answer w1'] eqn:Hcall'.
  cbn [fst] in Hverify. subst answer.
  apply (@roundtrip_of_answers _ _ h h' signer validator A resources msg signed
           verified w w1 w' w1');
    [exact Hartist | exact Hcall | exact Hsign | exact Hcall' | exact Hvalid
    | exact Hkey |].
  rewrite Hdecoder. exact Hunmarshal.
Qed.

(** One more call answered by the handler [h], or one more branch taken. *)
Ltac step h :=
  simpl;
  match goal with
  | |- context [let (_, _) := h _ ?c ?w in _] =>
      let ans := fresh "ans" in
      let w' := fresh "w" in
      destruct (h _ c w) as [ans w'] eqn:?
  | |- context [match ?x with _ => _ end] => is_var x; destruct x
  | |- context [if ?b then _ else _] => destruct b eqn:?
  | |- context [let (_, _) := ?e in _] => destruct e eqn:?
  end.

(** ** The library functions on the examples of their documentation *)

Example Clean_examples :
  map filepath.Clean
    [""; "abc"; "abc/def"; "."; ".."; "../.."; "/abc"; "/"; "abc/"; "../";
     "abc//def//ghi"; "//abc//"; "abc/./def"; "abc/def/../ghi/../jkl";
     "abc/def/../.."; "/abc/def/../../.."; "abc/def/../../..";
     "abc/def/../../../ghi/jkl/../../../mno"; "/../abc"; "abc/../../././../def"]
  = ["."; "abc"; "abc/def"; "."; ".."; "../.."; "/abc"; "/"; "abc"; "..";
     "abc/def/ghi"; "/abc"; "abc/def"; "abc/jkl";
     "."; "/"; "..";
     "../../mno"; "/abc"; "../../def"].
Proof. reflexivity. Qed.

Example Join_examples :
  map filepath.Join
    [["dirt"; "would"]; [""; "would"]; ["dirt"; ""]; [""; ""]; ["a/b"; "../c"];
     ["a"; "/b"]]
  = ["dirt/would"; "would"; "dirt"; ""; "a/c"; "a/b"].
Proof. reflexivity. Qed.

Example ParseUint_examples :
  strconv.ParseUint_10_32 "53545" = inl 53545%N
  /\ strconv.ParseUint_10_32 "4294967295" = inl 4294967295%N
  /\ strconv.ParseUint_10_32 "4294967296" = inr (ExternalError "value out of range").
Proof. repeat split; reflexivity. Qed.

Example FindStringSubmatch_examples :
  austk.FindStringSubmatch "036f70@27oxo32rz47.onion:53545"
  = Some ("036f70", "27oxo32rz47.onion", "53545")
  /\ austk.FindStringSubmatch "036F70@27oxo32rz47.onion:53545" = None
  /\ austk.FindStringSubmatch "036f70@27oxo32rz47.onion" = None
  /\ austk.FindStringSubmatch "036f70@27oxo32rz47.onion:" = None
  /\ austk.FindStringSubmatch "036f70@27oxo32rz47.onion:53545 " = None.
Proof. repeat split; reflexivity. Qed.

(** [utf8.ValidString] on ASCII, on the encodings of U+00E9, U+20AC and
    U+1F600, and on a lone Latin-1 byte, an overlong encoding, a
    surrogate, a code point above U+10FFFF and a truncated sequence. *)
Example validUTF8_examples :
  map wire.validUTF8
    ["Would?";
     String "195" (String "169" "");
     String "226" (String "130" (String "172" ""));
     String "240" (String "159" (String "152" (String "128" "")));
     String "233" "";
     String "192" (String "128" "");
     String "237" (String "160" (String "128" ""));
     String "244" (String "144" (String "128" (String "128" "")));
     String "195" ""]
  = [true; true; true; true; false; false; false; false; false].
Proof. reflexivity. Qed.

Example wire_roundtrip_example :
  wire.Unmarshal (wire.Marshal scenario.catalogue) = Some scenario.catalogue.
Proof. reflexivity. Qed.

(** ** Paths *)

Section Paths.

Import strings filepath.












End Paths.

(** ** Ingesting an mp3 file: [storeMp3File] *)

Section Ingest.

Import audiostrike.
Variable NameToID : string -> string.
Variable TitleToHierarchy : string -> string.
Context {W : Type} (h : handler W).

Local Arguments filepath.Join : simpl never.
Local Arguments String.append : simpl never.



(** Of the store calls that failed during a run in which [storeMp3File]
    returned the mp3 and no error, every one was an album store: the
    failures of all other store calls end the function with the error, or
    the process. *)
Lemma storeMp3File_success_after_failure
    (cfg : Config) (filename : string) (localStorage : FileServer)
    (austkServer : option AustkServer) (w : W) :
  let r := run h (austk.storeMp3File NameToID TitleToHierarchy cfg filename
                    localStorage austkServer) w in
  forall stored, result r = Returned (Some stored, None) ->
  failedStores (trace r) = failedAlbumStores (trace r).
Proof.
  intros r. subst r.
  match goal with
  | |- context [run h ?p w] =>
      apply (proj1 (runs_run h p w (fun tr o _ =>
        forall stored, o = Returned (Some stored, None) ->
        failedStores tr = failedAlbumStores tr)))
  end.
  unfold austk.storeMp3File, austk.setArtistPubkey, server.Sign, server.Pubkey,
    deref.
  repeat step h; simpl; intros stored E; try discriminate E; reflexivity.
Qed.

End Ingest.

(** C8.  A run of [storeMp3File] in which the store fails on the album: the
    error of [StoreAlbum] is the one failed store call of the run, and the
    function returns the mp3 with a nil error, the track, its payload and
    the publication having been stored. *)
Theorem storeMp3File_loses_StoreAlbum_error :
  let r := run reference.collaborators
             (austk.storeMp3File reference.NameToID reference.NameToID
                scenario.cfg "would.mp3" 0 (Some 0))
             scenario.worldAlbumFailure in
  failedStores (trace r) = [reference.storageError]
  /\ failedAlbumStores (trace r) = [reference.storageError]
  /\ result r = Returned (Some scenario.would, None)
  /\ length (reference.stored (world r)) = 4%nat.
Proof. vm_compute. repeat split; reflexivity. Qed.

(** ** The publisher of [main] *)

Section Publisher.

Import audiostrike.
Context {W : Type} (h : handler W).

Local Arguments String.append : simpl never.

(** The branch of lines 73-79 that goes on: when [injectPublisher] returns
    an error together with a server while no mp3 is to be added and the
    node does not run as a daemon, [main] logs the failure, does not exit,
    calls [Artist] on that server, logs the artist and goes on with that
    server. *)
Theorem main_publisher_continues_with_server
    (cfg : Config) (localStorage : FileServer)
    (lightning : option LightningNode) (w : W)
    (austkServer : AustkServer) (err : error) :
  fst (h (injectPublisher cfg localStorage lightning) w)
  = (Some austkServer, Some err) ->
  AddMp3Filename cfg = "" ->
  RunAsDaemon cfg = false ->
  let r := run h (austk.main_publisher cfg localStorage lightning) w in
  result r = Returned (Some austkServer)
  /\ artistReads (trace r) = [austkServer]
  /\ exists artist,
       trace r
       = [Ev (injectPublisher cfg localStorage lightning) (Some austkServer, Some err);
          Ev (log_Printf (austk.logPrefix ++
                "failed to connect to lightning network, error: %v")) tt;
          Ev (Server_Artist austkServer) artist;
          Ev (log_Printf (austk.logPrefix ++
                "injected lnd into new austk server for artist %v")) tt].
Proof.
  intros Hinject Hadd Hdaemon. unfold austk.main_publisher, server.Artist, deref.
  simpl. destruct (h (injectPublisher _ _ _) w) as [injected w1].
  simpl in Hinject. subst injected. simpl. rewrite Hadd, Hdaemon. simpl.
  destruct (h (log_Printf _) w1) as [[] w2]. simpl.
  destruct (h (Server_Artist austkServer) w2) as [[artist ignored] w3]. simpl.
  destruct (h (log_Printf _) w3) as [[] w4]. simpl.
  split; [reflexivity |]. split; [reflexivity |].
  exists (artist, ignored). reflexivity.
Qed.

End Publisher.

(** ** The sync run of [main] *)

Section Sync.

Import audiostrike.
Context {W : Type} (h : handler W).

Local Arguments String.append : simpl never.
Local Arguments austk.playTracks : simpl never.

Lemma clientAddresses_app (a b : list event) :
  clientAddresses (a ++ b) = (clientAddresses a ++ clientAddresses b)%list.
Proof. apply flat_map_app. Qed.

Lemma syncedClients_app (a b : list event) :
  syncedClients (a ++ b) = (syncedClients a ++ syncedClients b)%list.
Proof. apply flat_map_app. Qed.

(** A loop over two lists in a row. *)
Lemma run_forRange_app {T : Type} (body : T -> prog unit) (xs ys : list T) (w : W) :
  run h (forRange (xs ++ ys) body) w =
  match result (run h (forRange xs body) w) with
  | Returned _ =>
      {| trace := (trace (run h (forRange xs body) w)
                   ++ trace (run h (forRange ys body)
                               (world (run h (forRange xs body) w))))%list;
         result := result (run h (forRange ys body)
                             (world (run h (forRange xs body) w)));
         world := world (run h (forRange ys body)
                           (world (run h (forRange xs body) w))) |}
  | Exited code =>
      {| trace := trace (run h (forRange xs body) w); result := Exited code;
         world := world (run h (forRange xs body) w) |}
  | Panicked msg =>
      {| trace := trace (run h (forRange xs body) w); result := Panicked msg;
         world := world (run h (forRange xs body) w) |}
  end.
Proof.
  revert w. induction xs as [| x xs IH]; intros w.
  - simpl. destruct (run h (forRange ys body) w). reflexivity.
  - simpl app. simpl forRange. rewrite !run_bind.
    destruct (result (run h (body x) w)) as [[] | code | msg]; try reflexivity.
    rewrite IH.
    destruct (result (run h (forRange xs body) (world (run h (body x) w))));
      simpl; rewrite ?app_assoc; reflexivity.
Qed.

(** What every turn of a loop keeps, the loop keeps. *)
Lemma runs_forRange {T : Type} (body : T -> prog unit) (inv : list event -> Prop) :
  inv [] ->
  (forall a b, inv a -> inv b -> inv (a ++ b)%list) ->
  (forall x w, runs h (body x) w (fun tr _ _ => inv tr)) ->
  forall xs w, runs h (forRange xs body) w (fun tr _ _ => inv tr).
Proof.
  intros Hnil Happ Hbody xs. induction xs as [| x xs IH]; intros w.
  - exact Hnil.
  - simpl forRange. apply (proj2 (runs_bind h _ _ _ _)).
    eapply runs_weaken; [| apply Hbody].
    intros tr [[] | code | msg] w1 Htr; simpl; auto.
    eapply runs_weaken; [| apply IH]. simpl. auto.
Qed.

Lemma local_app (a b : list event) : local a -> local b -> local (a ++ b).
Proof.
  unfold local. rewrite clientAddresses_app, syncedClients_app.
  intros [-> ->] [-> ->]. split; reflexivity.
Qed.

(** Playing tracks makes no client and asks no peer. *)
Lemma playTracks_local (tracks : list art.Track) (fileServer : FileServer) (w : W) :
  runs h (austk.playTracks tracks fileServer) w (fun tr _ _ => local tr).
Proof.
  unfold austk.playTracks. apply (proj2 (runs_bind h _ _ _ _)).
  eapply runs_weaken; [| apply (runs_forRange _ local)].
  - intros tr [[] | code | msg] w1 Htr; simpl; rewrite ?app_nil_r; exact Htr.
  - split; reflexivity.
  - apply local_app.
  - intros track w1. unfold deref. repeat step h; split; reflexivity.
Qed.

(** An entry that is this node: one log line, and on to the next entry. *)
Lemma syncPeer_self (cfg : Config) (localStorage : FileServer)
    (austkServer : option AustkServer) (peer : art.Peer) (w : W) :
  austk.isSelf cfg peer = true ->
  run h (austk.syncPeer cfg localStorage austkServer peer) w =
  run h (Printf (austk.logPrefix ++ "skip sync from self pubkey %v")) w.
Proof. unfold austk.syncPeer. intros ->. reflexivity. Qed.

(** Any other entry: one client is asked for, at the address of the entry,
    and at most one sync is asked of it. *)
Lemma syncPeer_other (cfg : Config) (localStorage : FileServer)
    (austkServer : option AustkServer) (peer : art.Peer) (w : W) :
  austk.isSelf cfg peer = false ->
  runs h (austk.syncPeer cfg localStorage austkServer peer) w
    (fun tr _ _ =>
       clientAddresses tr = [peerAddress peer]
       /\ (length (syncedClients tr) <= 1)%nat).
Proof.
  unfold austk.syncPeer. intros ->.
  unfold client.SyncFromPeer, client.CloseConnection, client.DownloadTracks, deref.
  repeat step h; simpl; try (split; [reflexivity | simpl; lia]).
  all: repeat lazymatch goal with
       | |- runs _ (bind (austk.playTracks _ _) _) _ _ => fail
       | |- runs _ (bind _ _) _ _ => apply (proj2 (runs_bind h _ _ _ _))
       end.
  all: apply (proj2 (runs_bind h _ _ _ _)).
  all: eapply runs_weaken; [| apply playTracks_local].
  all: intros tr o w' [Hclients Hsynced].
  all: unfold clientAddresses, syncedClients in *.
  all: destruct o; repeat step h; rewrite ?flat_map_app, ?Hclients, ?Hsynced.
  all: try (split; [reflexivity | simpl; lia]).
Qed.

(** The clients asked for during the loop are those of the entries that are
    not this node, in order, up to where the loop stopped; and no more
    syncs are asked than clients were made. *)
Lemma sync_clients (cfg : Config) (localStorage : FileServer)
    (austkServer : option AustkServer) (peers : list art.Peer) (w : W) :
  runs h (forRange peers (austk.syncPeer cfg localStorage austkServer)) w
    (fun tr o _ =>
       (exists rest,
          map peerAddress (filter (fun p => negb (austk.isSelf cfg p)) peers)
          = (clientAddresses tr ++ rest)%list
          /\ (o = Returned tt -> rest = []))
       /\ (length (syncedClients tr) <= length (clientAddresses tr))%nat).
Proof.
  revert w. induction peers as [| peer peers IH]; intros w.
  - simpl. split; [exists []; split; auto | apply Nat.le_refl].
  - simpl forRange. apply (proj2 (runs_bind h _ _ _ _)).
    simpl filter. destruct (austk.isSelf cfg peer) eqn:Hself; simpl negb; cbv iota.
    + unfold austk.syncPeer. rewrite Hself. simpl.
      destruct (h (log_Printf _) w) as [u w1]. simpl.
      eapply runs_weaken; [| apply IH]. simpl. auto.
    + eapply runs_weaken; [| apply (syncPeer_other _ _ _ _ _ Hself)].
      intros tr [[] | code | msg] w1 [Hclient Hsynced]; simpl.
      * eapply runs_weaken; [| apply IH].
        intros tr2 o2 w2 [[rest [Hrest Hdone]] Hlen]. simpl.
        rewrite clientAddresses_app, syncedClients_app, !length_app, Hclient.
        split; [| simpl; lia].
        exists rest. simpl. rewrite Hrest. auto.
      * rewrite Hclient. split; [| exact Hsynced].
        eexists. split; [reflexivity | discriminate].
      * rewrite Hclient. split; [| exact Hsynced].
        eexists. split; [reflexivity | discriminate].
Qed.

(** The same of the whole sync run, on the stored peers. *)
Lemma main_sync_clients (cfg : Config) (localStorage : FileServer)
    (austkServer : option AustkServer) (w : W) :
  let r := run h (austk.main_sync cfg localStorage austkServer) w in
  let peers := fst (fst (h (Peers localStorage) w)) in
  exists rest,
    map peerAddress (filter (fun p => negb (austk.isSelf cfg p)) peers)
    = (clientAddresses (trace r) ++ rest)%list
    /\ (result r = Returned tt -> rest = []).
Proof.
  intros r peers. subst r peers.
  match goal with
  | |- context [run h ?p w] =>
      apply (proj1 (runs_run h p w (fun tr o _ =>
        exists rest,
          map peerAddress (filter (fun peer => negb (austk.isSelf cfg peer))
                             (fst (fst (h (Peers localStorage) w))))
          = (clientAddresses tr ++ rest)%list
          /\ (o = Returned tt -> rest = []))))
  end.
  unfold austk.main_sync. simpl.
  destruct (h (Peers localStorage) w) as [[peers err] w1]. simpl.
  destruct err as [err |]; simpl.
  - destruct (h (log_Printf _) w1) as [u w2]. simpl.
    eapply runs_weaken; [| apply sync_clients]. simpl. intros tr o w3 [H _]. exact H.
  - eapply runs_weaken; [| apply sync_clients]. simpl. intros tr o w3 [H _]. exact H.
Qed.

(** C7.  In the sync loop, an entry of the peer list whose pubkey is the
    configured pubkey of this node and whose host is its configured host is
    skipped: when the loop reaches it, it makes one call, the log line of
    the skip, and goes on with the entries after it.  Clients are asked for
    only at the addresses of the other entries, in their order, and a sync
    is asked only of a client that was made. *)
Theorem sync_skips_self (cfg : Config) (localStorage : FileServer)
    (austkServer : option AustkServer) (before after : list art.Peer)
    (peer : art.Peer) (w : W) :
  art.Peer.Pubkey peer = Pubkey cfg ->
  art.Peer.Host peer = RestHost cfg ->
  let body := austk.syncPeer cfg localStorage austkServer in
  let peers := (before ++ peer :: after)%list in
  let r := run h (forRange peers body) w in
  let r1 := run h (forRange before body) w in
  let skip := log_Printf (austk.logPrefix ++ "skip sync from self pubkey %v") in
  let r2 := run h (forRange after body) (snd (h skip (world r1))) in
  (exists rest,
     map peerAddress (filter (fun p => negb (austk.isSelf cfg p)) (before ++ after))
     = (clientAddresses (trace r) ++ rest)%list)
  /\ (length (syncedClients (trace r)) <= length (clientAddresses (trace r)))%nat
  /\ (result r1 = Returned tt ->
      trace r = (trace r1 ++ Ev skip (fst (h skip (world r1))) :: trace r2)%list
      /\ result r = result r2).
Proof.
  intros Hpubkey Hhost body peers r r1 skip r2.
  assert (Hself : austk.isSelf cfg peer = true).
  { unfold austk.isSelf. rewrite Hpubkey, Hhost, !String.eqb_refl. reflexivity. }
  pose proof (proj1 (runs_run h _ _ _) (sync_clients cfg localStorage austkServer
                                         peers w)) as Hclients.
  simpl in Hclients. destruct Hclients as [[rest [Hrest _]] Hlen].
  split; [| split].
  - exists rest. etransitivity; [| exact Hrest]. unfold peers.
    rewrite !filter_app. simpl. rewrite Hself. reflexivity.
  - exact Hlen.
  - intros Hreached. subst r peers. rewrite run_forRange_app.
    fold body r1. rewrite Hreached. simpl forRange. rewrite run_bind.
    assert (Hpeer : run h (body peer) (world r1) =
                    {| trace := [Ev skip (fst (h skip (world r1)))];
                       result := Returned tt;
                       world := snd (h skip (world r1)) |}).
    { unfold body. rewrite (syncPeer_self _ _ _ _ _ Hself), run_Printf.
      fold skip. destruct (fst (h skip (world r1))). reflexivity. }
    rewrite Hpeer. simpl. split; reflexivity.
Qed.

(** C6.  What the sync loop does when the client of a peer cannot be made:
    the failure is not skipped.  When the loop reaches an entry, not this
    node, for which [NewClient] answers an error, [log.Fatalf] ends the
    process with status 1 after three calls, the log line of the peer, the
    [NewClient] call and the fatal log line, and nothing is done for the
    entries after that one. *)
Theorem sync_exits_on_NewClient_error (cfg : Config) (localStorage : FileServer)
    (austkServer : option AustkServer) (before after : list art.Peer)
    (peer : art.Peer) (w : W) :
  let body := austk.syncPeer cfg localStorage austkServer in
  let r := run h (forRange (before ++ peer :: after) body) w in
  let r1 := run h (forRange before body) w in
  let announce := log_Printf (austk.logPrefix ++ "sync from peer %v") in
  let w1 := snd (h announce (world r1)) in
  let connect := NewClient (TorProxy cfg) (peerAddress peer) austkServer in
  let fatal := log_Printf (austk.logPrefix
                 ++ "NewClient via torProxy %v to peerAddress %v, error: %v") in
  result r1 = Returned tt ->
  austk.isSelf cfg peer = false ->
  snd (fst (h connect w1)) <> None ->
  result r = Exited 1
  /\ trace r = (trace r1
                ++ [Ev announce (fst (h announce (world r1)));
                    Ev connect (fst (h connect w1));
                    Ev fatal (fst (h fatal (snd (h connect w1))))])%list.
Proof.
  intros body r r1 announce w1 connect fatal Hreached Hself Herr.
  subst r. rewrite run_forRange_app. fold body r1. rewrite Hreached.
  simpl forRange. rewrite run_bind.
  assert (Hpeer : run h (body peer) (world r1) =
                  {| trace := [Ev announce (fst (h announce (world r1)));
                               Ev connect (fst (h connect w1));
                               Ev fatal (fst (h fatal (snd (h connect w1))))];
                     result := Exited 1;
                     world := snd (h fatal (snd (h connect w1))) |}).
  { unfold body, austk.syncPeer. rewrite Hself.
    unfold Fatalf, Printf, call. simpl bind.
    rewrite run_Vis. fold announce. fold w1.
    rewrite run_Vis. unfold peerAddress in connect. fold connect.
    destruct (h connect w1) as [[made err] w3]. simpl in Herr. simpl fst. simpl snd.
    destruct err as [err |]; [| now elim Herr]. simpl not_nil. cbv iota.
    rewrite run_Vis. fold fatal. reflexivity. }
  rewrite Hpeer. simpl. split; reflexivity.
Qed.

(** Where a sync fails, the loop goes on: the turn of the peer is made of
    five calls, the log line of the peer, the client, the sync that
    failed, the log line of its error and the closing of the connection of
    that client, after which the turn returns to the loop. *)
Lemma syncPeer_sync_error_continues (cfg : Config) (localStorage : FileServer)
    (austkServer : option AustkServer) (peer : art.Peer) (w : W)
    (c : Client) (resources : option art.ArtResources) (err : error) :
  let announce := log_Printf (austk.logPrefix ++ "sync from peer %v") in
  let w1 := snd (h announce w) in
  let connect := NewClient (TorProxy cfg) (peerAddress peer) austkServer in
  let w2 := snd (h connect w1) in
  austk.isSelf cfg peer = false ->
  fst (h connect w1) = (Some c, None) ->
  fst (h (Client_SyncFromPeer c localStorage) w2) = (resources, Some err) ->
  let r := run h (austk.syncPeer cfg localStorage austkServer peer) w in
  result r = Returned tt
  /\ trace r
     = [Ev announce tt;
        Ev connect (Some c, None);
        Ev (Client_SyncFromPeer c localStorage) (resources, Some err);
        Ev (log_Printf (austk.logPrefix ++ "SyncFromPeer error: %v")) tt;
        Ev (Client_CloseConnection c) tt]
  /\ syncedClients (trace r) = [c]
  /\ clientsClosed (trace r) = [c].
Proof.
  intros announce w1 connect w2 Hself Hconnect Hsync. simpl.
  unfold austk.syncPeer. rewrite Hself.
  unfold client.SyncFromPeer, client.CloseConnection, Fatalf, Printf, call, deref.
  simpl bind.
  rewrite run_Vis. fold announce. fold w1.
  rewrite run_Vis. unfold peerAddress in connect. fold connect. fold w2.
  rewrite Hconnect. simpl not_nil. cbv iota. simpl bind.
  rewrite run_Vis, Hsync. simpl not_nil. cbv iota. simpl bind.
  rewrite !run_Vis. simpl.
  destruct (fst (h announce w)).
  destruct (fst (h (log_Printf _) _)).
  destruct (fst (h (Client_CloseConnection c) _)). auto.
Qed.

End Sync.


(** ** Runs of [main] on the scenarios *)

(** The node of the scenario started without anything to do: the artist is
    stored with the pubkey of lnd, the publisher is built and its artist
    logged, no peer is stored, and [main] returns. *)
Example main_returns :
  let r := run reference.collaborators
             (austk.main reference.NameToID reference.NameToID) scenario.world in
  result r = Returned tt
  /\ reference.stored (world r) = [reference.AnArtist scenario.alice]
  /\ artistReads (trace r) = [0]
  /\ clientAddresses (trace r) = [].
Proof. vm_compute. repeat split; reflexivity. Qed.

(** In play mode a second way out of the loop: the sync with the first peer
    succeeds, the download of its tracks fails and is only logged, the
    track cannot be opened and [playTracks] ends the process; the second
    peer is not synced. *)
Example sync_exits_on_unplayable_track :
  let r := run reference.collaborators
             (austk.main_sync scenario.cfgPlay 0 (Some 0)) scenario.worldPlay in
  result r = Exited 1
  /\ clientAddresses (trace r) = ["good.onion:53545"]
  /\ syncedClients (trace r) = [0].
Proof. vm_compute. repeat split; reflexivity. Qed.

(** * The theorems on the scenarios *)

Import audiostrike.

(** An envelope signed by [K2] and naming the artist whose pubkey is [K1]:
    validation returns neither resources nor an error. *)
Lemma ValidatePublication_identity_mismatch_witness :
  let r := run reference.collaborators (lightningNode.ValidatePublication scenario.node
                    scenario.impersonating) scenario.world in
  fst (reference.collaborators (verifyCall scenario.node scenario.impersonating) scenario.world)
  = inl {| lnrpc.Valid := true; lnrpc.Pubkey := scenario.K2 |}
  /\ art.Artist.Pubkey scenario.alice = scenario.K1
  /\ result r = Returned (None, None)
  /\ unmarshalAttempts (trace r) = [].
Proof.
  split; [reflexivity |]. split; [reflexivity |].
  apply (@ValidatePublication_identity_mismatch _ reference.collaborators scenario.node
           scenario.impersonating scenario.world
           {| lnrpc.Valid := true; lnrpc.Pubkey := scenario.K2 |} scenario.alice).
  - reflexivity.
  - reflexivity.
  - reflexivity.
  - vm_compute. discriminate.
Defined.

(** The envelope altered after signing: the signature is reported invalid
    and validation fails. *)
Lemma ValidatePublication_invalid_signature_witness :
  let r := run reference.collaborators (lightningNode.ValidatePublication scenario.node scenario.tampered)
             scenario.world in
  art.ArtistPublication.Signature scenario.tampered
  = art.ArtistPublication.Signature scenario.genuine
  /\ result r = Returned (None, Some (Errorf "Signature failed verification"))
  /\ unmarshalAttempts (trace r) = [].
Proof.
  split; [reflexivity |].
  apply (@ValidatePublication_invalid_signature _ reference.collaborators scenario.node scenario.tampered
           scenario.world).
  vm_compute. reflexivity.
Defined.

(** The genuine envelope: the bytes are decoded, after the two checks. *)
Lemma ValidatePublication_checks_before_decoding_witness :
  let r := run reference.collaborators (lightningNode.ValidatePublication scenario.node scenario.genuine)
             scenario.world in
  unmarshalAttempts (trace r) = [wire.Marshal scenario.catalogue]
  /\ exists response artist decoded rest,
       trace r = Ev (verifyCall scenario.node scenario.genuine) (inl response)
                 :: Ev (proto_Unmarshal (wire.Marshal scenario.catalogue)) decoded
                 :: rest
       /\ unmarshalAttempts rest = []
       /\ lnrpc.Valid response = true
       /\ art.ArtistPublication.Artist scenario.genuine = Some artist
       /\ lnrpc.Pubkey response = art.Artist.Pubkey artist.
Proof.
  split; [reflexivity |].
  apply (proj1 (@ValidatePublication_checks_before_decoding _ reference.collaborators scenario.node
                  scenario.genuine scenario.world)).
  vm_compute. discriminate.
Defined.

(** The envelope of the catalogue. *)
Lemma Sign_envelope_witness :
  let r := run reference.collaborators (lightningNode.Sign scenario.node scenario.catalogue)
             scenario.world in
  signedMessages (trace r)
  = [(wire.Marshal scenario.catalogue,
      reference.sign scenario.K1 (wire.Marshal scenario.catalogue))]
  /\ result r = Returned (Some scenario.genuine, None).
Proof.
  split; [reflexivity |].
  apply (@Sign_envelope _ reference.collaborators scenario.node scenario.catalogue scenario.world
           (wire.Marshal scenario.catalogue)
           (reference.sign scenario.K1 (wire.Marshal scenario.catalogue))).
  vm_compute. left. reflexivity.
Defined.

(** The catalogue signed and validated gives the catalogue. *)
Lemma ValidatePublication_Sign_roundtrip_witness :
  wire.encodable scenario.catalogue = true
  /\ exists publication,
       result (run reference.collaborators
                 (lightningNode.Sign scenario.node scenario.catalogue)
                 scenario.world)
       = Returned (Some publication, None)
       /\ result (run reference.collaborators
                    (lightningNode.ValidatePublication scenario.node publication)
                    scenario.world)
          = Returned (Some scenario.catalogue, None).
Proof.
  split; [reflexivity |].
  apply (@ValidatePublication_Sign_roundtrip _ _ reference.collaborators
           reference.collaborators scenario.node scenario.node
           scenario.alice scenario.catalogue
           {| lnrpc.Signature :=
                reference.sign scenario.K1 (wire.Marshal scenario.catalogue) |}
           {| lnrpc.Valid := true; lnrpc.Pubkey := scenario.K1 |}
           scenario.world scenario.world);
    try reflexivity; intros; reflexivity.
Defined.

(** A snapshot with a name in Latin-1, which is not valid UTF-8: the
    signing service is reachable and would sign and verify the encoded
    snapshot for the artist, but [proto.Marshal] refuses the snapshot and
    [Sign] returns its error, so that no envelope of it is ever
    validated. *)
Lemma ValidatePublication_Sign_roundtrip_counterexample :
  let msg := wire.Marshal scenario.latin1 in
  let signature := reference.sign scenario.K1 msg in
  let r := run reference.collaborators
             (lightningNode.Sign scenario.node scenario.latin1) scenario.world in
  audiostrike.publishingArtist scenario.node = Some scenario.alice
  /\ fst (reference.collaborators (SignMessage 0 msg) scenario.world)
     = inl {| lnrpc.Signature := signature |}
  /\ fst (reference.collaborators (VerifyMessage 0 msg signature) scenario.world)
     = inl {| lnrpc.Valid := true;
              lnrpc.Pubkey := art.Artist.Pubkey scenario.alice |}
  /\ wire.fitsUint32 scenario.latin1 = true
  /\ result r = Returned (None, Some wire.errInvalidUTF8)
  /\ ~ (exists publication,
          result r = Returned (Some publication, None)
          /\ result (run reference.collaborators
                       (lightningNode.ValidatePublication scenario.node publication)
                       scenario.world)
             = Returned (Some scenario.latin1, None)).
Proof.
  repeat (split; [reflexivity |]).
  intros (publication & Hsigned & _). discriminate Hsigned.
Qed.

(** The stored peers are this node, a peer to which no client can be made
    and a third peer: the run exits at the second, the third is not
    synced. *)
Lemma sync_exits_on_NewClient_error_witness :
  let r := run reference.collaborators (forRange [scenario.self; scenario.down; scenario.good]
                    (austk.syncPeer scenario.cfg 0 (Some 0)))
             scenario.worldPeers in
  austk.isSelf scenario.cfg scenario.good = false
  /\ result r = Exited 1
  /\ clientAddresses (trace r) = ["down.onion:53545"]
  /\ syncedClients (trace r) = [].
Proof.
  split; [reflexivity |].
  destruct (@sync_exits_on_NewClient_error _ reference.collaborators scenario.cfg 0 (Some 0)
              [scenario.self] [scenario.good] scenario.down scenario.worldPeers)
    as [Hexit Htrace].
  - reflexivity.
  - reflexivity.
  - vm_compute. discriminate.
  - split; [exact Hexit |].
    split; [exact (f_equal clientAddresses Htrace)
           | exact (f_equal syncedClients Htrace)].
Defined.

(** This node among its own peers: the one call made for it is the log
    line, and the loop goes on to the next entry. *)
Lemma sync_skips_self_witness :
  let body := austk.syncPeer scenario.cfg 0 (Some 0) in
  let r := run reference.collaborators (forRange [scenario.self; scenario.good] body) scenario.world in
  let r2 := run reference.collaborators (forRange [scenario.good] body) scenario.world in
  art.Peer.Pubkey scenario.self = Pubkey scenario.cfg
  /\ art.Peer.Host scenario.self = RestHost scenario.cfg
  /\ trace r = Ev (log_Printf "austk main skip sync from self pubkey %v") tt
               :: trace r2
  /\ result r = result r2
  /\ clientAddresses (trace r) = ["good.onion:53545"].
Proof.
  split; [reflexivity |]. split; [reflexivity |].
  destruct (@sync_skips_self _ reference.collaborators scenario.cfg 0 (Some 0) [] [scenario.good]
              scenario.self scenario.world eq_refl eq_refl)
    as (_ & _ & Hskip).
  destruct (Hskip eq_refl) as [Htrace Hresult].
  split; [exact Htrace |]. split; [exact Hresult |]. reflexivity.
Defined.



(** The publisher came with an error and a server. *)
Lemma main_publisher_continues_with_server_witness :
  let r := run reference.collaborators
             (austk.main_publisher scenario.cfg 0 (Some scenario.node))
             scenario.worldPublisherError in
  result r = Returned (Some 0%nat) /\ artistReads (trace r) = [0%nat].
Proof.
  destruct (@main_publisher_continues_with_server _ reference.collaborators
              scenario.cfg 0 (Some scenario.node) scenario.worldPublisherError
              0%nat reference.unavailable eq_refl eq_refl eq_refl)
    as (Hresult & Hreads & _).
  split; [exact Hresult | exact Hreads].
Defined.


(** * Further properties of the code *)

(** ** [Sign] and [ValidatePublication] *)

Section PublicationResults.

Import audiostrike.
Context {W : Type} (h : handler W).

Local Arguments String.append : simpl never.

(** [Sign] returns an envelope exactly when the signing service signed.
    With a nil error the envelope is made of the publishing artist of the
    node, of the bytes the one [proto.Marshal] call gave for the resources
    and of the signature the service gave for those bytes, the one message
    signed.  Otherwise it returns no envelope and the error of the call
    that failed, nothing having been signed; when the encoding failed the
    signing service was not called.  It never returns nil with a nil
    error, and ends neither the process nor in a panic. *)
Theorem Sign_envelope_or_error
    (node : LightningNode) (resources : art.ArtResources) (w : W) :
  let r := run h (lightningNode.Sign node resources) w in
  let w1 := snd (h (proto_Marshal resources) w) in
  match result r with
  | Returned (Some publication, None) =>
      exists msg response,
        fst (h (proto_Marshal resources) w) = inl msg
        /\ fst (h (SignMessage (lightningClient node) msg) w1) = inl response
        /\ publication
           = {| art.ArtistPublication.Artist := publishingArtist node;
                art.ArtistPublication.Signature := lnrpc.Signature response;
                art.ArtistPublication.SerializedArtResources := msg |}
        /\ work (trace r) = ["proto.Marshal"; "SignMessage"]
        /\ signedMessages (trace r) = [(msg, lnrpc.Signature response)]
  | Returned (None, Some err) =>
      signedMessages (trace r) = []
      /\ match fst (h (proto_Marshal resources) w) with
         | inr failed => err = failed /\ work (trace r) = ["proto.Marshal"]
         | inl msg =>
             fst (h (SignMessage (lightningClient node) msg) w1) = inr err
             /\ work (trace r) = ["proto.Marshal"; "SignMessage"]
         end
  | _ => False
  end.
Proof.
  unfold lightningNode.Sign. simpl.
  destruct (h (proto_Marshal resources) w) as [[marshaled | err] w1]; simpl.
  2: { destruct (h (log_Printf _) w1). simpl. auto. }
  destruct (h (SignMessage _ marshaled) w1) as [[response | err] w2] eqn:Hsign;
    simpl.
  2: { destruct (h (log_Printf _) w2). simpl. auto. }
  destruct (h (log_Printf _) w2). simpl.
  exists marshaled, response. rewrite Hsign. repeat split; reflexivity.
Qed.

(** A publication without artist whose signature the signing service finds
    valid: [ValidatePublication] reads the pubkey through the nil artist at
    line 148 and panics, after the verify call and before any decoding. *)
Theorem ValidatePublication_nil_artist_panics
    (node : LightningNode) (publication : art.ArtistPublication) (w : W)
    (response : lnrpc.VerifyMessageResponse) :
  fst (h (verifyCall node publication) w) = inl response ->
  lnrpc.Valid response = true ->
  art.ArtistPublication.Artist publication = None ->
  let r := run h (lightningNode.ValidatePublication node publication) w in
  result r = Panicked nil_dereference
  /\ trace r = [Ev (verifyCall node publication) (inl response)].
Proof.
  unfold verifyCall, lightningNode.ValidatePublication. simpl.
  destruct (h (VerifyMessage _ _ _) w) as [ans w1]. simpl.
  intros -> Hvalid ->. rewrite Hvalid. simpl. split; reflexivity.
Qed.

(** Once the signature is found valid and the signing pubkey is the pubkey
    of the artist of the envelope, the result of [ValidatePublication] is
    the answer of the decoder on the serialized resources: the decoded
    resources with a nil error, or no resources and the error of the
    decoder. *)
Theorem ValidatePublication_returns_decoded
    (node : LightningNode) (publication : art.ArtistPublication) (w w1 : W)
    (response : lnrpc.VerifyMessageResponse) (artist : art.Artist) :
  h (verifyCall node publication) w = (inl response, w1) ->
  lnrpc.Valid response = true ->
  art.ArtistPublication.Artist publication = Some artist ->
  lnrpc.Pubkey response = art.Artist.Pubkey artist ->
  let r := run h (lightningNode.ValidatePublication node publication) w in
  result r =
    match fst (h (proto_Unmarshal
                      (art.ArtistPublication.SerializedArtResources publication))
                 w1) with
    | inl resources => Returned (Some resources, None)
    | inr err => Returned (None, Some err)
    end.
Proof.
  unfold verifyCall, lightningNode.ValidatePublication. simpl.
  intros Hverify Hvalid Hartist Hkey. rewrite Hverify. simpl.
  rewrite Hvalid, Hartist. simpl. rewrite Hkey, String.eqb_refl. simpl.
  destruct (h (proto_Unmarshal _) w1) as [[resources | err] w2]; simpl.
  - reflexivity.
  - destruct (h (log_Printf _) w2). reflexivity.
Qed.

(** The publication protocol leaves the store and the network alone: apart
    from log lines, [Sign] calls only the encoder and the signing service,
    and [ValidatePublication] only the signing service and the decoder; and
    [ValidatePublication] never ends the process. *)
Theorem publication_protocol_calls
    (node : LightningNode) (resources : art.ArtResources)
    (publication : art.ArtistPublication) (w : W) :
  incl (work (trace (run h (lightningNode.Sign node resources) w)))
       ["proto.Marshal"; "SignMessage"]
  /\ incl (work (trace (run h (lightningNode.ValidatePublication node publication) w)))
          ["VerifyMessage"; "proto.Unmarshal"]
  /\ forall code,
       result (run h (lightningNode.ValidatePublication node publication) w)
       <> Exited code.
Proof.
  split; [| split].
  - unfold lightningNode.Sign. simpl.
    repeat step h; simpl; intros x Hx; simpl in *;
      repeat (destruct Hx as [Hx | Hx]; auto); contradiction.
  - unfold lightningNode.ValidatePublication, deref.
    destruct publication as [artist signature buf]. simpl.
    repeat step h; simpl; intros x Hx; simpl in *;
      repeat (destruct Hx as [Hx | Hx]; auto); contradiction.
  - intros code. unfold lightningNode.ValidatePublication, deref.
    destruct publication as [artist signature buf]. simpl.
    repeat step h; simpl; discriminate.
Qed.

End PublicationResults.

(** A goal on the trace and the outcome of a run of [h], turned into a
    condition on the program, to be met call by call. *)
Ltac by_runs h :=
  match goal with
  | |- context [run h ?p ?w] =>
      pattern (trace (run h p w)), (result (run h p w));
      match goal with
      | |- ?post _ _ =>
          refine (proj1 (runs_run h p w (fun tr o _ => post tr o)) _)
      end
  end.

(** ** Connecting to lnd: [NewLightningNode] *)

Section Connecting.

Import audiostrike.
Context {W : Type} (h : handler W).

Local Arguments String.append : simpl never.
Local Arguments fmt.Sprintf_host_int : simpl never.

Ltac unfold_NewLightningNode :=
  unfold lightningNode.NewLightningNode, lightningNode.tlsCertPath,
    lightningNode.macaroonFromFile, lightningNode.macaroonPath,
    lightningNode.pubkey, deref.

(** Which failures [NewLightningNode] returns and which end the process.
    It returns a node exactly when it returns a nil error, lnd having been
    dialed and no call having failed but, at most, the lookup of the
    artist with [ErrArtNotFound].  It returns an error, and no node, only
    for the failure of the one call that gave that error, which is the
    reading of the macaroon file, its decoding or the dialing of lnd; the
    configuration is then as it was and the store was not asked anything.
    It ends the process, with status 1, in every other case: no artist
    configured; the home directory, the tls credentials, the identity of
    lnd or the storing of the artist failed; the lookup of the artist
    failed otherwise than with [ErrArtNotFound]; the configured pubkey is
    not that of lnd.  It never panics. *)
Theorem NewLightningNode_result (cfg : Config) (localStorage : FileServer) (w : W) :
  let r := run h (lightningNode.NewLightningNode cfg localStorage) w in
  match result r with
  | Returned ((Some node, None), cfg') =>
      In "grpc.Dial" (names (trace r))
      /\ (failures (trace r) = []
          \/ failures (trace r) = [("ArtServer.Artist", ErrArtNotFound)])
  | Returned ((None, Some err), cfg') =>
      cfg' = cfg
      /\ (exists name,
            In name ["ioutil.ReadFile"; "Macaroon.UnmarshalBinary"; "grpc.Dial"]
            /\ failures (trace r) = [(name, err)])
      /\ incl (work (trace r))
              ["user.Current"; "credentials.NewClientTLSFromFile";
               "ioutil.ReadFile"; "Macaroon.UnmarshalBinary"; "grpc.Dial"]
  | Returned _ => False
  | Exited code =>
      code = 1%Z
      /\ ((ArtistID cfg = "" /\ failures (trace r) = [])
          \/ (exists name err,
                In name ["user.Current"; "credentials.NewClientTLSFromFile"]
                /\ failures (trace r) = [(name, err)])
          \/ (exists err,
                err <> ErrArtNotFound
                /\ failures (trace r) = [("ArtServer.Artist", err)])
          \/ (exists name err,
                In name ["GetInfo"; "StoreArtist"]
                /\ failures (trace r)
                   = [("ArtServer.Artist", ErrArtNotFound); (name, err)])
          \/ (exists pubkey,
                failures (trace r) = [("ArtServer.Artist", ErrArtNotFound)]
                /\ lndIdentities (trace r) = [pubkey]
                /\ Pubkey cfg <> "" /\ Pubkey cfg <> pubkey))
  | Panicked _ => False
  end.
Proof.
  intros r. subst r. by_runs h. unfold_NewLightningNode.
  repeat step h; simpl.
  all: repeat match goal with
       | H : is_ErrArtNotFound ?o = _ |- _ =>
           is_var o; destruct o as [[] |]; simpl in H; try discriminate H; clear H
       | H : not_nil ?o = _ |- _ =>
           is_var o; destruct o; simpl in H; try discriminate H; clear H
       | H : String.eqb _ _ = true |- _ => apply String.eqb_eq in H
       | H : String.eqb _ _ = false |- _ => apply String.eqb_neq in H
       | H : negb (String.eqb _ _) = true |- _ =>
           apply negb_true_iff, String.eqb_neq in H
       | H : negb (String.eqb _ _) = false |- _ =>
           apply negb_false_iff, String.eqb_eq in H
       | ans : option error |- _ => destruct ans
       end; simpl.
  all: try discriminate.
  all: try (split; [reflexivity |]).
  all: try (split; [solve [auto 12] |]).
  all: try solve [auto].
  all: try solve [left; split; [assumption | reflexivity]].
  all: try solve [right; left; do 2 eexists; split; [| reflexivity]; simpl; auto].
  all: try solve [right; right; left; eexists; split; [| reflexivity]; discriminate].
  all: try solve [do 3 right; left; do 2 eexists; split; [| reflexivity];
                  simpl; auto].
  all: try solve [do 4 right; eexists; repeat split; assumption].
  all: try solve [split; [eexists; split; [| reflexivity]; simpl; auto |];
                  intros x Hx; simpl in *;
                  repeat (destruct Hx as [Hx | Hx]; auto 10); contradiction].
Qed.

Lemma set_Pubkey_same (cfg : Config) : set_Pubkey cfg (Pubkey cfg) = cfg.
Proof. destruct cfg. reflexivity. Qed.

(** When [NewLightningNode] returns a node, either it stored nothing, did
    not ask lnd for its identity and left the configuration as it was, the
    publishing artist of the node being the artist the store gave for the
    configured id, whatever its pubkey; or it stored one artist, made of the
    configured id and name and of the identity pubkey lnd gave, which is the
    publishing artist of the node and whose pubkey is the configured pubkey
    from then on, the configured pubkey having been empty or that very
    pubkey before. *)
Theorem NewLightningNode_publishing_artist
    (cfg cfg' : Config) (localStorage : FileServer) (w : W) (node : LightningNode) :
  let r := run h (lightningNode.NewLightningNode cfg localStorage) w in
  result r = Returned ((Some node, None), cfg') ->
  match storedArtists (trace r) with
  | [] =>
      cfg' = cfg
      /\ lndIdentities (trace r) = []
      /\ foundArtists (trace r)
         = match publishingArtist node with
           | Some artist => [(ArtistID cfg, artist)]
           | None => []
           end
  | [artist] =>
      artist = {| art.Artist.ArtistId := ArtistID cfg;
                  art.Artist.Name := ArtistName cfg;
                  art.Artist.Pubkey := art.Artist.Pubkey artist |}
      /\ lndIdentities (trace r) = [art.Artist.Pubkey artist]
      /\ publishingArtist node = Some artist
      /\ cfg' = set_Pubkey cfg (art.Artist.Pubkey artist)
      /\ (Pubkey cfg = "" \/ Pubkey cfg = art.Artist.Pubkey artist)
  | _ => False
  end.
Proof.
  intros r. subst r. revert node cfg'. by_runs h. unfold_NewLightningNode.
  repeat step h; simpl; intros node cfg' E; try discriminate E;
    injection E as <- <-; simpl.
  all: try match goal with
           | H : negb (String.eqb _ _) = false |- _ =>
               apply negb_false_iff, String.eqb_eq in H
           end.
  all: try match goal with
           | H : String.eqb _ "" = true |- _ => apply String.eqb_eq in H
           end.
  all: repeat split; auto.
  all: match goal with
       | H : Pubkey _ = _ |- _ => rewrite <- H; symmetry; apply set_Pubkey_same
       end.
Qed.

(** A configured pubkey that is not the identity pubkey of lnd: when the
    configured artist is not in the store and lnd gives its identity,
    [NewLightningNode] ends the process, and no artist is stored. *)
Theorem NewLightningNode_pubkey_mismatch
    (cfg : Config) (localStorage : FileServer) (w : W) (pubkey : string) :
  Pubkey cfg <> "" ->
  Pubkey cfg <> pubkey ->
  let r := run h (lightningNode.NewLightningNode cfg localStorage) w in
  In pubkey (lndIdentities (trace r)) ->
  result r = Exited 1 /\ storedArtists (trace r) = [].
Proof.
  intros Hset Hother r. subst r. by_runs h. unfold_NewLightningNode.
  apply String.eqb_neq in Hset.
  repeat step h; simpl; intros Hin;
    repeat (destruct Hin as [Hin | Hin]; try contradiction);
    try contradiction; subst;
    try (split; reflexivity); try congruence.
  all: match goal with
       | H : negb (String.eqb _ _) = false |- _ =>
           apply negb_false_iff, String.eqb_eq in H; now elim Hother
       end.
Qed.

(** Without a configured artist id [NewLightningNode] never returns a node,
    and the store is neither asked for an artist nor given one. *)
Theorem NewLightningNode_no_artist
    (cfg : Config) (localStorage : FileServer) (w : W) :
  ArtistID cfg = "" ->
  let r := run h (lightningNode.NewLightningNode cfg localStorage) w in
  (forall node cfg', result r <> Returned ((Some node, None), cfg'))
  /\ ~ In "ArtServer.Artist" (names (trace r))
  /\ storedArtists (trace r) = [].
Proof.
  intros Hnone r. subst r. by_runs h. unfold_NewLightningNode. rewrite Hnone.
  repeat step h; simpl;
    (split; [intros node cfg' E; discriminate E |]);
    (split; [intros Hin; repeat (destruct Hin as [Hin | Hin]; try discriminate Hin);
             contradiction |]);
    reflexivity.
Qed.

End Connecting.

(** ** The artist of the node: [setArtistPubkey] and [startServer] *)

Section OwnArtist.

Import audiostrike.
Context {W : Type} (h : handler W).

Local Arguments String.append : simpl never.

(** [setArtistPubkey] never returns an error.  When it returns, the server
    gave its pubkey and the store took, without error, the one artist given
    to it: the artist passed in, with that pubkey.  A failure of the server
    or of the store ends the process with status 1; a nil server or a nil
    artist is a panic. *)
Theorem setArtistPubkey_result
    (cfg : Config) (austkServer : option AustkServer) (localStorage : FileServer)
    (artist : option art.Artist) (w : W) :
  let r := run h (austk.setArtistPubkey cfg austkServer localStorage artist) w in
  match result r with
  | Returned err =>
      err = None
      /\ failedStores (trace r) = []
      /\ exists a pubkey,
           artist = Some a
           /\ serverPubkeys (trace r) = [pubkey]
           /\ storedArtists (trace r)
              = [{| art.Artist.ArtistId := art.Artist.ArtistId a;
                    art.Artist.Name := art.Artist.Name a;
                    art.Artist.Pubkey := pubkey |}]
  | Exited code => code = 1%Z
  | Panicked _ => austkServer = None \/ artist = None
  end.
Proof.
  intros r. subst r. by_runs h. unfold austk.setArtistPubkey, server.Pubkey, deref.
  repeat step h; simpl; auto.
  repeat split. eexists. eexists. repeat split.
Qed.

(** [startServer] never returns an error either.  It starts the server only
    after the store gave the configured artist and took it back with the
    pubkey of the server; when it returns, its calls were, in order, the
    lookup, the pubkey, the store and the start.  An artist that is not in
    the store ends the process. *)
Theorem startServer_result
    (cfg : Config) (localStorage : FileServer) (austkServer : option AustkServer)
    (w : W) :
  let r := run h (austk.startServer cfg localStorage austkServer) w in
  (In "AustkServer.Start" (names (trace r)) ->
   failedStores (trace r) = []
   /\ exists a pubkey,
        foundArtists (trace r) = [(ArtistID cfg, a)]
        /\ serverPubkeys (trace r) = [pubkey]
        /\ storedArtists (trace r)
           = [{| art.Artist.ArtistId := art.Artist.ArtistId a;
                 art.Artist.Name := art.Artist.Name a;
                 art.Artist.Pubkey := pubkey |}])
  /\ match result r with
     | Returned err =>
         err = None
         /\ work (trace r) = ["ArtServer.Artist"; "AustkServer.Pubkey";
                              "StoreArtist"; "AustkServer.Start"]
     | Exited code => code = 1%Z
     | Panicked _ => True
     end.
Proof.
  intros r. subst r. by_runs h.
  unfold austk.startServer, austk.setArtistPubkey, server.Pubkey, server.Start, deref.
  repeat step h; simpl; (split; [| auto]);
    intros Hin; repeat (destruct Hin as [Hin | Hin]; try discriminate Hin);
    try contradiction.
  all: split; [reflexivity |]; eexists; eexists; repeat split.
Qed.

End OwnArtist.

(** ** Playing: [playTracks] *)

Section Playing.

Import audiostrike.
Context {W : Type} (h : handler W).

Local Arguments String.append : simpl never.

Lemma pathsAsked_app (a b : list event) :
  pathsAsked (a ++ b) = (pathsAsked a ++ pathsAsked b)%list.
Proof. apply flat_map_app. Qed.

Lemma played_app (a b : list event) :
  played (a ++ b) = (played a ++ played b)%list.
Proof. apply flat_map_app. Qed.

(** A loop over tracks each turn of which asks the path of its track and,
    when it returns, has played one file. *)
Lemma forRange_playing (body : art.Track -> prog unit) :
  (forall track w,
      runs h (body track) w
        (fun tr o _ =>
           pathsAsked tr = [track]
           /\ match o with
              | Returned _ => length (played tr) = 1%nat
              | Exited code => code = 1%Z /\ played tr = []
              | Panicked _ => played tr = []
              end)) ->
  forall tracks w,
    runs h (forRange tracks body) w
      (fun tr o _ =>
         (exists rest, tracks = (pathsAsked tr ++ rest)%list)
         /\ match o with
            | Returned _ =>
                pathsAsked tr = tracks /\ length (played tr) = length tracks
            | Exited code =>
                code = 1%Z /\ S (length (played tr)) = length (pathsAsked tr)
            | Panicked _ => S (length (played tr)) = length (pathsAsked tr)
            end).
Proof.
  intros Hbody tracks. induction tracks as [| track tracks IH]; intros w.
  - simpl. split; [exists []; reflexivity | auto].
  - simpl forRange. apply (proj2 (runs_bind h _ _ _ _)).
    eapply runs_weaken; [| apply Hbody].
    intros tr [[] | code | msg] w1 [Hasked Hplayed]; simpl.
    + eapply runs_weaken; [| apply IH].
      intros tr2 o2 w2 [[rest Hrest] Hresult].
      rewrite pathsAsked_app, played_app, !length_app, Hasked, Hplayed. simpl.
      split; [exists rest; rewrite Hrest at 1; reflexivity |].
      destruct o2 as [[] | code | msg].
      * destruct Hresult as [-> ->]. auto.
      * destruct Hresult as [-> ->]. auto.
      * rewrite Hresult. reflexivity.
    + rewrite Hasked. destruct Hplayed as [-> ->].
      split; [exists tracks; reflexivity | auto].
    + rewrite Hasked, Hplayed. split; [exists tracks; reflexivity | auto].
Qed.

(** [playTracks] takes the tracks in order and stops at the first one it
    cannot play.  The tracks whose path it asked are a prefix of the tracks
    given.  When it returns, the error is nil, every track was asked and as
    many files were played as there are tracks.  Otherwise the process
    ended (status 1) or panicked at the last track asked, which was not
    played, the tracks before it having been played. *)
Theorem playTracks_in_order
    (tracks : list art.Track) (fileServer : FileServer) (w : W) :
  let r := run h (austk.playTracks tracks fileServer) w in
  (exists rest, tracks = (pathsAsked (trace r) ++ rest)%list)
  /\ match result r with
     | Returned err =>
         err = None
         /\ pathsAsked (trace r) = tracks
         /\ length (played (trace r)) = length tracks
     | Exited code =>
         code = 1%Z /\ S (length (played (trace r))) = length (pathsAsked (trace r))
     | Panicked _ =>
         S (length (played (trace r))) = length (pathsAsked (trace r))
     end.
Proof.
  intros r. subst r. by_runs h.
  unfold austk.playTracks. apply (proj2 (runs_bind h _ _ _ _)).
  eapply runs_weaken; [| apply forRange_playing].
  - intros tr [[] | code | msg] w1; simpl; rewrite ?app_nil_r; tauto.
  - intros track w1. unfold deref. repeat step h; simpl; auto.
Qed.

End Playing.

(** ** More on [storeMp3File] *)

Section IngestMore.

Import audiostrike.
Variable NameToID : string -> string.
Variable TitleToHierarchy : string -> string.
Context {W : Type} (h : handler W).

Local Arguments filepath.Join : simpl never.
Local Arguments String.append : simpl never.

Ltac unfold_storeMp3File :=
  unfold austk.storeMp3File, austk.setArtistPubkey, server.Sign, server.Pubkey,
    deref.

(** [storeMp3File] gives an artist to the store only when the store did not
    give one for the id of the artist of the file, and then only once: the
    artist with that id and the name of the tags.  When the id is the
    configured artist id, the pubkey of that artist is the pubkey the
    server gave; otherwise the server is not asked and the pubkey is
    empty. *)
Theorem storeMp3File_stores_unknown_artist
    (cfg : Config) (filename : string) (localStorage : FileServer)
    (austkServer : option AustkServer) (w : W) :
  let r := run h (austk.storeMp3File NameToID TitleToHierarchy cfg filename
                    localStorage austkServer) w in
  match storedArtists (trace r) with
  | [] => True
  | [artist] =>
      foundArtists (trace r) = []
      /\ (exists mp3,
            fst (fst (h (OpenMp3ToRead filename) w)) = Some mp3
            /\ art.Artist.ArtistId artist = NameToID (mp3_ArtistName mp3)
            /\ art.Artist.Name artist = mp3_ArtistName mp3)
      /\ if String.eqb (art.Artist.ArtistId artist) (ArtistID cfg)
         then serverPubkeys (trace r) = [art.Artist.Pubkey artist]
         else serverPubkeys (trace r) = [] /\ art.Artist.Pubkey artist = ""
  | _ => False
  end.
Proof.
  intros r. subst r. by_runs h. unfold_storeMp3File. simpl.
  destruct (h (OpenMp3ToRead filename) w) as [[opened err] w0]. simpl.
  repeat step h; simpl; auto; try discriminate;
    (split; [reflexivity |]); (split; [eexists; repeat split |]);
    try match goal with
        | H : String.eqb _ _ = _ |- _ => rewrite H
        end; auto.
Qed.

(** [storeMp3File] returns the mp3 exactly when it returns a nil error, and
    ends the process only with status 1.  When it returns an error after a
    publication was given to the store, the error is one the store gave. *)
Theorem storeMp3File_result
    (cfg : Config) (filename : string) (localStorage : FileServer)
    (austkServer : option AustkServer) (w : W) :
  let r := run h (austk.storeMp3File NameToID TitleToHierarchy cfg filename
                    localStorage austkServer) w in
  match result r with
  | Returned (Some mp3, None) => fst (fst (h (OpenMp3ToRead filename) w)) = Some mp3
  | Returned (None, Some err) =>
      storedPublications (trace r) <> [] -> In err (failedStores (trace r))
  | Returned _ => False
  | Exited code => code = 1%Z
  | Panicked _ => True
  end.
Proof.
  intros r. subst r. by_runs h. unfold_storeMp3File. simpl.
  destruct (h (OpenMp3ToRead filename) w) as [[opened err] w0]. simpl.
  repeat step h; simpl; auto; try discriminate; try (intros H; now elim H).
  all: intros _; simpl; auto 10.
Qed.

(** What a successful [storeMp3File] did, from the track on: it gave one
    track to the store, read the bytes of the file and gave them to the
    store as the payload of that track, collected the resources of the
    store, had the server sign them and gave the publication that came
    back to the store; these six calls are its last, in this order. *)
Theorem storeMp3File_success
    (cfg : Config) (filename : string) (localStorage : FileServer)
    (austkServer : option AustkServer) (w : W) (mp3 : Mp3) :
  let r := run h (austk.storeMp3File NameToID TitleToHierarchy cfg filename
                    localStorage austkServer) w in
  result r = Returned (Some mp3, None) ->
  exists track payload resources publication before,
    storedTracks (trace r) = [track]
    /\ readPayloads (trace r) = [payload]
    /\ storedPayloads (trace r) = [(track, payload)]
    /\ collectedResources (trace r) = [resources]
    /\ serverSigned (trace r) = [(resources, publication)]
    /\ storedPublications (trace r) = [publication]
    /\ work (trace r)
       = (before ++ ["StoreTrack"; "ReadBytes"; "StoreTrackPayload";
                     "CollectResources"; "AustkServer.Sign"; "StorePublication"])%list.
Proof.
  intros r. subst r. by_runs h. unfold_storeMp3File. simpl.
  destruct (h (OpenMp3ToRead filename) w) as [[opened err] w0]. simpl.
  repeat step h; simpl; intros E; try discriminate E.
  all: do 4 eexists.
  all: match goal with
       | |- exists before, _ /\ _ /\ _ /\ _ /\ _ /\ _ /\ ?l = _ =>
           let n := eval cbv in (length l - 6)%nat in
           exists (firstn n l)
       end.
  all: repeat split.
Qed.

End IngestMore.

(** ** The configured peer: the address pattern and [main], lines 109-127 *)

Section PeerAddress.

Import audiostrike.

Lemma span_spec (class : ascii -> bool) (s a b : string) :
  austk.span class s = (a, b) ->
  s = a ++ b
  /\ allChars class a = true
  /\ match b with
     | String c _ => class c = false
     | EmptyString => True
     end.
Proof.
  revert a b. induction s as [| c s IH]; simpl; intros a b E.
  - injection E as <- <-. auto.
  - destruct (class c) eqn:Hc.
    + destruct (austk.span class s) as [run tail]. injection E as <- <-.
      destruct (IH run tail eq_refl) as (-> & Hall & Hnext).
      simpl. rewrite Hc, Hall. auto.
    + injection E as <- <-. simpl. auto.
Qed.

Lemma span_app (class : ascii -> bool) (a b : string) :
  allChars class a = true ->
  match b with
  | String c _ => class c = false
  | EmptyString => True
  end ->
  austk.span class (a ++ b) = (a, b).
Proof.
  intros Hall Hnext. induction a as [| c a IH]; simpl.
  - destruct b as [| c b]; simpl; [reflexivity |]. rewrite Hnext. reflexivity.
  - simpl in Hall. apply andb_prop in Hall. destruct Hall as [Hc Hall].
    rewrite Hc, (IH Hall). reflexivity.
Qed.

Lemma append_empty (s : string) : s ++ "" = s.
Proof. induction s as [| c s IH]; simpl; [reflexivity | f_equal; exact IH]. Qed.

(** What the peer address pattern matches, and its groups. *)
Lemma FindStringSubmatch_spec (s pubkey host port : string) :
  austk.FindStringSubmatch s = Some (pubkey, host, port)
  <-> wellFormedPeer pubkey host port = true
      /\ s = pubkey ++ "@" ++ host ++ ":" ++ port.
Proof.
  unfold austk.FindStringSubmatch, wellFormedPeer. split.
  - destruct (austk.span austk.isLowerHex s) as [pk rest] eqn:Epk.
    apply span_spec in Epk. destruct Epk as (-> & Hpk & _).
    destruct pk as [| c pk]; [discriminate |].
    destruct rest as [| c1 rest]; [discriminate |].
    destruct (Ascii.eqb c1 "@") eqn:Hat;
      [apply Ascii.eqb_eq in Hat; subst c1
      | destruct c1 as [[] [] [] [] [] [] [] []]; try discriminate Hat; discriminate].
    destruct (austk.span austk.isHostChar rest) as [hst rest2] eqn:Ehost.
    apply span_spec in Ehost. destruct Ehost as (-> & Hhost & _).
    destruct hst as [| c2 hst]; [discriminate |].
    destruct rest2 as [| c3 rest2]; [discriminate |].
    destruct (Ascii.eqb c3 ":") eqn:Hcolon;
      [apply Ascii.eqb_eq in Hcolon; subst c3
      | destruct c3 as [[] [] [] [] [] [] [] []]; try discriminate Hcolon; discriminate].
    destruct (austk.span austk.isDigit rest2) as [prt rest3] eqn:Eport.
    apply span_spec in Eport. destruct Eport as (-> & Hport & _).
    destruct prt as [| c4 prt]; [discriminate |].
    destruct rest3; [| discriminate].
    intros E. injection E as <- <- <-.
    rewrite Hpk, Hhost, Hport. split; [reflexivity |].
    simpl. rewrite append_empty. reflexivity.
  - intros [Hwf ->].
    repeat (apply andb_prop in Hwf; destruct Hwf as [Hwf ?]).
    change (pubkey ++ "@" ++ host ++ ":" ++ port)
      with (pubkey ++ String "@" (host ++ String ":" port)).
    rewrite (span_app austk.isLowerHex pubkey (String "@" (host ++ String ":" port)))
      by (auto; reflexivity).
    destruct pubkey as [| c pubkey]; [discriminate |].
    rewrite (span_app austk.isHostChar host (String ":" port)) by (auto; reflexivity).
    destruct host as [| c2 host]; [discriminate |].
    rewrite <- (append_empty port) at 1.
    rewrite (span_app austk.isDigit port "") by auto.
    destruct port; [discriminate | reflexivity].
Qed.

(** The peer address pattern matches exactly the strings [pubkey@host:port]
    with a non-empty lower-case hexadecimal pubkey, a non-empty host of
    lower-case letters, digits and dots, and a non-empty decimal port, and
    its three groups are these three parts. *)
Theorem FindStringSubmatch_iff (s pubkey host port : string) :
  austk.FindStringSubmatch s = Some (pubkey, host, port)
  <-> wellFormedPeer pubkey host port = true
      /\ s = pubkey ++ "@" ++ host ++ ":" ++ port.
Proof. apply FindStringSubmatch_spec. Qed.

Lemma string_of_uint_digits (d : Decimal.uint) :
  allChars austk.isDigit (NilEmpty.string_of_uint d) = true.
Proof. induction d; simpl; auto. Qed.

Lemma decimal_digits (n : N) :
  allChars austk.isDigit (fmt.decimal n) = true /\ fmt.decimal n <> "".
Proof.
  unfold fmt.decimal. split; [apply string_of_uint_digits |].
  destruct n as [| p]; [discriminate |]. simpl.
  pose proof (DecimalPos.Unsigned.to_uint_nonnil p) as Hnonnil.
  destruct (Pos.to_uint p); simpl; try discriminate. now elim Hnonnil.
Qed.

(** A port number prints to decimal digits that parse back to it: the port
    of a peer written by [%d] at line 139 is read back by line 117. *)
Lemma ParseUint_decimal (n : N) :
  (n <= 4294967295)%N -> strconv.ParseUint_10_32 (fmt.decimal n) = inl n.
Proof.
  intros Hn. unfold strconv.ParseUint_10_32, fmt.decimal.
  rewrite NilEmpty.usu, DecimalN.Unsigned.of_to.
  apply N.leb_le in Hn. rewrite Hn. reflexivity.
Qed.

Lemma ParseUint_bound (s : string) (n : N) :
  strconv.ParseUint_10_32 s = inl n -> (n <= 4294967295)%N.
Proof.
  unfold strconv.ParseUint_10_32.
  destruct (NilEmpty.uint_of_string s) as [u |]; [| discriminate].
  destruct (N.of_uint u <=? 4294967295)%N eqn:Hle; [| discriminate].
  intros E. injection E as <-. now apply N.leb_le.
Qed.

Context {W : Type} (h : handler W).

Local Arguments String.append : simpl never.
Local Arguments austk.FindStringSubmatch : simpl never.
Local Arguments strconv.ParseUint_10_32 : simpl never.

(** What [main] stores of the configured peer address.  It gives at most
    one peer to the store: the one whose pubkey, host and port are the three
    groups of the address, the port read as a decimal number below 2^32.
    With an address, [main] goes on only when the store took that peer: an
    address that does not match the pattern, a port of 2^32 or more and a
    failure of the store all end the process with status 1. *)
Theorem main_peer_stores_parsed
    (cfg : Config) (localStorage : FileServer) (austkServer : option AustkServer)
    (w : W) :
  let r := run h (austk.main_peer cfg localStorage austkServer) w in
  match storedPeers (trace r) with
  | [] => result r = Returned tt -> PeerAddress cfg = ""
  | [peer] =>
      exists port,
        PeerAddress cfg
        = art.Peer.Pubkey peer ++ "@" ++ art.Peer.Host peer ++ ":" ++ port
        /\ wellFormedPeer (art.Peer.Pubkey peer) (art.Peer.Host peer) port = true
        /\ strconv.ParseUint_10_32 port = inl (art.Peer.Port peer)
        /\ (art.Peer.Port peer <= 4294967295)%N
  | _ => False
  end
  /\ match result r with
     | Returned _ => failedStores (trace r) = []
     | Exited code => code = 1%Z
     | Panicked _ => False
     end.
Proof.
  intros r. subst r. by_runs h. unfold austk.main_peer.
  destruct (String.eqb (PeerAddress cfg) "") eqn:Hempty; simpl.
  { apply String.eqb_eq in Hempty. auto. }
  destruct (austk.FindStringSubmatch (PeerAddress cfg))
    as [[[pubkey host] port] |] eqn:Hmatch.
  2: { repeat step h; simpl. split; [discriminate | reflexivity]. }
  apply FindStringSubmatch_spec in Hmatch. destruct Hmatch as [Hwf Haddress].
  destruct (strconv.ParseUint_10_32 port) as [n | failure] eqn:Hport.
  2: { repeat step h; simpl. split; [discriminate | reflexivity]. }
  pose proof (ParseUint_bound _ Hport) as Hbound.
  repeat step h; simpl; (split; [| reflexivity]); exists port; auto.
Qed.

(** The other way round: a well-formed pubkey and host and a port below
    2^32, written [pubkey@host:port] with the port in decimal, make [main]
    give exactly that peer to the store, as its only call beside log lines;
    and the address at which the sync loop will ask a client for that peer
    is the [host:port] of the configured address. *)
Theorem main_peer_roundtrip
    (cfg : Config) (localStorage : FileServer) (austkServer : option AustkServer)
    (w : W) (pubkey host : string) (port : N) :
  pubkey <> "" -> allChars austk.isLowerHex pubkey = true ->
  host <> "" -> allChars austk.isHostChar host = true ->
  (port <= 4294967295)%N ->
  PeerAddress cfg = pubkey ++ "@" ++ host ++ ":" ++ fmt.decimal port ->
  let r := run h (austk.main_peer cfg localStorage austkServer) w in
  let peer := {| art.Peer.Pubkey := pubkey; art.Peer.Host := host;
                 art.Peer.Port := port |} in
  storedPeers (trace r) = [peer]
  /\ work (trace r) = ["StorePeer"]
  /\ PeerAddress cfg = pubkey ++ "@" ++ peerAddress peer
  /\ (failedStores (trace r) = [] <-> result r = Returned tt).
Proof.
  intros Hpk Hhex Hhost Hchars Hport Haddress r peer. subst r peer.
  assert (Hwf : wellFormedPeer pubkey host (fmt.decimal port) = true).
  { unfold wellFormedPeer. destruct (decimal_digits port) as [Hdigits Hsome].
    apply String.eqb_neq in Hpk, Hhost, Hsome.
    rewrite Hpk, Hhex, Hhost, Hchars, Hsome, Hdigits. reflexivity. }
  split; [| split; [| split; [exact Haddress |]]]; by_runs h.
  all: unfold austk.main_peer.
  all: assert (Hne : String.eqb (PeerAddress cfg) "" = false)
    by (rewrite Haddress; unfold wellFormedPeer in Hwf;
        destruct pubkey; [discriminate Hwf | reflexivity]).
  all: rewrite Hne; simpl.
  all: rewrite (proj2 (FindStringSubmatch_spec _ _ _ _) (conj Hwf Haddress)).
  all: rewrite (ParseUint_decimal Hport).
  all: repeat step h; simpl; try reflexivity.
  all: split; intros E; try reflexivity; discriminate E.
Qed.

End PeerAddress.

(** ** More on the sync run *)

Section SyncMore.

Import audiostrike.
Context {W : Type} (h : handler W).

Local Arguments String.append : simpl never.
Local Arguments austk.playTracks : simpl never.

Lemma work_app (a b : list event) : work (a ++ b) = (work a ++ work b)%list.
Proof. unfold work, names. rewrite map_app, filter_app. reflexivity. Qed.

Lemma clientsMade_app (a b : list event) :
  clientsMade (a ++ b) = (clientsMade a ++ clientsMade b)%list.
Proof. apply flat_map_app. Qed.

Lemma clientsClosed_app (a b : list event) :
  clientsClosed (a ++ b) = (clientsClosed a ++ clientsClosed b)%list.
Proof. apply flat_map_app. Qed.

(** Playing tracks touches no connection, and its calls are those of the
    files. *)
Lemma playTracks_calls (tracks : list art.Track) (fileServer : FileServer) (w : W) :
  runs h (austk.playTracks tracks fileServer) w
    (fun tr _ _ =>
       (clientsMade tr = [] /\ clientsClosed tr = [])
       /\ incl (work tr) ["TrackFilePath"; "OpenMp3ToRead"; "PlayAndWait"]).
Proof.
  unfold austk.playTracks. apply (proj2 (runs_bind h _ _ _ _)).
  eapply runs_weaken;
    [| apply (runs_forRange h _
                (fun tr => (clientsMade tr = [] /\ clientsClosed tr = [])
                           /\ incl (work tr) ["TrackFilePath"; "OpenMp3ToRead";
                                              "PlayAndWait"]))].
  - intros tr [[] | code | msg] w1 Htr; simpl; rewrite ?app_nil_r; exact Htr.
  - repeat split. intros x [].
  - intros a b [[Ha1 Ha2] Ha3] [[Hb1 Hb2] Hb3].
    rewrite clientsMade_app, clientsClosed_app, work_app, Ha1, Ha2, Hb1, Hb2.
    repeat split. now apply incl_app.
  - intros track w1. unfold deref.
    repeat step h; simpl; (split; [split; reflexivity |]);
      intros x Hx; simpl in *; repeat (destruct Hx as [Hx | Hx]; auto);
      contradiction.
Qed.

(** One turn of the sync loop closes the connection it made before it
    returns to the loop, and makes at most one; when it does not return,
    it closed nothing. *)
Lemma syncPeer_closes (cfg : Config) (localStorage : FileServer)
    (austkServer : option AustkServer) (peer : art.Peer) (w : W) :
  runs h (austk.syncPeer cfg localStorage austkServer peer) w
    (fun tr o _ =>
       (length (clientsMade tr) <= 1)%nat
       /\ match o with
          | Returned _ => clientsClosed tr = clientsMade tr
          | _ => clientsClosed tr = []
          end).
Proof.
  unfold austk.syncPeer.
  unfold client.SyncFromPeer, client.CloseConnection, client.DownloadTracks, deref.
  repeat step h; simpl; auto with arith.
  all: repeat lazymatch goal with
       | |- runs _ (bind (austk.playTracks _ _) _) _ _ => fail
       | |- runs _ (bind _ _) _ _ => apply (proj2 (runs_bind h _ _ _ _))
       end.
  all: apply (proj2 (runs_bind h _ _ _ _)).
  all: eapply runs_weaken; [| apply playTracks_calls].
  all: intros tr o w' [[Hmade Hclosed] _].
  all: unfold clientsMade, clientsClosed in *.
  all: destruct o; repeat step h; rewrite ?flat_map_app, ?Hmade, ?Hclosed; simpl;
    auto with arith.
Qed.

(** The sync run closes the connections it makes: at any end of the run the
    clients closed are the clients made, in order, but for at most one,
    the last, which is still open when the process ended or panicked in
    its turn; when the run returns, none is open. *)
Theorem main_sync_closes_connections
    (cfg : Config) (localStorage : FileServer) (austkServer : option AustkServer)
    (w : W) :
  let r := run h (austk.main_sync cfg localStorage austkServer) w in
  exists open,
    clientsMade (trace r) = (clientsClosed (trace r) ++ open)%list
    /\ (length open <= 1)%nat
    /\ (result r = Returned tt -> open = []).
Proof.
  intros r. subst r. by_runs h. unfold austk.main_sync.
  assert (Hloop : forall peers w1,
             runs h (forRange peers (austk.syncPeer cfg localStorage austkServer)) w1
               (fun tr o _ =>
                  exists open,
                    clientsMade tr = (clientsClosed tr ++ open)%list
                    /\ (length open <= 1)%nat
                    /\ (o = Returned tt -> open = []))).
  { induction peers as [| peer peers IH]; intros w1.
    - simpl. exists []. auto.
    - simpl forRange. apply (proj2 (runs_bind h _ _ _ _)).
      eapply runs_weaken; [| apply syncPeer_closes].
      intros tr [[] | code | msg] w2 [Hone Hclosed]; simpl.
      + eapply runs_weaken; [| apply IH].
        intros tr2 o2 w3 (open & Hopen & Hlen & Hdone). exists open.
        rewrite clientsMade_app, clientsClosed_app, Hclosed, Hopen, app_assoc.
        auto.
      + exists (clientsMade tr). rewrite Hclosed. repeat split; auto. discriminate.
      + exists (clientsMade tr). rewrite Hclosed. repeat split; auto. discriminate. }
  simpl. destruct (h (Peers localStorage) w) as [[peers err] w1]. simpl.
  destruct err as [err |]; simpl.
  - destruct (h (log_Printf _) w1) as [u w2]. simpl.
    eapply runs_weaken; [| apply Hloop]. simpl. auto.
  - eapply runs_weaken; [| apply Hloop]. simpl. auto.
Qed.

(** Without the play flag the sync run downloads no track and opens no
    file: beside log lines it only lists the peers, makes clients, syncs
    and closes. *)
Theorem main_sync_without_play
    (cfg : Config) (localStorage : FileServer) (austkServer : option AustkServer)
    (w : W) :
  PlayMp3 cfg = false ->
  let r := run h (austk.main_sync cfg localStorage austkServer) w in
  incl (work (trace r))
       ["Peers"; "NewClient"; "Client.SyncFromPeer"; "Client.CloseConnection"].
Proof.
  intros Hplay r. subst r. by_runs h. unfold austk.main_sync.
  set (allowed := ["Peers"; "NewClient"; "Client.SyncFromPeer";
                   "Client.CloseConnection"]).
  assert (Hloop : forall peers w1,
             runs h (forRange peers (austk.syncPeer cfg localStorage austkServer)) w1
               (fun tr _ _ => incl (work tr) allowed)).
  { apply (runs_forRange h _ (fun tr => incl (work tr) allowed)).
    - intros x [].
    - intros a b Ha Hb. rewrite work_app. now apply incl_app.
    - intros peer w1. unfold austk.syncPeer. rewrite Hplay.
      unfold client.SyncFromPeer, client.CloseConnection, deref.
      repeat step h; simpl; intros x Hx; simpl in *;
        repeat (destruct Hx as [Hx | Hx]; auto 10); contradiction. }
  simpl. destruct (h (Peers localStorage) w) as [[peers err] w1]. simpl.
  assert (Hcons : forall tr, incl (work tr) allowed ->
                        incl ("Peers" :: work tr) allowed).
  { intros tr Htr x [<- | Hx]; [simpl; auto | auto]. }
  destruct err as [err |]; simpl.
  - destruct (h (log_Printf _) w1) as [u w2]. simpl.
    eapply runs_weaken; [| apply Hloop]. simpl. intros tr _ _ Htr. now apply Hcons.
  - eapply runs_weaken; [| apply Hloop]. simpl. intros tr _ _ Htr. now apply Hcons.
Qed.

(** A sync that returns neither resources nor an error, as a validation
    that fails on the identity of the signer and returns its nil error
    would give: in play mode the tracks are read through the nil resources
    at line 156 and the process panics with the connection open; without
    the play flag the turn ends in order, the connection closed. *)
Theorem syncPeer_nil_resources (cfg : Config) (localStorage : FileServer)
    (austkServer : option AustkServer) (peer : art.Peer) (w : W) (c : Client) :
  let announce := log_Printf (austk.logPrefix ++ "sync from peer %v") in
  let w1 := snd (h announce w) in
  let connect := NewClient (TorProxy cfg) (peerAddress peer) austkServer in
  let w2 := snd (h connect w1) in
  austk.isSelf cfg peer = false ->
  fst (h connect w1) = (Some c, None) ->
  fst (h (Client_SyncFromPeer c localStorage) w2) = (None, None) ->
  let r := run h (austk.syncPeer cfg localStorage austkServer peer) w in
  if PlayMp3 cfg
  then result r = Panicked nil_dereference /\ clientsClosed (trace r) = []
  else result r = Returned tt /\ clientsClosed (trace r) = [c].
Proof.
  intros announce w1 connect w2 Hself Hconnect Hsync. simpl.
  unfold austk.syncPeer. rewrite Hself.
  unfold client.SyncFromPeer, client.CloseConnection, Fatalf, Printf, call, deref.
  simpl bind.
  rewrite run_Vis. fold announce. fold w1.
  rewrite run_Vis. unfold peerAddress in connect. fold connect. fold w2.
  rewrite Hconnect. simpl not_nil. cbv iota. simpl bind.
  rewrite run_Vis, Hsync. simpl not_nil. cbv iota.
  destruct (PlayMp3 cfg); simpl bind.
  - simpl. split; reflexivity.
  - rewrite !run_Vis. simpl.
    destruct (fst (h (Client_CloseConnection c) _)). split; reflexivity.
Qed.

End SyncMore.

(** ** [main]: the daemon and the deferred [Stop] *)

Section Daemon.

Import audiostrike.
Variable NameToID : string -> string.
Variable TitleToHierarchy : string -> string.
Context {W : Type} (h : handler W).

Local Arguments String.append : simpl never.
Local Arguments filepath.Join : simpl never.
Local Arguments fmt.Sprintf_host_int : simpl never.
Local Arguments fmt.Sprintf_host_port : simpl never.
Local Arguments austk.FindStringSubmatch : simpl never.
Local Arguments strconv.ParseUint_10_32 : simpl never.
Local Arguments notStop : simpl never.
Local Arguments notServerLife : simpl never.

Lemma within_weaken {A : Type} (allowed : string -> bool) (ret ret' : A -> Prop)
    (p : prog A) :
  (forall a, ret a -> ret' a) -> within allowed ret p -> within allowed ret' p.
Proof.
  intros Himp. induction p as [a | X c k IH | code | msg]; simpl; auto.
  intros [Hc Hk]. split; [exact Hc |]. intros x. apply IH, Hk.
Qed.

Lemma within_bind {A B : Type} (allowed : string -> bool) (ret : B -> Prop)
    (p : prog A) (f : A -> prog B) :
  within allowed (fun a => within allowed ret (f a)) p ->
  within allowed ret (bind p f).
Proof.
  induction p as [a | X c k IH | code | msg]; simpl; auto.
  intros [Hc Hk]. split; [exact Hc |]. intros x. apply IH, Hk.
Qed.

Lemma within_forRange {T : Type} (allowed : string -> bool)
    (body : T -> prog unit) (xs : list T) :
  (forall x, within allowed (fun _ => True) (body x)) ->
  within allowed (fun _ => True) (forRange xs body).
Proof.
  intros Hbody. induction xs as [| x xs IH]; simpl; [exact I |].
  apply within_bind. eapply within_weaken; [| apply Hbody]. intros _ _. exact IH.
Qed.

(** What [within] says of a run. *)
Lemma within_runs {A : Type} (allowed : string -> bool) (ret : A -> Prop)
    (p : prog A) (w : W) :
  within allowed ret p ->
  runs h p w (fun tr o _ =>
                forallb allowed (names tr) = true
                /\ match o with
                   | Returned a => ret a
                   | Exited code => code = 1%Z
                   | Panicked _ => True
                   end).
Proof.
  revert w. induction p as [a | X c k IH | code | msg]; simpl; intros w Hp; auto.
  destruct Hp as [Hc Hk]. destruct (h c w) as [x w1].
  eapply runs_weaken; [| apply IH, Hk]. simpl. intros tr o _ [Htr Ho].
  rewrite Hc, Htr. auto.
Qed.

(** A condition on runs that calls within [allowed] in front keep, holds
    of a program when it holds of what follows such calls. *)
Lemma runs_after {A B : Type} (allowed : string -> bool) (ret : A -> Prop)
    (p : prog A) (f : A -> prog B) (w : W)
    (post : list event -> outcome B -> W -> Prop) :
  (forall tr1 tr2 o w1,
      forallb allowed (names tr1) = true -> post tr2 o w1 ->
      post (tr1 ++ tr2)%list o w1) ->
  (forall w1, post [] (Exited 1%Z) w1) ->
  (forall msg w1, post [] (Panicked msg) w1) ->
  within allowed ret p ->
  (forall a w1, ret a -> runs h (f a) w1 post) ->
  runs h (bind p f) w post.
Proof.
  intros Hfront Hexit Hpanic Hp Hf. apply (proj2 (runs_bind h _ _ _ _)).
  eapply runs_weaken; [| apply within_runs, Hp].
  intros tr [a | code | msg] w1 [Htr Ho].
  - eapply runs_weaken; [| apply Hf, Ho]. intros tr2 o w2. now apply Hfront.
  - subst code. rewrite <- (app_nil_r tr). now apply Hfront.
  - rewrite <- (app_nil_r tr). now apply Hfront.
Qed.

(** A deferred call runs after the function returned or panicked, in the
    world it left, and not after an exit. *)
Lemma runs_defer {A : Type} (d : prog unit) (p : prog A) (w : W)
    (post : list event -> outcome A -> W -> Prop) :
  runs h (defer d p) w post <->
  runs h p w (fun tr o w1 =>
                match o with
                | Returned a =>
                    runs h (bind d (fun _ => Ret a)) w1
                      (fun tr2 => post (tr ++ tr2)%list)
                | Exited code => post tr (Exited code) w1
                | Panicked msg =>
                    runs h (bind d (fun _ => Panic msg)) w1
                      (fun tr2 => post (tr ++ tr2)%list)
                end).
Proof.
  revert w post. induction p as [a | X c k IH | code | msg]; intros w post;
    simpl; try reflexivity.
  destruct (h c w) as [x w1]. rewrite IH. reflexivity.
Qed.

Lemma within_allowed {A : Type} (allowed allowed' : string -> bool)
    (ret : A -> Prop) (p : prog A) :
  (forall name, allowed name = true -> allowed' name = true) ->
  within allowed ret p -> within allowed' ret p.
Proof.
  intros Himp. induction p as [a | X c k IH | code | msg]; simpl; auto.
  intros [Hc Hk]. split; [apply Himp, Hc |]. intros x. apply IH, Hk.
Qed.

Lemma names_app (a b : list event) : names (a ++ b) = (names a ++ names b)%list.
Proof. apply map_app. Qed.

Lemma notStop_spec (l : list string) :
  forallb notStop l = true -> ~ In "AustkServer.Stop" l.
Proof.
  intros Hall Hin. rewrite forallb_forall in Hall. apply Hall in Hin.
  discriminate Hin.
Qed.

Lemma notServerLife_spec (l : list string) :
  forallb notServerLife l = true ->
  forall name, In name serverLife -> ~ In name l.
Proof.
  intros Hall name Hlife Hin. rewrite forallb_forall in Hall. apply Hall in Hin.
  unfold notServerLife in Hin. apply negb_true_iff in Hin.
  assert (Hex : existsb (String.eqb name) serverLife = true).
  { apply existsb_exists. exists name. split; [exact Hlife | apply String.eqb_refl]. }
  congruence.
Qed.

Lemma notServerLife_notStop (name : string) :
  notServerLife name = true -> notStop name = true.
Proof.
  unfold notServerLife, notStop, serverLife. simpl.
  destruct (String.eqb name "AustkServer.Stop"); [| reflexivity].
  rewrite orb_true_r. discriminate.
Qed.

Ltac within_step :=
  lazymatch goal with
  | |- within _ _ (bind (forRange _ _) _) =>
      apply within_bind;
      eapply within_weaken; [| apply within_forRange]; [intros _ _ | intros]
  | |- within _ _ (forRange _ _) =>
      eapply within_weaken; [| apply within_forRange]; [intros _ _; exact I | intros]
  | |- within _ _ (match ?x with _ => _ end) => destruct x eqn:?
  | |- within _ _ (Vis _ _) => split; [reflexivity | intros]
  | |- within _ _ (Ret _) => simpl
  | |- within _ _ (Exit _) => reflexivity
  | |- within _ _ (Panic _) => exact I
  | |- within _ _ (bind _ _) => first [progress simpl | apply within_bind]
  | |- True => exact I
  | |- _ = _ => reflexivity
  | |- _ /\ _ => split
  | |- forall _, _ => intros
  | |- _ => progress simpl
  end.

Ltac unfold_main :=
  unfold austk.main_rest, austk.main_peer, austk.main_sync, austk.syncPeer,
    austk.main_add, austk.main_publisher, austk.startServer,
    austk.storeMp3File, austk.setArtistPubkey, austk.playTracks,
    lightningNode.NewLightningNode, lightningNode.tlsCertPath,
    lightningNode.macaroonFromFile, lightningNode.macaroonPath,
    lightningNode.pubkey,
    server.Artist, server.Pubkey, server.Sign, server.Start,
    server.WaitUntilQuitSignal,
    client.SyncFromPeer, client.DownloadTracks, client.CloseConnection,
    Fatalf, Printf, call, deref.

(** [NewLightningNode] leaves the daemon flag of the configuration as it
    was, and calls nothing of the server. *)
Lemma NewLightningNode_within (cfg : Config) (localStorage : FileServer) :
  within notServerLife
    (fun '(_, _, cfg') => RunAsDaemon cfg' = RunAsDaemon cfg)
    (lightningNode.NewLightningNode cfg localStorage).
Proof.
  unfold_main. repeat within_step; try reflexivity.
  all: destruct cfg; reflexivity.
Qed.

(** The publisher, the mp3 to add, the configured peer and the sync run
    neither start the server, nor stop it, nor wait for it. *)
Lemma main_publisher_within (cfg : Config) (localStorage : FileServer)
    (lightning : option LightningNode) :
  within notServerLife (fun _ => True)
    (austk.main_publisher cfg localStorage lightning).
Proof. unfold_main. repeat within_step. Qed.

Lemma main_add_within (cfg : Config) (localStorage : FileServer)
    (austkServer : option AustkServer) :
  within notServerLife (fun _ => True)
    (austk.main_add NameToID TitleToHierarchy cfg localStorage austkServer).
Proof. unfold_main. repeat within_step. Qed.

Lemma main_peer_within (cfg : Config) (localStorage : FileServer)
    (austkServer : option AustkServer) :
  within notServerLife (fun _ => True)
    (austk.main_peer cfg localStorage austkServer).
Proof. unfold_main. repeat within_step. Qed.

Lemma main_sync_within (cfg : Config) (localStorage : FileServer)
    (austkServer : option AustkServer) :
  within notServerLife (fun _ => True)
    (austk.main_sync cfg localStorage austkServer).
Proof. unfold_main. repeat within_step. Qed.

(** [startServer] starts the server and does not stop it. *)
Lemma startServer_within (cfg : Config) (localStorage : FileServer)
    (austkServer : option AustkServer) :
  within notStop (fun _ => True)
    (austk.startServer cfg localStorage austkServer).
Proof. unfold_main. repeat within_step. Qed.

(** What follows the start of the server, lines 103-173: it ends with the
    wait for the quit signal when it returns, and does not stop the
    server. *)
Lemma main_rest_waits (cfg : Config) (localStorage : FileServer)
    (austkServer : AustkServer) (w : W) :
  RunAsDaemon cfg = true ->
  runs h (austk.main_rest cfg localStorage (Some austkServer)) w
    (fun tr o _ =>
       forallb notStop (names tr) = true
       /\ match o with
          | Returned _ =>
              exists before,
                names tr = (before ++ ["AustkServer.WaitUntilQuitSignal"])%list
          | Exited code => code = 1%Z
          | Panicked _ => True
          end).
Proof.
  intros Hdaemon. unfold austk.main_rest. rewrite Hdaemon.
  assert (Hfront : forall tr1 tr2 (o : outcome unit) (w1 : W),
             forallb notStop (names tr1) = true ->
             forallb notStop (names tr2) = true
             /\ match o with
                | Returned _ =>
                    exists before,
                      names tr2 = (before ++ ["AustkServer.WaitUntilQuitSignal"])%list
                | Exited code => code = 1%Z
                | Panicked _ => True
                end ->
             forallb notStop (names (tr1 ++ tr2)) = true
             /\ match o with
                | Returned _ =>
                    exists before,
                      names (tr1 ++ tr2)
                      = (before ++ ["AustkServer.WaitUntilQuitSignal"])%list
                | Exited code => code = 1%Z
                | Panicked _ => True
                end).
  { intros tr1 tr2 o w1 H1 [H2 Ho]. rewrite names_app, forallb_app, H1, H2.
    split; [reflexivity |]. destruct o as [a | code | msg]; auto.
    destruct Ho as [before Ho]. exists (names tr1 ++ before)%list.
    rewrite Ho, app_assoc. reflexivity. }
  apply runs_after with (allowed := notStop) (ret := fun _ => True); auto.
  { eapply within_allowed; [apply notServerLife_notStop | apply main_peer_within]. }
  intros _ w1 _.
  apply runs_after with (allowed := notStop) (ret := fun _ => True); auto.
  { eapply within_allowed; [apply notServerLife_notStop | apply main_sync_within]. }
  intros _ w2 _. simpl.
  destruct (h (Server_WaitUntilQuitSignal austkServer) w2) as [[] w3]. simpl.
  split; [reflexivity |]. exists []. reflexivity.
Qed.

Local Arguments lightningNode.NewLightningNode : simpl never.
Local Arguments austk.main_publisher : simpl never.
Local Arguments austk.main_add : simpl never.
Local Arguments austk.startServer : simpl never.
Local Arguments austk.main_rest : simpl never.

Lemma Printf_within (allowed : string -> bool) (format : string) :
  allowed "log.Printf" = true -> within allowed (fun _ => True) (Printf format).
Proof. intros Hlog. simpl. auto. Qed.

Lemma runs_call_bind {X A : Type} (c : Call X) (k : X -> prog A) (w : W)
    (post : list event -> outcome A -> W -> Prop) :
  runs h (k (fst (h c w))) (snd (h c w)) (fun tr => post (Ev c (fst (h c w)) :: tr)) ->
  runs h (bind (call c) k) w post.
Proof. simpl. destruct (h c w) as [x w1]. simpl. auto. Qed.

Ltac head_red := cbv beta iota delta [not_nil]; cbn [bind deref fst snd].

(** [main] as a daemon.  When it returns, its last two calls are the wait
    for the quit signal and the deferred [Stop], which is the only [Stop];
    when the process ends through [log.Fatalf], at whatever line, its
    status is 1 and [Stop] was not called: the exit does not run the
    deferred call, and a fatal error of the peer address or of a client
    leaves the started server unstopped. *)
Theorem main_daemon_stops (cfg : Config) (w : W) :
  fst (h LoadConfig w) = (Some cfg, None) ->
  RunAsDaemon cfg = true ->
  let r := run h (austk.main NameToID TitleToHierarchy) w in
  match result r with
  | Returned _ =>
      exists before,
        names (trace r)
        = (before ++ ["AustkServer.WaitUntilQuitSignal"; "AustkServer.Stop"])%list
        /\ ~ In "AustkServer.Stop" before
  | Exited code => code = 1%Z /\ ~ In "AustkServer.Stop" (names (trace r))
  | Panicked _ => True
  end.
Proof.
  intros Hcfg Hdaemon r. subst r. by_runs h.
  pose (Q := fun (tr : list event) (o : outcome unit) (_ : W) =>
               match o with
               | Returned _ =>
                   exists before,
                     names tr
                     = (before ++ ["AustkServer.WaitUntilQuitSignal";
                                   "AustkServer.Stop"])%list
                     /\ ~ In "AustkServer.Stop" before
               | Exited code => code = 1%Z /\ ~ In "AustkServer.Stop" (names tr)
               | Panicked _ => True
               end).
  change (runs h (austk.main NameToID TitleToHierarchy) w Q).
  assert (Hfront : forall tr1 tr2 o w1,
             forallb notStop (names tr1) = true -> Q tr2 o w1 ->
             Q (tr1 ++ tr2)%list o w1).
  { intros tr1 tr2 o w1 H1 H2. apply notStop_spec in H1.
    destruct o as [a | code | msg]; simpl in *; auto.
    - destruct H2 as (before & Hnames & Hbefore).
      exists (names tr1 ++ before)%list. rewrite names_app, Hnames, app_assoc.
      split; [reflexivity |]. intros Hin. apply in_app_or in Hin. tauto.
    - destruct H2 as [-> H2]. split; [reflexivity |]. rewrite names_app.
      intros Hin. apply in_app_or in Hin. tauto. }
  assert (Hexit : forall w1, Q [] (Exited 1%Z) w1).
  { intros w1. simpl. split; [reflexivity | intros []]. }
  assert (Hpanic : forall tr msg w1, Q tr (Panicked msg) w1).
  { intros tr msg w1. exact I. }
  assert (Hstop : forall tr a s u w1,
             forallb notStop (names tr) = true ->
             (exists before,
                 names tr = (before ++ ["AustkServer.WaitUntilQuitSignal"])%list) ->
             Q (tr ++ [Ev (Server_Stop s) u])%list (Returned a) w1).
  { intros tr a s u w1 Hall [before Hnames]. simpl. exists before.
    rewrite names_app, Hnames, <- app_assoc. split; [reflexivity |].
    apply notStop_spec in Hall. rewrite Hnames in Hall.
    intros Hin. apply Hall, in_or_app. auto. }
  clearbody Q.
  assert (Hfatal : forall format w1, runs h (@Fatalf unit format) w1 Q).
  { intros format w1. unfold Fatalf.
    apply runs_after with (allowed := notStop) (ret := fun _ => True); auto.
    - now apply Printf_within.
    - intros _ w2 _. apply Hexit. }
  unfold austk.main. apply runs_call_bind.
  destruct (h LoadConfig w) as [[loaded err] w1]. cbn [fst snd] in *.
  injection Hcfg as -> ->. head_red.
  eapply runs_weaken;
    [intros tr o w2 HQ; apply (Hfront [Ev LoadConfig (Some cfg, None)]);
     [reflexivity | exact HQ] |].
  apply runs_after with (allowed := notStop) (ret := fun _ => True); auto.
  { simpl. auto. }
  intros [localStorage | failure] w2 _; head_red; [| apply Hfatal].
  apply runs_after
    with (allowed := notStop)
         (ret := fun '(_, _, cfg') => RunAsDaemon cfg' = RunAsDaemon cfg); auto.
  { eapply within_allowed; [apply notServerLife_notStop |].
    apply NewLightningNode_within. }
  intros [[lightning err] cfg'] w3 Hflag. rewrite Hdaemon in Hflag.
  destruct err as [err |]; head_red; [apply Hfatal |].
  apply runs_after with (allowed := notStop) (ret := fun _ => True); auto.
  { eapply within_allowed; [apply notServerLife_notStop |].
    apply main_publisher_within. }
  intros austkServer w4 _.
  apply runs_after with (allowed := notStop) (ret := fun _ => True); auto.
  { eapply within_allowed; [apply notServerLife_notStop |].
    apply main_add_within. }
  intros _ w5 _. rewrite Hflag. head_red.
  apply runs_after with (allowed := notStop) (ret := fun _ => True); auto.
  { now apply Printf_within. }
  intros _ w6 _.
  apply runs_after with (allowed := notStop) (ret := fun _ => True); auto.
  { apply startServer_within. }
  intros err w7 _. destruct err as [err |]; head_red; [apply Hfatal |].
  apply (proj2 (runs_defer _ _ _ _)).
  destruct austkServer as [austkServer |];
    [| unfold server.Pubkey, server.Stop, deref; simpl; apply Hpanic].
  unfold server.Pubkey. head_red. apply runs_call_bind.
  destruct (h (Server_Pubkey austkServer) w7) as [[pubkey err] w8]. head_red.
  destruct err as [err |]; head_red.
  - unfold Fatalf, Printf, call. simpl.
    destruct (h (log_Printf _) w8) as [[] w9]. simpl.
    apply (Hfront [Ev (Server_Pubkey austkServer) (pubkey, Some err);
                   Ev (log_Printf _) tt] []); [reflexivity | apply Hexit].
  - eapply runs_weaken; [| apply main_rest_waits].
    2: { destruct cfg'; exact Hflag. }
    unfold server.Stop, deref.
    intros tr [[] | code | msg] w9 [Hall Ho]; simpl.
    + destruct (h (Server_Stop austkServer) w9) as [[] w10]. simpl.
      apply (Hfront [Ev (Server_Pubkey austkServer) (pubkey, None)]);
        [reflexivity |].
      now apply Hstop.
    + subst code. rewrite <- (app_nil_r (_ :: tr)).
      apply Hfront; [| apply Hexit].
      simpl. rewrite Hall. reflexivity.
    + destruct (h (Server_Stop austkServer) w9) as [[] w10]. simpl.
      apply Hpanic.
Qed.

(** [main] when not a daemon neither starts the server, nor stops it, nor
    waits for its quit signal, whatever else happens. *)
Theorem main_server_only_as_daemon (cfg : Config) (w : W) :
  fst (h LoadConfig w) = (Some cfg, None) ->
  RunAsDaemon cfg = false ->
  let r := run h (austk.main NameToID TitleToHierarchy) w in
  forall name, In name serverLife -> ~ In name (names (trace r)).
Proof.
  intros Hcfg Hdaemon r. subst r. apply notServerLife_spec. by_runs h.
  assert (Hfront : forall tr1 tr2 (o : outcome unit) (w1 : W),
             forallb notServerLife (names tr1) = true ->
             forallb notServerLife (names tr2) = true ->
             forallb notServerLife (names (tr1 ++ tr2)) = true).
  { intros tr1 tr2 _ _ H1 H2. rewrite names_app, forallb_app, H1, H2. reflexivity. }
  unfold austk.main. apply runs_call_bind.
  destruct (h LoadConfig w) as [[loaded err] w1]. cbn [fst snd] in *.
  injection Hcfg as -> ->. head_red.
  eapply runs_weaken;
    [intros tr o w2 HQ; apply (Hfront [Ev LoadConfig (Some cfg, None)] tr o w2);
     [reflexivity | exact HQ] |].
  apply runs_after
    with (allowed := notServerLife) (ret := fun _ => True)
         (post := fun tr _ _ => forallb notServerLife (names tr) = true); auto.
  { simpl. auto. }
  intros [localStorage | failure] w2 _; head_red.
  2: { unfold Fatalf, Printf, call. simpl. destruct (h (log_Printf _) w2).
       reflexivity. }
  apply runs_after
    with (allowed := notServerLife)
         (ret := fun '(_, _, cfg') => RunAsDaemon cfg' = RunAsDaemon cfg)
         (post := fun tr _ _ => forallb notServerLife (names tr) = true); auto.
  { apply NewLightningNode_within. }
  intros [[lightning err] cfg'] w3 Hflag. rewrite Hdaemon in Hflag.
  eapply runs_weaken; [| apply within_runs with (ret := fun _ => True)].
  { simpl. intros tr o _ [Hall _]. exact Hall. }
  destruct err as [err |]; head_red;
    [simpl; split; [reflexivity | intros; reflexivity] |].
  rewrite Hflag.
  apply within_bind. eapply within_weaken; [| apply main_publisher_within].
  intros austkServer _.
  apply within_bind. eapply within_weaken; [| apply main_add_within].
  intros _ _. unfold austk.main_rest. rewrite Hflag.
  apply within_bind. eapply within_weaken; [| apply main_peer_within].
  intros _ _.
  apply within_bind. eapply within_weaken; [| apply main_sync_within].
  intros _ _. exact I.
Qed.

(** The other branch of lines 73-79: when [injectPublisher] returns an
    error while an mp3 is to be added or the node runs as a daemon, [main]
    logs the failure and ends the process with status 1; [Artist] is not
    called on the server. *)
Theorem main_publisher_exits_on_error
    (cfg : Config) (localStorage : FileServer)
    (lightning : option LightningNode) (w : W)
    (austkServer : option AustkServer) (err : error) :
  fst (h (injectPublisher cfg localStorage lightning) w) = (austkServer, Some err) ->
  AddMp3Filename cfg <> "" \/ RunAsDaemon cfg = true ->
  let r := run h (austk.main_publisher cfg localStorage lightning) w in
  result r = Exited 1
  /\ names (trace r) = ["injectPublisher"; "log.Printf"]
  /\ artistReads (trace r) = [].
Proof.
  intros Hinject Hmode. unfold austk.main_publisher, server.Artist, deref.
  simpl. destruct (h (injectPublisher _ _ _) w) as [injected w1].
  simpl in Hinject. subst injected. simpl.
  assert (Hfatal : negb (String.eqb (AddMp3Filename cfg) "") || RunAsDaemon cfg = true).
  { destruct Hmode as [Hadd | Hdaemon].
    - apply String.eqb_neq in Hadd. rewrite Hadd. reflexivity.
    - rewrite Hdaemon. apply orb_true_r. }
  rewrite Hfatal. simpl.
  destruct (h (log_Printf _) w1) as [logged w2]. simpl. auto.
Qed.

End Daemon.

(** * The further properties on the scenarios *)

(** The catalogue signed by [K1] in an envelope without artist. *)
Lemma ValidatePublication_nil_artist_panics_witness :
  let r := run reference.collaborators
             (lightningNode.ValidatePublication scenario.node scenario.anonymous)
             scenario.world in
  result r = Panicked nil_dereference
  /\ trace r = [Ev (verifyCall scenario.node scenario.anonymous)
                   (inl {| lnrpc.Valid := true; lnrpc.Pubkey := scenario.K1 |})].
Proof.
  apply (@ValidatePublication_nil_artist_panics _ reference.collaborators
           scenario.node scenario.anonymous scenario.world
           {| lnrpc.Valid := true; lnrpc.Pubkey := scenario.K1 |});
    reflexivity.
Defined.

(** The genuine envelope is decoded to the catalogue. *)
Lemma ValidatePublication_returns_decoded_witness :
  result (run reference.collaborators
            (lightningNode.ValidatePublication scenario.node scenario.genuine)
            scenario.world)
  = Returned (Some scenario.catalogue, None).
Proof.
  exact (@ValidatePublication_returns_decoded _ reference.collaborators
           scenario.node scenario.genuine scenario.world scenario.world
           {| lnrpc.Valid := true; lnrpc.Pubkey := scenario.K1 |} scenario.alice
           eq_refl eq_refl eq_refl eq_refl).
Defined.

(** The configured artist is not in the store: it is stored with the
    identity pubkey of lnd. *)
Lemma NewLightningNode_publishing_artist_witness :
  let r := run reference.collaborators
             (lightningNode.NewLightningNode scenario.cfg 0) scenario.world in
  result r = Returned ((Some scenario.node, None), scenario.cfg)
  /\ storedArtists (trace r) = [scenario.alice]
  /\ lndIdentities (trace r) = [scenario.K1].
Proof.
  split; [reflexivity |]. split; [reflexivity |].
  exact (proj1 (proj2 (@NewLightningNode_publishing_artist _ reference.collaborators
                         scenario.cfg scenario.cfg 0 scenario.world scenario.node
                         eq_refl))).
Defined.

(** The configured pubkey is [K2], lnd holds [K1]. *)
Lemma NewLightningNode_pubkey_mismatch_witness :
  let r := run reference.collaborators
             (lightningNode.NewLightningNode scenario.cfgMisconfigured 0)
             scenario.world in
  result r = Exited 1 /\ storedArtists (trace r) = [].
Proof.
  apply (@NewLightningNode_pubkey_mismatch _ reference.collaborators
           scenario.cfgMisconfigured 0 scenario.world scenario.K1).
  - discriminate.
  - discriminate.
  - vm_compute. left. reflexivity.
Defined.

(** No artist is configured. *)
Lemma NewLightningNode_no_artist_witness :
  let r := run reference.collaborators
             (lightningNode.NewLightningNode scenario.cfgNoArtist 0)
             scenario.world in
  (forall node cfg', result r <> Returned ((Some node, None), cfg'))
  /\ ~ In "ArtServer.Artist" (names (trace r))
  /\ storedArtists (trace r) = [].
Proof.
  apply (@NewLightningNode_no_artist _ reference.collaborators
           scenario.cfgNoArtist 0 scenario.world).
  reflexivity.
Defined.

(** The file of the track "Would?" is added. *)
Lemma storeMp3File_success_witness :
  let r := run reference.collaborators
             (austk.storeMp3File reference.NameToID reference.NameToID
                scenario.cfg "would.mp3" 0 (Some 0))
             scenario.world in
  exists track payload resources publication before,
    storedTracks (trace r) = [track]
    /\ readPayloads (trace r) = [payload]
    /\ storedPayloads (trace r) = [(track, payload)]
    /\ collectedResources (trace r) = [resources]
    /\ serverSigned (trace r) = [(resources, publication)]
    /\ storedPublications (trace r) = [publication]
    /\ work (trace r)
       = (before ++ ["StoreTrack"; "ReadBytes"; "StoreTrackPayload";
                     "CollectResources"; "AustkServer.Sign"; "StorePublication"])%list.
Proof.
  apply (@storeMp3File_success reference.NameToID reference.NameToID _
           reference.collaborators scenario.cfg "would.mp3" 0 (Some 0)
           scenario.world scenario.would).
  vm_compute. reflexivity.
Defined.

(** The same file while the store fails on albums. *)
Lemma storeMp3File_success_after_failure_witness :
  let r := run reference.collaborators
             (austk.storeMp3File reference.NameToID reference.NameToID
                scenario.cfg "would.mp3" 0 (Some 0))
             scenario.worldAlbumFailure in
  failedStores (trace r) = failedAlbumStores (trace r).
Proof.
  apply (@storeMp3File_success_after_failure reference.NameToID reference.NameToID _
           reference.collaborators scenario.cfg "would.mp3" 0 (Some 0)
           scenario.worldAlbumFailure scenario.would).
  vm_compute. reflexivity.
Defined.

(** The peer [good] given as [03d1@good.onion:53545]. *)
Lemma main_peer_roundtrip_witness :
  let r := run reference.collaborators
             (austk.main_peer scenario.cfgPeer 0 (Some 0)) scenario.world in
  storedPeers (trace r) = [scenario.good]
  /\ work (trace r) = ["StorePeer"]
  /\ PeerAddress scenario.cfgPeer = "03d1" ++ "@" ++ peerAddress scenario.good
  /\ (failedStores (trace r) = [] <-> result r = Returned tt).
Proof.
  apply (@main_peer_roundtrip _ reference.collaborators scenario.cfgPeer 0 (Some 0)
           scenario.world "03d1" "good.onion" 53545%N).
  - discriminate.
  - reflexivity.
  - discriminate.
  - reflexivity.
  - vm_compute. discriminate.
  - reflexivity.
Defined.

(** The peer [good] misbehaves. *)
Lemma syncPeer_sync_error_continues_witness :
  let r := run reference.collaborators
             (austk.syncPeer scenario.cfg 0 (Some 0) scenario.good)
             scenario.worldMisbehaving in
  result r = Returned tt
  /\ names (trace r)
     = ["log.Printf"; "NewClient"; "Client.SyncFromPeer"; "log.Printf";
        "Client.CloseConnection"]
  /\ syncedClients (trace r) = [0%nat]
  /\ clientsClosed (trace r) = [0%nat].
Proof.
  destruct (@syncPeer_sync_error_continues _ reference.collaborators scenario.cfg 0
              (Some 0) scenario.good scenario.worldMisbehaving 0%nat None
              (ExternalError "publication failed validation")
              eq_refl eq_refl eq_refl) as (Hresult & Htrace & Hsynced & Hclosed).
  split; [exact Hresult |].
  split; [exact (f_equal names Htrace) |].
  split; [exact Hsynced | exact Hclosed].
Defined.

(** Without the play flag, on the three stored peers. *)
Lemma main_sync_without_play_witness :
  incl (work (trace (run reference.collaborators
                       (austk.main_sync scenario.cfg 0 (Some 0))
                       scenario.worldPeers)))
       ["Peers"; "NewClient"; "Client.SyncFromPeer"; "Client.CloseConnection"].
Proof.
  apply (@main_sync_without_play _ reference.collaborators scenario.cfg 0 (Some 0)
           scenario.worldPeers).
  reflexivity.
Defined.

(** In play mode, a sync of [good] that returns neither resources nor an
    error. *)
Lemma syncPeer_nil_resources_witness :
  let r := run reference.collaborators
             (austk.syncPeer scenario.cfgPlay 0 (Some 0) scenario.good)
             scenario.worldNilSync in
  result r = Panicked nil_dereference /\ clientsClosed (trace r) = [].
Proof.
  exact (@syncPeer_nil_resources _ reference.collaborators scenario.cfgPlay 0
           (Some 0) scenario.good scenario.worldNilSync 0%nat
           eq_refl eq_refl eq_refl).
Defined.

(** The daemon that gets its quit signal. *)
Lemma main_daemon_stops_witness :
  let r := run reference.collaborators
             (austk.main reference.NameToID reference.NameToID)
             scenario.worldDaemon in
  result r = Returned tt
  /\ exists before,
       names (trace r)
       = (before ++ ["AustkServer.WaitUntilQuitSignal"; "AustkServer.Stop"])%list
       /\ ~ In "AustkServer.Stop" before.
Proof.
  intros r.
  assert (Hreturned : result r = Returned tt) by reflexivity.
  split; [exact Hreturned |].
  pose proof (@main_daemon_stops reference.NameToID reference.NameToID _
                reference.collaborators scenario.cfgDaemon scenario.worldDaemon
                eq_refl eq_refl) as Hstops.
  cbv zeta in Hstops. fold r in Hstops. rewrite Hreturned in Hstops.
  exact Hstops.
Defined.

(** The same node when not a daemon. *)
Lemma main_server_only_as_daemon_witness :
  fst (reference.collaborators LoadConfig scenario.world) = (Some scenario.cfg, None)
  /\ RunAsDaemon scenario.cfg = false
  /\ forall name, In name serverLife ->
       ~ In name (names (trace (run reference.collaborators
                                  (austk.main reference.NameToID reference.NameToID)
                                  scenario.world))).
Proof.
  split; [reflexivity |]. split; [reflexivity |].
  exact (@main_server_only_as_daemon reference.NameToID reference.NameToID _
           reference.collaborators scenario.cfg scenario.world eq_refl eq_refl).
Defined.

(** The daemon whose publisher cannot be built. *)
Lemma main_publisher_exits_on_error_witness :
  let r := run reference.collaborators
             (austk.main_publisher scenario.cfgDaemon 0 None)
             scenario.worldNoPublisher in
  result r = Exited 1
  /\ names (trace r) = ["injectPublisher"; "log.Printf"]
  /\ artistReads (trace r) = [].
Proof.
  apply (@main_publisher_exits_on_error _ reference.collaborators
           scenario.cfgDaemon 0 None scenario.worldNoPublisher None
           reference.unavailable).
  - reflexivity.
  - right. reflexivity.
Defined.
